(** * Mr. Hedgehog: the graph view of the Qt front end

    A shallow embedding of [frontend/src/graphview.cpp] and [graphview.h]:
    the DOT reader ([GraphView::parseDotFile] with its two regular
    expressions), the node map ([QMap<QString, QGraphicsEllipseItem*>]),
    the grid layout, the placeholder and the scene that owns the items,
    the background grid and the zoom of the wheel; and, with them, the
    hedgehogs that walk over the canvas.

    Conventions.
    - A [QString] is a Stdlib [string]; one [ascii] stands for one code
      unit, so [QString::length] is [String.length] and the model covers
      the texts whose code units fit in eight bits.
    - [qreal] coordinates that the code builds from small integers
      ([col * NODE_SPACING_X], [NODE_WIDTH / 2]) are exact in a double and
      are kept as [Z]; so are the [int] counters [row] and [col] of the
      layout, which stay far from the bounds of [int] for any map that
      fits in memory.
    - The scale of the view transform, which the wheel multiplies without
      any bound, is a [double] and is kept as a primitive [float]; what the
      operations on floats compute is taken from the specification that the
      library gives of them ([Prim2SF], [mul_spec] and the like).
    - The scene is a store of items addressed by handle (the index at which
      [addEllipse], [addText], [addLine], [addPolygon] put the item); the
      node map holds handles, as [m_nodes] holds pointers into the scene. *)

From Stdlib Require Import FloatClass PrimFloat FloatOps FloatAxioms SpecFloat.
From Stdlib Require Import Bool Arith ZArith Lia List.
From Stdlib Require Import Ascii String.
From Stdlib Require Import OrderedTypeEx FMapList FMapFacts.
From Stdlib Require Import Reals Lra.
From Stdlib Require Import QArith Qround.
Import ListNotations.

Close Scope Q_scope.

Open Scope string_scope.

(** ** QString operations used by the view *)

Module QStr.

(** [QString::right(n)]: the [n] rightmost code units, the whole string
    when [n] is not smaller than its length. *)
Definition right (n : nat) (s : string) : string :=
  substring (String.length s - n) n s.

(** [QString::split(sep)] with the default [Qt::KeepEmptyParts]: the
    pieces between the separators, an input without separator giving a
    single piece. *)
Fixpoint split (sep : ascii) (s : string) : list string :=
  match s with
  | EmptyString => [EmptyString]
  | String c s' =>
      if Ascii.eqb c sep then EmptyString :: split sep s'
      else match split sep s' with
           | [] => [String c EmptyString]
           | piece :: rest => String c piece :: rest
           end
  end.

(** [QString::contains(str)]. *)
Fixpoint contains (needle hay : string) : bool :=
  if prefix needle hay then true
  else match hay with
       | EmptyString => false
       | String _ hay' => contains needle hay'
       end.

Definition newline : ascii := "010"%char.

Definition dquote : ascii := "034"%char.

(** Writes a text that holds double quotes: every apostrophe of [s] stands
    for a double quote. *)
Fixpoint dq (s : string) : string :=
  match s with
  | EmptyString => EmptyString
  | String c s' => String (if Ascii.eqb c "'"%char then dquote else c) (dq s')
  end.

End QStr.

(** ** The fragment of QRegularExpression the parser uses

    Both patterns of [parseDotFile] are sequences of single characters or
    classes, greedy repetitions of a class, and capture groups. The matcher
    is a backtracking one: a greedy repetition takes as many characters as
    it can and gives them back one at a time when the rest of the pattern
    fails; [QRegularExpression::match] reports the leftmost match. *)

Module Regex.

Inductive item : Type :=
| One (p : ascii -> bool)          (* a literal or a class, once *)
| Star (p : ascii -> bool)         (* p*, greedy *)
| Plus (p : ascii -> bool)         (* p+, greedy *)
| GOpen                            (* ( *)
| GClose.                          (* ) *)

Definition pattern := list item.

(** Capture state: the groups already closed, most recent first, and the
    text of the group being read, most recent character first. *)
Record caps : Type := mkCaps {
  closed : list string;
  opened : option (list ascii)
}.

Definition caps0 : caps := mkCaps [] None.

Definition push (c : ascii) (st : caps) : caps :=
  match opened st with
  | Some acc => mkCaps (closed st) (Some (c :: acc))
  | None => st
  end.

Definition open_group (st : caps) : caps := mkCaps (closed st) (Some []).

Definition close_group (st : caps) : caps :=
  match opened st with
  | Some acc => mkCaps (string_of_list_ascii (rev acc) :: closed st) None
  | None => st
  end.

(** Greedy repetition of the class [p] followed by the continuation [k];
    [ok] tells whether stopping here is allowed (always for [p*], after the
    first character for [p+]). *)
Fixpoint repeat_class (p : ascii -> bool) (k : string -> caps -> option (list string))
    (ok : bool) (s : string) (st : caps) : option (list string) :=
  let stop := if ok then k s st else None in
  match s with
  | String c s' =>
      if p c then
        match repeat_class p k true s' (push c st) with
        | Some r => Some r
        | None => stop
        end
      else stop
  | EmptyString => stop
  end.

(** Match [pat] at the start of [s]; the result lists the captures in
    group order. *)
Fixpoint match_here (pat : pattern) : string -> caps -> option (list string) :=
  match pat with
  | [] => fun _ st => Some (rev (closed st))
  | One p :: rest => fun s st =>
      match s with
      | String c s' => if p c then match_here rest s' (push c st) else None
      | EmptyString => None
      end
  | Star p :: rest => repeat_class p (match_here rest) true
  | Plus p :: rest => repeat_class p (match_here rest) false
  | GOpen :: rest => fun s st => match_here rest s (open_group st)
  | GClose :: rest => fun s st => match_here rest s (close_group st)
  end.

(** [QRegularExpression::match(subject)]: the match starting at the
    smallest offset; [None] stands for a match whose [hasMatch()] is
    false. *)
Fixpoint rmatch (pat : pattern) (s : string) : option (list string) :=
  match match_here pat s caps0 with
  | Some r => Some r
  | None => match s with
            | EmptyString => None
            | String _ s' => rmatch pat s'
            end
  end.

(** [captured(n)], [n >= 1]; a group that is absent gives the null string. *)
Definition captured (n : nat) (m : list string) : string :=
  nth (n - 1) m EmptyString.

(** A literal text. *)
Fixpoint lit (s : string) : pattern :=
  match s with
  | EmptyString => []
  | String c s' => One (Ascii.eqb c) :: lit s'
  end.

(** The double quote, and the class of every character but the double
    quote. *)
Definition quote : item := One (Ascii.eqb QStr.dquote).

Definition not_quote (c : ascii) : bool := negb (Ascii.eqb c QStr.dquote).

(** [\s]: horizontal tab, line feed, vertical tab, form feed, carriage
    return and space. *)
Definition space (c : ascii) : bool :=
  let n := nat_of_ascii c in
  (Nat.leb 9 n && Nat.leb n 13) || Nat.eqb n 32.

End Regex.

Import Regex.

(** The node pattern, with an apostrophe for each double quote of the
    source: ['([^']+)'\s*\[label='([^']+)'\]] *)
Definition nodeRegex : pattern :=
  ([quote; GOpen; Plus not_quote; GClose; quote; Star space] ++
   lit "[label=" ++
   [quote; GOpen; Plus not_quote; GClose; quote] ++ lit "]")%list.

(** The edge pattern, written the same way: ['([^']+)'\s*->\s*'([^']+)'] *)
Definition edgeRegex : pattern :=
  ([quote; GOpen; Plus not_quote; GClose; quote; Star space] ++
   lit "->" ++
   [Star space; quote; GOpen; Plus not_quote; GClose; quote])%list.

(** ** The node map

    [m_nodes] is a [QMap<QString, QGraphicsEllipseItem*>]: a map ordered by
    key, whose iterator visits the entries by ascending key. [QString]'s
    [operator<] compares code units lexicographically, which is the order
    of [String_as_OT]; a map over a sorted association list has the same
    lookups and the same iteration order. *)

Module QMap := FMapList.Make String_as_OT.
Module QMapFacts := FMapFacts.Facts QMap.
Module QMapProps := FMapFacts.Properties QMap.

(** ** The scene and the view *)

Definition point : Type := (Z * Z)%type.

Definition padd (p q : point) : point := (fst p + fst q, snd p + snd q)%Z.

Definition NODE_WIDTH : Z := 150.
Definition NODE_HEIGHT : Z := 40.
Definition NODE_SPACING_X : Z := 200.
Definition NODE_SPACING_Y : Z := 80.

(** The items a [GraphView] puts in its scene. An ellipse carries its
    position and the text of its child label; the arrowhead polygon is kept
    by the segment it decorates (its two back corners come from [atan2],
    [cos] and [sin] and are not computed here). *)
Inductive Item : Type :=
| EllipseItem (pos : point) (text : string)
| TextItem (message : string) (pointSize : Z)
| LineItem (p1 p2 : point)
| PolygonItem (tail tip : point).

(** The calls the view makes on its own [QGraphicsView] base, in order. *)
Inductive ViewOp : Type :=
| VSetSceneRect (margin : Z)      (* setSceneRect(itemsBoundingRect().adjusted(-m,-m,m,m)) *)
| VFitInView                      (* fitInView(itemsBoundingRect(), Qt::KeepAspectRatio) *)
| VScale (num den : Z).           (* scale(f, f) with f = num/den *)

Record GraphView : Type := mkGraphView {
  m_scene : list Item;
  m_nodes : QMap.t nat;
  m_placeholderText : option nat;
  view_calls : list ViewOp
}.

(** [QGraphicsItem::pos] of the ellipse behind a handle. *)
Definition itemPos (scene : list Item) (h : nat) : point :=
  match nth_error scene h with
  | Some (EllipseItem p _) => p
  | _ => (0, 0)%Z
  end.

(** [QGraphicsItem::setPos] through a handle. *)
Fixpoint setPos (h : nat) (p : point) (scene : list Item) : list Item :=
  match scene, h with
  | [], _ => []
  | EllipseItem _ t :: rest, O => EllipseItem p t :: rest
  | it :: rest, O => it :: rest
  | it :: rest, S h' => it :: setPos h' p rest
  end.

(** [GraphView::clear] *)
Definition clear (g : GraphView) : GraphView :=
  mkGraphView [] (QMap.empty nat) None (view_calls g).

(** [GraphView::showPlaceholder] *)
Definition showPlaceholder (message : string) (g : GraphView) : GraphView :=
  let g := clear g in
  mkGraphView (m_scene g ++ [TextItem message 16])
              (m_nodes g)
              (Some (List.length (m_scene g)))
              (view_calls g ++ [VSetSceneRect 100]).

(** The label shown in a node (lines 128-132 of [createNode]). *)
Definition displayLabel (label : string) : string :=
  if Nat.ltb 20 (String.length label)
  then "..." ++ QStr.right 20 label
  else label.

(** [m_nodes[id]] for a key the map holds (the code reads it only after
    [contains]); the null handle otherwise. *)
Definition nodeAt (id : string) (m : QMap.t nat) : nat :=
  match QMap.find id m with
  | Some h => h
  | None => O
  end.

(** [GraphView::createNode]: the handle of the node and the view after the
    call. *)
Definition createNode (id label : string) (g : GraphView) : nat * GraphView :=
  if QMap.mem id (m_nodes g) then (nodeAt id (m_nodes g), g)
  else
    let node := List.length (m_scene g) in
    (node, mkGraphView (m_scene g ++ [EllipseItem (0, 0)%Z (displayLabel label)])
                       (QMap.add id node (m_nodes g))
                       (m_placeholderText g)
                       (view_calls g)).

(** [GraphView::createEdge] *)
Definition createEdge (from to : string) (g : GraphView) : GraphView :=
  if negb (QMap.mem from (m_nodes g)) || negb (QMap.mem to (m_nodes g)) then g
  else
    let fromNode := nodeAt from (m_nodes g) in
    let toNode := nodeAt to (m_nodes g) in
    let fromCenter := padd (itemPos (m_scene g) fromNode) (NODE_WIDTH / 2, NODE_HEIGHT)%Z in
    let toCenter := padd (itemPos (m_scene g) toNode) (NODE_WIDTH / 2, 0)%Z in
    mkGraphView (m_scene g ++ [LineItem fromCenter toCenter;
                               PolygonItem fromCenter toCenter])%list
                (m_nodes g) (m_placeholderText g) (view_calls g).

(** One turn of the loop of [layoutGraph]: place the node, then advance
    the column and wrap. *)
Definition layoutStep (maxCols : Z) (st : list Item * (Z * Z)) (entry : string * nat)
  : list Item * (Z * Z) :=
  let '(scene, (row, col)) := st in
  let scene := setPos (snd entry) (col * NODE_SPACING_X, row * NODE_SPACING_Y)%Z scene in
  let col := (col + 1)%Z in
  if (col >=? maxCols)%Z then (scene, ((row + 1)%Z, 0%Z)) else (scene, (row, col)).

(** [GraphView::layoutGraph] *)
Definition layoutGraph (g : GraphView) : GraphView :=
  if QMap.is_empty (m_nodes g) then g
  else
    let maxCols := 5%Z in
    let '(scene, _) :=
      fold_left (layoutStep maxCols) (QMap.elements (m_nodes g)) (m_scene g, (0%Z, 0%Z)) in
    mkGraphView scene (m_nodes g) (m_placeholderText g) (view_calls g).

(** The body of the line loop of [parseDotFile]: the view and the list of
    collected edges after one line. *)
Definition parseLine (st : GraphView * list (string * string)) (line : string)
  : GraphView * list (string * string) :=
  let '(g, edges) := st in
  match rmatch nodeRegex line with
  | Some nodeMatch =>
      (snd (createNode (captured 1 nodeMatch) (captured 2 nodeMatch) g), edges)
  | None =>
      match rmatch edgeRegex line with
      | Some edgeMatch =>
          (g, (edges ++ [(captured 1 edgeMatch, captured 2 edgeMatch)])%list)
      | None => (g, edges)
      end
  end.

(** [GraphView::parseDotFile] *)
Definition parseDotFile (content : string) (g : GraphView) : GraphView :=
  let g := clear g in
  let lines := QStr.split QStr.newline content in
  let '(g, edges) := fold_left parseLine lines (g, []) in
  let g := layoutGraph g in
  let g := fold_left (fun g edge => createEdge (fst edge) (snd edge) g) edges g in
  if negb (QMap.is_empty (m_nodes g)) then
    mkGraphView (m_scene g) (m_nodes g) (m_placeholderText g)
                (view_calls g ++ [VSetSceneRect 50; VFitInView; VScale 9 10])%list
  else showPlaceholder "No nodes found in the call graph" g.

(** The files the view can be asked to read: [files] gives the text of
    the paths that [QFile::open] can open, [openCalls] records each call
    of [QFile::open]. *)
Record World : Type := mkWorld {
  files : string -> option string;
  openCalls : list string
}.

(** [GraphView::loadDotFile] *)
Definition loadDotFile (filePath : string) (w : World) (g : GraphView)
  : World * GraphView :=
  let w' := mkWorld (files w) (openCalls w ++ [filePath]) in
  match files w filePath with
  | None => (w', showPlaceholder ("Failed to open output file:" ++ String QStr.newline filePath) g)
  | Some content => (w', parseDotFile content g)
  end.

(** The view as the constructor leaves it. *)
Definition initialView : GraphView :=
  showPlaceholder
    ("Select a folder and click 'Run Analysis'" ++
     String QStr.newline "to visualize the call graph")
    (mkGraphView [] (QMap.empty nat) None []).

(** ** What a text declares

    The vocabulary of the properties below: the node and edge declarations
    of a text, the identifiers in the order in which they are first seen,
    the grid cell of a rank, and the two states of the scene. *)

Definition textLines (content : string) : list string :=
  QStr.split QStr.newline content.

(** A line is a node declaration when the node pattern matches it. *)
Definition nodeDecl (line : string) : option (string * string) :=
  match rmatch nodeRegex line with
  | Some m => Some (captured 1 m, captured 2 m)
  | None => None
  end.

(** A line is an edge declaration when it is not a node declaration and the
    edge pattern matches it. *)
Definition edgeDecl (line : string) : option (string * string) :=
  match rmatch nodeRegex line with
  | Some _ => None
  | None =>
      match rmatch edgeRegex line with
      | Some m => Some (captured 1 m, captured 2 m)
      | None => None
      end
  end.

Fixpoint collect {A B : Type} (f : A -> option B) (l : list A) : list B :=
  match l with
  | [] => []
  | a :: l' => match f a with
               | Some b => b :: collect f l'
               | None => collect f l'
               end
  end.

Definition nodeDecls (content : string) : list (string * string) :=
  collect nodeDecl (textLines content).

Definition edgeDecls (content : string) : list (string * string) :=
  collect edgeDecl (textLines content).

Definition declared (decls : list (string * string)) (id : string) : bool :=
  existsb (String.eqb id) (map fst decls).

(** [firstSeen decls]: the declarations that introduce an identifier, in
    file order; a declaration of an identifier already met is skipped. *)
Definition remember (acc : list (string * string)) (d : string * string)
  : list (string * string) :=
  if declared acc (fst d) then acc else (acc ++ [d])%list.

Definition firstSeen (decls : list (string * string)) : list (string * string) :=
  fold_left remember decls [].

(** The position of the grid cell of rank [k]: column [k mod 5], row
    [k div 5]. *)
Definition cell (k : nat) : point :=
  ((Z.of_nat k mod 5) * NODE_SPACING_X, (Z.of_nat k / 5) * NODE_SPACING_Y)%Z.

Definition isEllipse (it : Item) : bool :=
  match it with EllipseItem _ _ => true | _ => false end.

Definition isLine (it : Item) : bool :=
  match it with LineItem _ _ => true | _ => false end.

Definition isText (it : Item) : bool :=
  match it with TextItem _ _ => true | _ => false end.

Definition nodeCount (g : GraphView) : nat := QMap.cardinal (m_nodes g).

Definition edgeCount (g : GraphView) : nat :=
  List.length (filter isLine (m_scene g)).

(** The text of the node [id], when the view has it. *)
Definition nodeText (g : GraphView) (id : string) : option string :=
  match QMap.find id (m_nodes g) with
  | Some h => match nth_error (m_scene g) h with
              | Some (EllipseItem _ t) => Some t
              | _ => None
              end
  | None => None
  end.

(** The position of the node [id], when the view has it. *)
Definition nodePos (g : GraphView) (id : string) : option point :=
  match QMap.find id (m_nodes g) with
  | Some h => Some (itemPos (m_scene g) h)
  | None => None
  end.

(** The rank of [id] in the order in which [layoutGraph] visits the map. *)
Fixpoint rankIn (id : string) (l : list (string * nat)) : option nat :=
  match l with
  | [] => None
  | (k, _) :: l' =>
      if String.eqb id k then Some O
      else match rankIn id l' with Some r => Some (S r) | None => None end
  end.

Definition layoutSlot (g : GraphView) (id : string) : option nat :=
  rankIn id (QMap.elements (m_nodes g)).

(** Placeholder state: no node, no edge, and the scene shows one message. *)
Definition placeholderState (g : GraphView) : Prop :=
  QMap.is_empty (m_nodes g) = true /\
  exists message size,
    m_scene g = [TextItem message size] /\ m_placeholderText g = Some O.

(** Graph state: at least one node, no message; every item is a node, an
    edge segment or its arrowhead. *)
Definition graphState (g : GraphView) : Prop :=
  QMap.is_empty (m_nodes g) = false /\
  m_placeholderText g = None /\
  forallb (fun it => negb (isText it)) (m_scene g) = true.

(** The scene after [clear]: nothing in it. *)
Definition emptyScene (g : GraphView) : Prop :=
  m_scene g = [] /\ QMap.is_empty (m_nodes g) = true /\ m_placeholderText g = None.

(** ** Auxiliary notions of the proofs

    [tracks acc g]: the view [g] holds one ellipse per declaration of
    [acc], in that order, and its map sends each identifier of [acc] to the
    handle of its ellipse. [placements] and [placeAll] spell out the loop of
    [layoutGraph]; [lastPos] and [relocate] give the item a handle ends
    with; [resolvable] is the test of [createEdge]. *)

Definition nodeItem (d : string * string) : Item :=
  EllipseItem (0, 0)%Z (displayLabel (snd d)).

Definition tracks (acc : list (string * string)) (g : GraphView) : Prop :=
  m_scene g = map nodeItem acc /\
  (forall id h, QMap.find id (m_nodes g) = Some h <->
                nth_error (map fst acc) h = Some id) /\
  NoDup (map fst acc) /\
  m_placeholderText g = None.

Definition reposition (p : point) (it : Item) : Item :=
  match it with
  | EllipseItem _ t => EllipseItem p t
  | _ => it
  end.

(** The placements [layoutGraph] makes, as a list: the loop over the map
    entries assigns the cell of rank [i], [i + 1], ... to the handles. *)
Fixpoint placements (i : nat) (entries : list (string * nat)) : list (nat * point) :=
  match entries with
  | [] => []
  | e :: rest => (snd e, cell i) :: placements (S i) rest
  end.

Definition placeAll (ps : list (nat * point)) (scene : list Item) : list Item :=
  fold_left (fun sc a => setPos (fst a) (snd a) sc) ps scene.

(** The position a handle ends with after a list of placements: that of
    the last placement that names it. *)
Definition lastPos (ps : list (nat * point)) (i : nat) (p : point) : point :=
  fold_left (fun q a => if Nat.eqb i (fst a) then snd a else q) ps p.

Definition relocate (ps : list (nat * point)) (i : nat) (it : Item) : Item :=
  match it with
  | EllipseItem p t => EllipseItem (lastPos ps i p) t
  | _ => it
  end.

Definition resolvable (m : QMap.t nat) (e : string * string) : bool :=
  QMap.mem (fst e) m && QMap.mem (snd e) m.

Definition isDecoration (it : Item) : bool :=
  match it with LineItem _ _ | PolygonItem _ _ => true | _ => false end.

Definition noNodesMessage : string := "No nodes found in the call graph".

(** The reading of the layout by first-seen order: the declaration that
    introduces the [k]-th identifier of the text has its node in the cell
    of rank [k]. *)
Definition layoutInFirstSeenOrder : Prop :=
  forall content g k id label,
    nth_error (firstSeen (nodeDecls content)) k = Some (id, label) ->
    nodePos (parseDotFile content g) id = Some (cell k).

(** The reading in which a later declaration replaces the label: the node
    of an identifier declared more than once shows the label of its last
    declaration. *)
Definition lastLabelShown : Prop :=
  forall content g before id label after,
    nodeDecls content = (before ++ (id, label) :: after)%list ->
    In id (map fst before) -> ~ In id (map fst after) ->
    nodeText (parseDotFile content g) id = Some (displayLabel label).

(** Exactly one of the two states. *)
Definition oneState (g : GraphView) : Prop :=
  (placeholderState g /\ ~ graphState g) \/ (graphState g /\ ~ placeholderState g).

(** The reading in which every public operation leaves one of the two
    states. *)
Definition everyOperationLeavesOneState : Prop :=
  forall (w : World) (g : GraphView) (filePath message : string),
    oneState (snd (loadDotFile filePath w g)) /\
    oneState (showPlaceholder message g) /\
    oneState (clear g).

(** ** Plain texts and the tails of the two patterns

    A text is [plain] when it is not empty and holds no double quote.
    [nodeTail] and [edgeTail] are what follows the first quoted group in
    each pattern. *)

Fixpoint allChars (p : ascii -> bool) (s : string) : bool :=
  match s with
  | EmptyString => true
  | String c s' => p c && allChars p s'
  end.

Definition plain (s : string) : Prop :=
  s <> "" /\ allChars not_quote s = true.

Definition notBracket (c : ascii) : bool := negb (Ascii.eqb c "["%char).

Fixpoint pushAll (s : string) (st : caps) : caps :=
  match s with
  | EmptyString => st
  | String c s' => pushAll s' (push c st)
  end.

Definition isEmpty (s : string) : bool :=
  match s with EmptyString => true | _ => false end.

Definition nodeTail : pattern :=
  (Star space :: lit "[label=" ++
   [quote; GOpen; Plus not_quote; GClose; quote] ++ lit "]")%list.

Definition edgeTail : pattern :=
  (Star space :: lit "->" ++
   [Star space; quote; GOpen; Plus not_quote; GClose; quote])%list.

(** The texts of the end-to-end scenarios. *)
Definition scenarioA : string :=
  (QStr.dq "'a' [label='main'];" ++ String QStr.newline
     (QStr.dq "'b' [label='helper'];" ++ String QStr.newline
        (QStr.dq "'a' -> 'b';")))%string.

(** An edge that names a node declared after it, and one that names a
    node never declared. *)
Definition forwardEdges : string :=
  (QStr.dq "'a' -> 'b';" ++ String QStr.newline
     (QStr.dq "'a' -> 'z';" ++ String QStr.newline
        (QStr.dq "'b' [label='helper'];" ++ String QStr.newline
           (QStr.dq "'a' [label='main'];"))))%string.

(** ** The hedgehogs

    [graphview.h] declares the class [Hedgehog] (its fields and the
    methods [setSceneBounds], [randomWalk] and [pickNewTarget]); the bodies
    of the three methods are not part of the sources at hand, so they are
    written here after the specification, over the reals: the state
    machine of section 4.5, with the confinement that sections 1 and 8 and
    the glossary ask of an agent (it must stay within the visible bounds,
    it never leaves the canvas bounds at the end of a tick, it is confined
    to the visible canvas). The footprint of an agent and the arrival
    distance are parameters, and so is the random source: each
    re-targeting consumes one [Sample]. *)

Module Hedgehog.

Local Open Scope R_scope.

Definition vec : Type := (R * R)%type.

Record Rect : Type := mkRect {
  rleft : R; rtop : R; rright : R; rbottom : R
}.

Definition width (b : Rect) : R := rright b - rleft b.
Definition height (b : Rect) : R := rbottom b - rtop b.

Definition inBounds (b : Rect) (p : vec) : Prop :=
  rleft b <= fst p <= rright b /\ rtop b <= snd p <= rbottom b.

Definition inBounds_dec (b : Rect) (p : vec) : {inBounds b p} + {~ inBounds b p}.
Proof.
  unfold inBounds.
  destruct (Rle_dec (rleft b) (fst p)); [| right; tauto].
  destruct (Rle_dec (fst p) (rright b)); [| right; tauto].
  destruct (Rle_dec (rtop b) (snd p)); [| right; tauto].
  destruct (Rle_dec (snd p) (rbottom b)); [| right; tauto].
  left; tauto.
Defined.

(** The fields of [Hedgehog], with [pos] for the position the class
    inherits from its graphics item. *)
Record Agent : Type := mkAgent {
  pos : vec;
  m_velocity : vec;
  m_targetPos : vec;
  m_bounds : Rect;
  m_speed : R;
  m_changeDirectionCounter : nat;
  m_facingRight : bool
}.

(** One use of the random source: two draws in [0, 1] for the target and
    the next value of the countdown. *)
Record Sample : Type := mkSample { ux : R; uy : R; ticks : nat }.

Definition goodSample (s : Sample) : Prop :=
  0 <= ux s <= 1 /\ 0 <= uy s <= 1 /\ (0 < ticks s)%nat.

Definition dist (p q : vec) : R :=
  sqrt ((fst q - fst p) * (fst q - fst p) + (snd q - snd p) * (snd q - snd p)).

(** The vector of length [len] that points from [p] to [q]; null when the
    two points coincide. *)
Definition toward (p q : vec) (len : R) : vec :=
  if Req_EM_T (dist p q) 0 then (0, 0)
  else (len * (fst q - fst p) / dist p q, len * (snd q - snd p) / dist p q).

(** The facing flag: right for a positive horizontal velocity, left for a
    negative one, unchanged on a purely vertical move. *)
Definition facing (vx : R) (old : bool) : bool :=
  if Rlt_dec 0 vx then true else if Rlt_dec vx 0 then false else old.

Definition clamp (lo hi x : R) : R := Rmax lo (Rmin x hi).

Definition clampInto (b : Rect) (p : vec) : vec :=
  (clamp (rleft b) (rright b) (fst p), clamp (rtop b) (rbottom b) (snd p)).

Section Animation.

(** The footprint of an agent and the arrival distance. *)
Variables (footprintW footprintH epsilon : R).

(** Modelled from the spec: the body of [Hedgehog::pickNewTarget] is
    missing. Re-targeting: a new target within the current bounds minus the
    footprint of the agent, the velocity turned toward it, the countdown
    reset to a drawn value. *)
Definition pickNewTarget (s : Sample) (a : Agent) : Agent :=
  let b := m_bounds a in
  let t := (rleft b + ux s * (width b - footprintW),
            rtop b + uy s * (height b - footprintH)) in
  let v := toward (pos a) t (m_speed a) in
  mkAgent (pos a) v t b (m_speed a) (ticks s) (facing (fst v) (m_facingRight a)).

(** Modelled from the spec: the body of [Hedgehog::randomWalk] is missing.
    One tick over the elapsed time [dt]: nothing on a canvas without
    extent; otherwise the agent moves toward its target by [m_speed * dt]
    along the straight line to it (section 4.5) and is kept within the
    bounds, a step that would cross them stopping at the border (sections
    1 and 8: an agent must stay within the visible bounds and never leaves
    them at the end of a tick); the countdown goes down by one, and the
    agent re-targets when the countdown is at zero or the target is closer
    than [epsilon]. *)
Definition randomWalk (dt : R) (s : Sample) (a : Agent) : Agent :=
  if Rle_dec (width (m_bounds a)) 0 then a
  else if Rle_dec (height (m_bounds a)) 0 then a
  else
    let v := toward (pos a) (m_targetPos a) (m_speed a) in
    let p := clampInto (m_bounds a)
               (fst (pos a) + dt * fst v, snd (pos a) + dt * snd v) in
    let c := Nat.pred (m_changeDirectionCounter a) in
    let a' := mkAgent p v (m_targetPos a) (m_bounds a) (m_speed a) c
                      (facing (fst v) (m_facingRight a)) in
    if Nat.eqb c 0 then pickNewTarget s a'
    else if Rlt_dec (dist p (m_targetPos a)) epsilon then pickNewTarget s a'
    else a'.

(** Modelled from the spec: the body of [Hedgehog::setSceneBounds] is
    missing. A resize: the bounds are replaced at once; an agent whose
    position lies outside the new bounds is clamped back inside and
    re-targets, an agent inside them is left as it is. *)
Definition setSceneBounds (b : Rect) (s : Sample) (a : Agent) : Agent :=
  let a1 := mkAgent (pos a) (m_velocity a) (m_targetPos a) b (m_speed a)
                    (m_changeDirectionCounter a) (m_facingRight a) in
  if inBounds_dec b (pos a) then a1
  else pickNewTarget s
         (mkAgent (clampInto b (pos a)) (m_velocity a) (m_targetPos a) b
                  (m_speed a) (m_changeDirectionCounter a) (m_facingRight a)).

(** Modelled from the spec: the spawning code is missing. A fresh agent at
    an in-bounds position [p], with a freshly drawn target. *)
Definition spawn (b : Rect) (p : vec) (v : R) (s : Sample) : Agent :=
  pickNewTarget s (mkAgent p (0, 0) p b v 0 true).

(** The agents the animation can hold: spawned inside a canvas, then
    ticked and resized any number of times. *)
Inductive reachable : Agent -> Prop :=
| reach_spawn b p v s :
    rleft b <= rright b -> rtop b <= rbottom b -> inBounds b p -> 0 <= v ->
    goodSample s -> reachable (spawn b p v s)
| reach_tick dt s a :
    reachable a -> 0 <= dt -> goodSample s -> reachable (randomWalk dt s a)
| reach_resize b s a :
    reachable a -> rleft b <= rright b -> rtop b <= rbottom b ->
    goodSample s -> reachable (setSceneBounds b s a).

End Animation.

(** A canvas with its corner at the origin, one draw of the random
    source, and a walker used in the examples. *)
Definition canvas (side : R) : Rect := mkRect 0 0 side side.

Definition sample1 : Sample := mkSample (15 / 16) (5 / 48) 100.

(** An agent spawned at (499, 100) on a canvas of side 1000, with speed 2
    and the target (900, 100). *)
Definition walker : Agent := spawn 40 40 (canvas 1000) (499, 100) 2 sample1.

End Hedgehog.

(** ** Further vocabulary: the loops of [parseDotFile] in closed form,
    the anchors of an edge, the boxes of the nodes *)

(** The node declarations applied in order, as the line loop applies
    them. *)
Definition declareAll (decls : list (string * string)) (g : GraphView) : GraphView :=
  fold_left (fun g d => snd (createNode (fst d) (snd d) g)) decls g.

(** The edge loop of [parseDotFile] (lines 100-102). *)
Definition createEdges (edges : list (string * string)) (g : GraphView) : GraphView :=
  fold_left (fun g edge => createEdge (fst edge) (snd edge) g) edges g.

(** The end of [parseDotFile] (lines 104-111). *)
Definition fitOrPlaceholder (g : GraphView) : GraphView :=
  if negb (QMap.is_empty (m_nodes g)) then
    mkGraphView (m_scene g) (m_nodes g) (m_placeholderText g)
                (view_calls g ++ [VSetSceneRect 50; VFitInView; VScale 9 10])%list
  else showPlaceholder "No nodes found in the call graph" g.

(** Two lines of text, one after the other. *)
Definition twoLines (a b : string) : string := a ++ String QStr.newline b.

(** The bottom centre and the top centre of the box of a node placed at
    [p]. *)
Definition bottomCentre (p : point) : point := padd p (NODE_WIDTH / 2, NODE_HEIGHT)%Z.
Definition topCentre (p : point) : point := padd p (NODE_WIDTH / 2, 0)%Z.

(** The position of the node the map holds for [id]. *)
Definition posOf (g : GraphView) (id : string) : point :=
  itemPos (m_scene g) (nodeAt id (m_nodes g)).

(** The two items of an edge between nodes of [g]. *)
Definition edgeItems (g : GraphView) (e : string * string) : list Item :=
  [LineItem (bottomCentre (posOf g (fst e))) (topCentre (posOf g (snd e)));
   PolygonItem (bottomCentre (posOf g (fst e))) (topCentre (posOf g (snd e)))].

(** The boxes of two nodes placed at [p] and [q] do not meet: one lies
    wholly to the side of, or above, the other. *)
Definition boxesApart (p q : point) : Prop :=
  (fst p + NODE_WIDTH <= fst q \/ fst q + NODE_WIDTH <= fst p \/
   snd p + NODE_HEIGHT <= snd q \/ snd q + NODE_HEIGHT <= snd p)%Z.

(** Every handle of the node map points into the scene. *)
Definition handlesValid (g : GraphView) : Prop :=
  forall id h, QMap.find id (m_nodes g) = Some h -> h < List.length (m_scene g).

(** The shapes of the two statements: [quoted t rest] is [t] between
    double quotes, followed by [rest]; a node statement is a quoted
    identifier, white space, and the label attribute; an edge statement is
    two quoted identifiers around an arrow. *)
Definition quoted (t rest : string) : string :=
  String QStr.dquote (t ++ String QStr.dquote rest).

Definition nodeShape (id ws label post : string) : string :=
  quoted id (ws ++ "[label=" ++ quoted label ("]" ++ post)).

Definition edgeShape (from ws1 ws2 to post : string) : string :=
  quoted from (ws1 ++ "->" ++ ws2 ++ quoted to post).

(** A line holds a node statement when some part of it has the shape of
    one: a quoted identifier, white space only, and the label attribute
    closed by a bracket right after the quoted label. *)
Definition holdsNodeStatement (line : string) : Prop :=
  exists pre id ws label post,
    line = pre ++ nodeShape id ws label post /\
    plain id /\ plain label /\ allChars space ws = true.

(** An edge statement whose destination is followed by the label attribute
    [[label='x']], after the prefix [pre] and before the trailing text
    [post]: the lines ['a' -> 'b' [label='x']] with any white space around
    the arrow and in front of the bracket. *)
Definition labelledArrow (pre a ws1 ws2 b ws3 x post : string) : string :=
  pre ++ edgeShape a ws1 ws2 b (ws3 ++ "[label=" ++ quoted x ("]" ++ post)).

(** A line holds a bracketed label attribute when an opening bracket and a
    later closing bracket enclose a text that contains [label=]. *)
Definition bracketedLabel (line : string) : Prop :=
  exists pre inside post,
    line = pre ++ "[" ++ inside ++ "]" ++ post /\
    QStr.contains "label=" inside = true.

(** A line that holds an edge arrow between two quoted identifiers and a
    bracketed label attribute records no edge. *)
Definition labelledArrowNeverEdge : Prop :=
  forall line edgeMatch,
    rmatch edgeRegex line = Some edgeMatch -> bracketedLabel line ->
    edgeDecl line = None.

(** Three lines with an arrow and a bracketed label: a second attribute
    after the label, white space in front of the closing bracket, and the
    bracket in front of the arrow. *)
Definition twoAttributes : string := QStr.dq "'a' -> 'b' [label='x', color='red']".
Definition spaceBeforeBracket : string := QStr.dq "'a' -> 'b' [label='x' ]".
Definition labelFirst : string := QStr.dq "[label='x'] 'a' -> 'b'".

(** ** The background grid

    [GraphView::drawBackground] (lines 250-270) draws a grid of 50 units
    over the exposed rectangle. The edges of the rectangle are doubles,
    hence rationals; [int(v)] truncates toward zero and [%] is the
    remainder of C++, with the sign of the dividend. The loop variable is a
    double that holds an integer, exactly as long as the rectangle stays
    within the range of [int]; it is kept as [Z]. The loop is given as
    many turns as there are integers between its start and its limit, which
    is more than it uses. The pen and the call of the base class are left
    out: the result is the list of lines handed to [drawLines]. *)

Module Grid.

(** The exposed rectangle, by the values of [left()], [top()], [right()]
    and [bottom()]. *)
Record QRectF : Type := mkRectF {
  rectLeft : Q; rectTop : Q; rectRight : Q; rectBottom : Q
}.

Record QLineF : Type := mkLineF { x1 : Q; y1 : Q; x2 : Q; y2 : Q }.

(** [int(v)] *)
Definition toInt (v : Q) : Z := Z.quot (Qnum v) (Zpos (Qden v)).

Definition gridSize : Z := 50.

(** [int(v) - (int(v) % int(gridSize))] *)
Definition firstLine (v : Q) : Z := (toInt v - Z.rem (toInt v) gridSize)%Z.

(** [for (x = first; x < limit; x += gridSize)] *)
Fixpoint gridLoop (fuel : nat) (x : Z) (limit : Q) : list Z :=
  match fuel with
  | O => []
  | S fuel' =>
      if Qlt_le_dec (inject_Z x) limit
      then x :: gridLoop fuel' (x + gridSize)%Z limit
      else []
  end.

Definition gridCoords (v limit : Q) : list Z :=
  gridLoop (Z.to_nat (Qceiling limit - firstLine v)) (firstLine v) limit.

Definition verticalLine (rect : QRectF) (x : Z) : QLineF :=
  mkLineF (inject_Z x) (rectTop rect) (inject_Z x) (rectBottom rect).

Definition horizontalLine (rect : QRectF) (y : Z) : QLineF :=
  mkLineF (rectLeft rect) (inject_Z y) (rectRight rect) (inject_Z y).

Definition drawBackground (rect : QRectF) : list QLineF :=
  (map (verticalLine rect) (gridCoords (rectLeft rect) (rectRight rect)) ++
   map (horizontalLine rect) (gridCoords (rectTop rect) (rectBottom rect)))%list.

(** The values for which the conversions of the code are defined: [v]
    converts to [int], and the loop variable stays an exact double up to
    [limit]. *)
Definition inIntRange (v : Q) : Prop :=
  (- 2 ^ 31 <= toInt v < 2 ^ 31)%Z.

Definition exactUpTo (limit : Q) : Prop :=
  (limit <= inject_Z (2 ^ 53))%Q.

End Grid.

(** ** The zoom of the wheel

    [GraphView::wheelEvent] (lines 238-248) calls [scale(f, f)], with [f]
    the constant [scaleFactor] when the vertical angle delta of the event
    is positive and [1 / scaleFactor] otherwise. A [qreal] is a [double]:
    the constant is the binary64 number nearest to 1.1, the quotient is
    rounded, and [QGraphicsView::scale] multiplies the horizontal and the
    vertical scale of the view transform by its arguments, rounding once
    more. Both scales get the same factor, so one of them is followed; it
    is a primitive [float], a binary64 number with the arithmetic of
    IEEE 754, whose operations the library specifies on [spec_float]. *)

Module Zoom.

Local Open Scope float_scope.

(** [const qreal scaleFactor = 1.1] *)
#[warnings="-inexact-float"] Definition scaleFactor : float := 1.1.

(** [QGraphicsView::scale(sx, sx)], on the scale [m11] of the transform. *)
Definition scale (sx : float) (m11 : float) : float := m11 * sx.

(** [GraphView::wheelEvent], with [angleDeltaY] for
    [event->angleDelta().y()]. *)
Definition wheelEvent (angleDeltaY : Z) (m11 : float) : float :=
  if (angleDeltaY >? 0)%Z then scale scaleFactor m11
  else scale (1 / scaleFactor) m11.

(** [n] wheel events in a row with the same angle delta. *)
Fixpoint wheelSteps (n : nat) (angleDeltaY : Z) (m11 : float) : float :=
  match n with
  | O => m11
  | S n' => wheelSteps n' angleDeltaY (wheelEvent angleDeltaY m11)
  end.

(** [n] notches of the wheel forward (a notch is an angle delta of 120),
    then [n] notches back. *)
Definition roundTrip (n : nat) (m11 : float) : float :=
  wheelSteps n (-120) (wheelSteps n 120 m11).

Definition isFinite (x : float) : bool := abs x <? infinity.

(** The number a float stands for; zero for what is not a number. *)
Definition value (x : float) : R :=
  match Prim2SF x with
  | S754_finite s m e =>
      if s then (- (IZR (Zpos m) * powerRZ 2 e))%R
      else (IZR (Zpos m) * powerRZ 2 e)%R
  | _ => 0%R
  end.

(** [r] is back at [s] within the relative tolerance [tol]: a finite
    number whose distance to [s] is at most [tol] times [s]. *)
Definition returnsWithin (tol : R) (s r : float) : Prop :=
  isFinite r = true /\ (Rabs (value r - value s) <= tol * value s)%R.

(** The round trip of section 8: for some tolerance, every number of
    steps and every starting scale, a positive normal number, zooming in
    and back out returns the scale within that tolerance. *)
Definition zoomRoundTrip : Prop :=
  exists tol : R, forall (n : nat) (s : float),
    classify s = PNormal -> returnsWithin tol s (roundTrip n s).

(** From the scale 1, the last number of steps forward that stays finite:
    7447. *)
Definition lastFinite : nat := Z.to_nat 7447.

(** *** Notions of the rounding analysis

    The size of a positive number with mantissa [m] and exponent [e]; the
    record that [k] halvings of the rounding procedure leave of [m],
    started with clean flags; the bound 2^-53 on the relative error of one
    rounding; and the numbers that [scaleFactor] and [1 / scaleFactor]
    stand for. *)
Definition mag (m : positive) (e : Z) : R := (IZR (Zpos m) * powerRZ 2 e)%R.

Definition halved (m : Z) (k : nat) (st : shr_record) : Prop :=
  (shr_m st = m / 2 ^ Z.of_nat k /\
   (shr_r st = true <-> 2 ^ (Z.of_nat k - 1) <= m mod 2 ^ Z.of_nat k) /\
   (shr_s st = true <-> m mod 2 ^ (Z.of_nat k - 1) <> 0))%Z.

Definition ulp53 : R := (/ 2 ^ 53)%R.

Definition kappaIn : R := mag 4953959590107546 (-52).
Definition kappaOut : R := mag 8188362958855447 (-53).

End Zoom.

(** * Properties *)

(** ** Lists, strings and the node map *)

Lemma nth_error_snoc_last {A : Type} (l : list A) (x : A) :
  nth_error (l ++ [x]) (List.length l) = Some x.
Proof.
  induction l as [| a l IH]; simpl; auto.
Qed.

Lemma nth_error_snoc {A : Type} (l : list A) (x y : A) (n : nat) :
  nth_error (l ++ [x]) n = Some y <->
  nth_error l n = Some y \/ (n = List.length l /\ y = x).
Proof.
  destruct (Nat.lt_ge_cases n (List.length l)) as [Hlt | Hge].
  - rewrite nth_error_app1 by assumption. split; [auto | intros [H | [H _]]; [auto | lia]].
  - rewrite nth_error_app2 by assumption.
    assert (Hnone : nth_error l n = None) by (apply nth_error_None; assumption).
    rewrite Hnone. split.
    + intros H. right.
      destruct (n - List.length l) as [| k] eqn:Hk; simpl in H.
      * injection H as <-. split; [lia | reflexivity].
      * destruct k; discriminate.
    + intros [H | [-> ->]]; [discriminate |].
      rewrite Nat.sub_diag. reflexivity.
Qed.

Lemma declared_In (decls : list (string * string)) (id : string) :
  declared decls id = true <-> In id (map fst decls).
Proof.
  unfold declared. rewrite existsb_exists. split.
  - intros [x [Hin Heq]]. apply String.eqb_eq in Heq. subst. assumption.
  - intros Hin. exists id. split; [assumption | apply String.eqb_refl].
Qed.

Lemma declared_false (decls : list (string * string)) (id : string) :
  declared decls id = false <-> ~ In id (map fst decls).
Proof.
  rewrite <- declared_In. destruct (declared decls id); split; congruence.
Qed.

Lemma find_add (m : QMap.t nat) (x y : string) (h : nat) :
  QMap.find y (QMap.add x h m) = if String.eqb x y then Some h else QMap.find y m.
Proof.
  rewrite QMapFacts.add_o.
  destruct (QMap.E.eq_dec x y) as [-> | Hne].
  - rewrite String.eqb_refl. reflexivity.
  - apply String.eqb_neq in Hne. rewrite Hne. reflexivity.
Qed.

Lemma is_empty_find (m : QMap.t nat) :
  QMap.is_empty m = true <-> forall id, QMap.find id m = None.
Proof.
  rewrite <- QMapFacts.is_empty_iff. unfold QMap.Empty. split.
  - intros H id. destruct (QMap.find id m) as [h |] eqn:Hf; [| reflexivity].
    apply QMapFacts.find_mapsto_iff in Hf. destruct (H _ _ Hf).
  - intros H id h Hm. apply QMapFacts.find_mapsto_iff in Hm.
    rewrite H in Hm. discriminate.
Qed.

(** ** The line loop of [parseDotFile]

    [tracks acc g]: the view [g] holds one ellipse per declaration of
    [acc], in that order, and its map sends each identifier of [acc] to the
    handle of its ellipse. *)

Lemma tracks_clear (g : GraphView) : tracks [] (clear g).
Proof.
  repeat split; simpl; try constructor.
  - intros H. rewrite QMapFacts.empty_o in H. discriminate.
  - intros H. destruct h; discriminate.
Qed.

Lemma tracks_declared acc g id :
  tracks acc g -> declared acc id = QMap.mem id (m_nodes g).
Proof.
  intros (_ & Hmap & _ & _).
  rewrite QMapFacts.mem_find_b.
  destruct (QMap.find id (m_nodes g)) as [h |] eqn:Hf.
  - apply declared_In. apply Hmap in Hf. eapply nth_error_In; eassumption.
  - apply declared_false. intros Hin.
    apply In_nth_error in Hin. destruct Hin as [h Hh].
    apply Hmap in Hh. congruence.
Qed.

Lemma createNode_tracks acc g id label :
  tracks acc g ->
  tracks (remember acc (id, label)) (snd (createNode id label g)).
Proof.
  intros Ht. pose proof (tracks_declared acc g id Ht) as Hd.
  destruct Ht as (Hscene & Hmap & Hnodup & Hph).
  unfold remember, createNode. simpl fst. rewrite Hd.
  destruct (QMap.mem id (m_nodes g)) eqn:Hmem; simpl.
  - repeat split; auto; apply Hmap.
  - assert (Hnew : ~ In id (map fst acc)).
    { apply declared_false. rewrite Hd. reflexivity. }
    repeat split; simpl; auto.
    + rewrite Hscene, map_app. reflexivity.
    + rewrite find_add, map_app. simpl. rewrite nth_error_snoc.
      destruct (String.eqb id id0) eqn:He.
      * apply String.eqb_eq in He. subst id0. intros H. injection H as <-.
        right. rewrite Hscene, !length_map. auto.
      * intros H. left. apply Hmap. assumption.
    + rewrite find_add, map_app. simpl. rewrite nth_error_snoc.
      intros [H | [-> ->]].
      * destruct (String.eqb id id0) eqn:He.
        -- apply String.eqb_eq in He. subst id0.
           exfalso. apply Hnew. eapply nth_error_In; eassumption.
        -- apply Hmap. assumption.
      * rewrite String.eqb_refl, Hscene, !length_map. reflexivity.
    + rewrite map_app. simpl. apply NoDup_app; auto.
      * repeat constructor. intros [].
      * intros x Hx [<- | []]. contradiction.
Qed.

Lemma parseLine_node line id label g edges :
  nodeDecl line = Some (id, label) ->
  parseLine (g, edges) line = (snd (createNode id label g), edges).
Proof.
  unfold nodeDecl, parseLine. destruct (rmatch nodeRegex line); [| discriminate].
  intros H. injection H as <- <-. reflexivity.
Qed.

Lemma parseLine_other line g edges :
  nodeDecl line = None ->
  parseLine (g, edges) line =
  (g, match edgeDecl line with Some e => (edges ++ [e])%list | None => edges end).
Proof.
  unfold nodeDecl, edgeDecl, parseLine.
  destruct (rmatch nodeRegex line); [discriminate |]. intros _.
  destruct (rmatch edgeRegex line); reflexivity.
Qed.

Lemma edgeDecl_node line d : nodeDecl line = Some d -> edgeDecl line = None.
Proof.
  unfold nodeDecl, edgeDecl. destruct (rmatch nodeRegex line); [reflexivity | discriminate].
Qed.

Lemma parseLoop_tracks lines : forall g acc edges,
  tracks acc g ->
  exists g',
    fold_left parseLine lines (g, edges) =
      (g', (edges ++ collect edgeDecl lines)%list) /\
    tracks (fold_left remember (collect nodeDecl lines) acc) g' /\
    view_calls g' = view_calls g.
Proof.
  induction lines as [| line lines IH]; intros g acc edges Ht.
  - exists g. simpl. rewrite app_nil_r. auto.
  - cbn [fold_left collect].
    destruct (nodeDecl line) as [[id label] |] eqn:Hn.
    + rewrite (parseLine_node _ _ _ _ _ Hn), (edgeDecl_node _ _ Hn).
      cbn [fold_left].
      destruct (IH (snd (createNode id label g)) (remember acc (id, label)) edges)
        as (g' & Hfold & Ht' & Hv).
      { apply createNode_tracks. assumption. }
      exists g'. split; [assumption | split; [assumption |]].
      rewrite Hv. unfold createNode.
      destruct (QMap.mem id (m_nodes g)); reflexivity.
    + rewrite (parseLine_other _ _ _ Hn).
      destruct (edgeDecl line) as [e |].
      * destruct (IH g acc (edges ++ [e])%list Ht) as (g' & Hfold & Ht' & Hv).
        exists g'. rewrite Hfold, <- app_assoc. simpl. auto.
      * apply IH. assumption.
Qed.

(** ** Positions in the scene *)

Lemma setPos_nth h p : forall scene i,
  nth_error (setPos h p scene) i =
  if Nat.eqb i h then option_map (reposition p) (nth_error scene i)
  else nth_error scene i.
Proof.
  induction h as [| h IH]; intros [| it scene] [| i]; simpl;
    try reflexivity; try (destruct it; reflexivity).
  - destruct (Nat.eqb i h); reflexivity.
  - destruct it; simpl; apply IH.
Qed.

Lemma setPos_length h p : forall scene,
  List.length (setPos h p scene) = List.length scene.
Proof.
  induction h as [| h IH]; intros [| it scene]; simpl; try reflexivity.
  - destruct it; reflexivity.
  - destruct it; simpl; rewrite IH; reflexivity.
Qed.

Lemma nth_error_ext {A : Type} : forall l1 l2 : list A,
  (forall i, nth_error l1 i = nth_error l2 i) -> l1 = l2.
Proof.
  induction l1 as [| a l1 IH]; intros [| b l2] H.
  - reflexivity.
  - specialize (H O). discriminate.
  - specialize (H O). discriminate.
  - pose proof (H O) as H0. simpl in H0. injection H0 as <-.
    f_equal. apply IH. intros i. apply (H (S i)).
Qed.

Lemma layoutStep_cell scene (i : nat) (e : string * nat) :
  layoutStep 5 (scene, ((Z.of_nat i / 5)%Z, (Z.of_nat i mod 5)%Z)) e =
  (setPos (snd e) (cell i) scene,
   ((Z.of_nat (S i) / 5)%Z, (Z.of_nat (S i) mod 5)%Z)).
Proof.
  unfold layoutStep, cell. rewrite Nat2Z.inj_succ. unfold Z.succ.
  destruct (Z.geb_spec (Z.of_nat i mod 5 + 1) 5) as [Hge | Hlt];
    do 2 f_equal; Z.to_euclidean_division_equations; lia.
Qed.

Lemma layout_loop entries : forall scene i,
  fold_left (layoutStep 5) entries
            (scene, ((Z.of_nat i / 5)%Z, (Z.of_nat i mod 5)%Z)) =
  (placeAll (placements i entries) scene,
   ((Z.of_nat (i + List.length entries) / 5)%Z,
    (Z.of_nat (i + List.length entries) mod 5)%Z)).
Proof.
  induction entries as [| e entries IH]; intros scene i.
  - simpl. rewrite Nat.add_0_r. reflexivity.
  - cbn [fold_left]. rewrite layoutStep_cell, IH.
    replace (S i + List.length entries) with (i + List.length (e :: entries))
      by (simpl; lia).
    reflexivity.
Qed.

Lemma layoutGraph_scene g :
  m_scene (layoutGraph g) = placeAll (placements 0 (QMap.elements (m_nodes g))) (m_scene g) /\
  m_nodes (layoutGraph g) = m_nodes g /\
  m_placeholderText (layoutGraph g) = m_placeholderText g /\
  view_calls (layoutGraph g) = view_calls g.
Proof.
  unfold layoutGraph.
  destruct (QMap.is_empty (m_nodes g)) eqn:He.
  - apply QMapFacts.is_empty_iff, QMapProps.elements_Empty in He.
    rewrite He. simpl. auto.
  - change (0%Z, 0%Z) with ((Z.of_nat 0 / 5)%Z, (Z.of_nat 0 mod 5)%Z).
    rewrite layout_loop. simpl. auto.
Qed.

Lemma placeAll_nth ps : forall scene i,
  nth_error (placeAll ps scene) i = option_map (relocate ps i) (nth_error scene i).
Proof.
  induction ps as [| a ps IH]; intros scene i.
  - simpl. destruct (nth_error scene i) as [[] |]; reflexivity.
  - unfold placeAll in *. cbn [fold_left]. rewrite IH, setPos_nth.
    unfold relocate, lastPos. cbn [fold_left].
    destruct (Nat.eqb i (fst a)); destruct (nth_error scene i) as [[] |]; reflexivity.
Qed.

Lemma lastPos_absent ps i : ~ In i (map fst ps) -> forall p, lastPos ps i p = p.
Proof.
  unfold lastPos. induction ps as [| a ps IH]; intros Hin p; simpl in *.
  - reflexivity.
  - destruct (Nat.eqb_spec i (fst a)) as [-> | Hne]; [tauto |].
    apply IH. tauto.
Qed.

Lemma lastPos_nodup ps : forall k h p q,
  NoDup (map fst ps) -> nth_error ps k = Some (h, p) -> lastPos ps h q = p.
Proof.
  induction ps as [| a ps IH]; intros k h p q Hnd Hk.
  - destruct k; discriminate.
  - simpl in Hnd. inversion Hnd as [| x l Hnotin Hnd']; subst.
    unfold lastPos. cbn [fold_left]. destruct k as [| k]; simpl in Hk.
    + injection Hk as ->. simpl. rewrite Nat.eqb_refl.
      apply lastPos_absent. assumption.
    + destruct (Nat.eqb_spec h (fst a)) as [-> | Hne].
      * exfalso. apply Hnotin. apply nth_error_In in Hk.
        apply (in_map fst) in Hk. assumption.
      * eapply IH; eassumption.
Qed.

Lemma lastPos_settles ps i :
  (forall p, lastPos ps i p = p) \/ (exists c, forall p, lastPos ps i p = c).
Proof.
  unfold lastPos. induction ps as [| a ps IH]; cbn [fold_left].
  - left. reflexivity.
  - destruct IH as [Hid | [c Hc]].
    + destruct (Nat.eqb i (fst a)).
      * right. exists (snd a). intros p. apply Hid.
      * left. intros p. apply Hid.
    + right. exists c. intros p. apply Hc.
Qed.

Lemma placeAll_twice ps scene : placeAll ps (placeAll ps scene) = placeAll ps scene.
Proof.
  apply nth_error_ext. intros i. rewrite !placeAll_nth.
  destruct (nth_error scene i) as [[p t | | |] |]; simpl; try reflexivity.
  do 2 f_equal.
  destruct (lastPos_settles ps i) as [Hid | [c Hc]].
  - rewrite !Hid. reflexivity.
  - rewrite !Hc. reflexivity.
Qed.

Lemma placements_fst entries : forall i,
  map fst (placements i entries) = map snd entries.
Proof.
  induction entries as [| e entries IH]; intros i; simpl; [| rewrite IH]; reflexivity.
Qed.

Lemma placements_nth entries : forall i k e,
  nth_error entries k = Some e ->
  nth_error (placements i entries) k = Some (snd e, cell (i + k)).
Proof.
  induction entries as [| a entries IH]; intros i k e Hk.
  - destruct k; discriminate.
  - destruct k as [| k]; simpl in *.
    + injection Hk as ->. rewrite Nat.add_0_r. reflexivity.
    + rewrite (IH (S i) k e Hk).
      replace (S i + k) with (i + S k) by lia. reflexivity.
Qed.

Lemma layoutGraph_eq g :
  layoutGraph g =
  mkGraphView (placeAll (placements 0 (QMap.elements (m_nodes g))) (m_scene g))
              (m_nodes g) (m_placeholderText g) (view_calls g).
Proof.
  destruct (layoutGraph_scene g) as (H1 & H2 & H3 & H4).
  destruct (layoutGraph g) as [sc nd ph vc]. simpl in *. subst. reflexivity.
Qed.

Lemma layoutGraph_twice g : layoutGraph (layoutGraph g) = layoutGraph g.
Proof.
  rewrite (layoutGraph_eq (layoutGraph g)), (layoutGraph_eq g). simpl.
  rewrite placeAll_twice. reflexivity.
Qed.

(** ** The entries of the map *)

Lemma elements_find (m : QMap.t nat) id h :
  In (id, h) (QMap.elements m) <-> QMap.find id m = Some h.
Proof.
  rewrite <- QMapFacts.find_mapsto_iff, QMapFacts.elements_mapsto_iff.
  rewrite SetoidList.InA_alt. split.
  - intros Hin. exists (id, h). split; [split; reflexivity | assumption].
  - intros [[id' h'] [[H1 H2] Hin]]. simpl in *.
    unfold QMap.E.eq in H1. subst. assumption.
Qed.

Lemma elements_keys_nodup (m : QMap.t nat) : NoDup (map fst (QMap.elements m)).
Proof.
  pose proof (QMap.elements_3w m) as H.
  induction H as [| [id h] l Hnotin Hnd IH]; simpl; constructor; auto.
  intros Hin. apply Hnotin. apply in_map_iff in Hin.
  destruct Hin as [[id' h'] [Heq Hin]]. simpl in Heq. subst id'.
  apply SetoidList.InA_alt. exists (id, h'). split; [reflexivity | assumption].
Qed.

Lemma tracks_handles_nodup acc g :
  tracks acc g -> NoDup (map snd (QMap.elements (m_nodes g))).
Proof.
  intros (_ & Hmap & _ & _).
  assert (Hinj : forall id1 id2 h,
             In (id1, h) (QMap.elements (m_nodes g)) ->
             In (id2, h) (QMap.elements (m_nodes g)) -> id1 = id2).
  { intros id1 id2 h H1 H2. apply elements_find, Hmap in H1.
    apply elements_find, Hmap in H2. congruence. }
  pose proof (elements_keys_nodup (m_nodes g)) as Hk.
  induction (QMap.elements (m_nodes g)) as [| [id h] l IH]; simpl in *.
  - constructor.
  - inversion Hk as [| x l' Hnotin Hk']; subst. constructor.
    + intros Hin. apply in_map_iff in Hin. destruct Hin as [[id' h'] [Heq Hin]].
      simpl in Heq. subst h'.
      assert (id = id') by (eapply Hinj; [left; reflexivity | right; eassumption]).
      subst id'. apply Hnotin. apply (in_map fst) in Hin. assumption.
    + apply IH; auto. intros id1 id2 h0 H1 H2. eapply Hinj; right; eassumption.
Qed.

(** ** The edges *)

Lemma createEdge_effect from to g :
  exists extra,
    createEdge from to g =
      mkGraphView (m_scene g ++ extra) (m_nodes g) (m_placeholderText g) (view_calls g) /\
    forallb isDecoration extra = true /\
    List.length (filter isLine extra) =
      (if resolvable (m_nodes g) (from, to) then 1 else 0).
Proof.
  unfold createEdge, resolvable. simpl fst; simpl snd.
  destruct (QMap.mem from (m_nodes g)), (QMap.mem to (m_nodes g)); simpl.
  - eexists. split; [reflexivity |]. split; reflexivity.
  - exists []. rewrite app_nil_r. destruct g; auto.
  - exists []. rewrite app_nil_r. destruct g; auto.
  - exists []. rewrite app_nil_r. destruct g; auto.
Qed.

Lemma createEdges_effect edges : forall g,
  exists extra,
    fold_left (fun g edge => createEdge (fst edge) (snd edge) g) edges g =
      mkGraphView (m_scene g ++ extra) (m_nodes g) (m_placeholderText g) (view_calls g) /\
    forallb isDecoration extra = true /\
    List.length (filter isLine extra) =
      List.length (filter (resolvable (m_nodes g)) edges).
Proof.
  induction edges as [| [from to] edges IH]; intros g.
  - exists []. simpl. rewrite app_nil_r. destruct g; auto.
  - cbn [fold_left fst snd].
    destruct (createEdge_effect from to g) as (x1 & -> & Hd1 & Hl1).
    destruct (IH (mkGraphView (m_scene g ++ x1) (m_nodes g) (m_placeholderText g)
                              (view_calls g)))
      as (x2 & -> & Hd2 & Hl2).
    simpl in *. exists (x1 ++ x2)%list. rewrite app_assoc. split; [reflexivity |].
    split.
    + rewrite forallb_app, Hd1, Hd2. reflexivity.
    + rewrite filter_app, length_app, Hl1, Hl2.
      destruct (resolvable (m_nodes g) (from, to)); reflexivity.
Qed.

(** ** The identifiers first seen *)

Lemma remember_ids acc d id :
  In id (map fst (remember acc d)) <-> In id (map fst acc) \/ id = fst d.
Proof.
  unfold remember. destruct (declared acc (fst d)) eqn:Hd.
  - apply declared_In in Hd. split; [auto | intros [H | ->]; assumption].
  - rewrite map_app, in_app_iff. simpl. intuition congruence.
Qed.

Lemma remember_prefix acc d : exists tail, remember acc d = (acc ++ tail)%list.
Proof.
  unfold remember. destruct (declared acc (fst d)).
  - exists []. rewrite app_nil_r. reflexivity.
  - exists [d]. reflexivity.
Qed.

Lemma remember_all_prefix decls : forall acc,
  exists tail, fold_left remember decls acc = (acc ++ tail)%list.
Proof.
  induction decls as [| d decls IH]; intros acc; simpl.
  - exists []. rewrite app_nil_r. reflexivity.
  - destruct (remember_prefix acc d) as [t1 ->].
    destruct (IH (acc ++ t1)%list) as [t2 ->].
    exists (t1 ++ t2)%list. rewrite app_assoc. reflexivity.
Qed.

Lemma remember_all_ids decls : forall acc id,
  In id (map fst (fold_left remember decls acc)) <->
  In id (map fst acc) \/ In id (map fst decls).
Proof.
  induction decls as [| d decls IH]; intros acc id; simpl.
  - tauto.
  - rewrite IH, remember_ids. intuition congruence.
Qed.

Lemma firstSeen_ids decls id :
  In id (map fst (firstSeen decls)) <-> In id (map fst decls).
Proof.
  unfold firstSeen. rewrite remember_all_ids. simpl. tauto.
Qed.

Lemma firstSeen_nil decls : firstSeen decls = [] <-> decls = [].
Proof.
  split; [| intros ->; reflexivity].
  destruct decls as [| d decls]; [reflexivity |].
  unfold firstSeen. simpl. unfold remember at 2. simpl.
  destruct (remember_all_prefix decls [d]) as [t ->]. discriminate.
Qed.

Lemma firstSeen_first l1 d l2 :
  ~ In (fst d) (map fst l1) -> In d (firstSeen (l1 ++ d :: l2)).
Proof.
  intros Hnew. unfold firstSeen. rewrite fold_left_app. simpl.
  assert (Hr : remember (fold_left remember l1 []) d =
               (fold_left remember l1 [] ++ [d])%list).
  { unfold remember at 1.
    replace (declared (fold_left remember l1 []) (fst d)) with false; [reflexivity |].
    symmetry. apply declared_false. rewrite remember_all_ids. simpl. tauto. }
  rewrite Hr.
  destruct (remember_all_prefix l2 (fold_left remember l1 [] ++ [d])%list) as [t ->].
  rewrite !in_app_iff. simpl. auto.
Qed.

Lemma tracks_is_empty acc g :
  tracks acc g -> (QMap.is_empty (m_nodes g) = true <-> acc = []).
Proof.
  intros (_ & Hmap & _ & _). rewrite is_empty_find. split.
  - intros Hnone. destruct acc as [| [id label] acc]; [reflexivity |].
    specialize (Hnone id). assert (H : QMap.find id (m_nodes g) = Some O) by (apply Hmap; reflexivity).
    congruence.
  - intros -> id. destruct (QMap.find id (m_nodes g)) as [h |] eqn:Hf; [| reflexivity].
    apply Hmap in Hf. destruct h; discriminate.
Qed.

(** ** The two outcomes of [parseDotFile] *)

Lemma parseDotFile_loop content g :
  exists g1,
    tracks (firstSeen (nodeDecls content)) g1 /\
    view_calls g1 = view_calls g /\
    parseDotFile content g =
      (let g2 := fold_left (fun g edge => createEdge (fst edge) (snd edge) g)
                           (edgeDecls content) (layoutGraph g1) in
       if negb (QMap.is_empty (m_nodes g2)) then
         mkGraphView (m_scene g2) (m_nodes g2) (m_placeholderText g2)
                     (view_calls g2 ++ [VSetSceneRect 50; VFitInView; VScale 9 10])%list
       else showPlaceholder noNodesMessage g2).
Proof.
  destruct (parseLoop_tracks (textLines content) (clear g) [] [] (tracks_clear g))
    as (g1 & Hfold & Ht & Hv).
  exists g1. split; [exact Ht |]. split; [exact Hv |].
  unfold parseDotFile. fold (textLines content). rewrite Hfold. reflexivity.
Qed.

Lemma parseDotFile_empty content g :
  nodeDecls content = [] ->
  parseDotFile content g =
  mkGraphView [TextItem noNodesMessage 16] (QMap.empty nat) (Some O)
              (view_calls g ++ [VSetSceneRect 100])%list.
Proof.
  intros Hnil. destruct (parseDotFile_loop content g) as (g1 & Ht & Hv & ->).
  destruct (createEdges_effect (edgeDecls content) (layoutGraph g1))
    as (extra & -> & _ & _).
  rewrite layoutGraph_eq. simpl.
  assert (He : QMap.is_empty (m_nodes g1) = true).
  { apply (tracks_is_empty _ _ Ht). apply firstSeen_nil. assumption. }
  rewrite He. simpl. unfold showPlaceholder. simpl. rewrite Hv. reflexivity.
Qed.

Lemma parseDotFile_graph content g :
  nodeDecls content <> [] ->
  exists g1 extra,
    tracks (firstSeen (nodeDecls content)) g1 /\
    parseDotFile content g =
      mkGraphView
        (placeAll (placements 0 (QMap.elements (m_nodes g1))) (m_scene g1) ++ extra)
        (m_nodes g1) None
        (view_calls g ++ [VSetSceneRect 50; VFitInView; VScale 9 10])%list /\
    QMap.is_empty (m_nodes g1) = false /\
    forallb isDecoration extra = true /\
    List.length (filter isLine extra) =
      List.length (filter (resolvable (m_nodes g1)) (edgeDecls content)).
Proof.
  intros Hne. destruct (parseDotFile_loop content g) as (g1 & Ht & Hv & ->).
  destruct (createEdges_effect (edgeDecls content) (layoutGraph g1))
    as (extra & -> & Hd & Hl).
  rewrite layoutGraph_eq in *. simpl in *.
  assert (He : QMap.is_empty (m_nodes g1) = false).
  { destruct (QMap.is_empty (m_nodes g1)) eqn:He; [| reflexivity].
    exfalso. apply Hne. apply firstSeen_nil.
    apply (tracks_is_empty _ _ Ht). exact He. }
  exists g1, extra. rewrite He. simpl.
  pose proof Ht as (_ & _ & _ & Hp).
  rewrite Hp, Hv. split; [exact Ht |]. split; [reflexivity |]. auto.
Qed.

(** ** Counting nodes and edges *)

Lemma filter_none {A : Type} (f : A -> bool) (l : list A) :
  (forall x, In x l -> f x = false) -> filter f l = [].
Proof.
  induction l as [| a l IH]; intros H; simpl; [reflexivity |].
  rewrite (H a (or_introl eq_refl)). apply IH. intros x Hx. apply H. right. assumption.
Qed.

Lemma nodup_same_length (l1 l2 : list string) :
  NoDup l1 -> NoDup l2 -> (forall x, In x l1 <-> In x l2) ->
  List.length l1 = List.length l2.
Proof.
  intros H1 H2 Hiff. apply Nat.le_antisymm; apply NoDup_incl_length; auto;
    intros x Hx; apply Hiff; assumption.
Qed.

Lemma tracks_keys acc g id :
  tracks acc g ->
  (In id (map fst (QMap.elements (m_nodes g))) <-> In id (map fst acc)).
Proof.
  intros (_ & Hmap & _ & _). split.
  - intros Hin. apply in_map_iff in Hin. destruct Hin as [[id' h] [Heq Hin]].
    simpl in Heq. subst id'. apply elements_find, Hmap in Hin.
    eapply nth_error_In; eassumption.
  - intros Hin. apply In_nth_error in Hin. destruct Hin as [h Hh].
    apply Hmap, elements_find in Hh. apply (in_map fst) in Hh. assumption.
Qed.

Lemma tracks_cardinal acc g :
  tracks acc g ->
  QMap.cardinal (m_nodes g) = List.length (nodup string_dec (map fst acc)).
Proof.
  intros Ht. rewrite QMap.cardinal_1, <- (length_map fst).
  apply nodup_same_length.
  - apply elements_keys_nodup.
  - apply NoDup_nodup.
  - intros id. rewrite nodup_In. apply tracks_keys. assumption.
Qed.

Lemma distinct_firstSeen decls :
  List.length (nodup string_dec (map fst (firstSeen decls))) =
  List.length (nodup string_dec (map fst decls)).
Proof.
  apply nodup_same_length; try apply NoDup_nodup.
  intros id. rewrite !nodup_In. apply firstSeen_ids.
Qed.

Lemma placed_nodes_are_ellipses ps acc it :
  In it (placeAll ps (map nodeItem acc)) -> isEllipse it = true.
Proof.
  intros Hin. apply In_nth_error in Hin. destruct Hin as [i Hi].
  rewrite placeAll_nth, nth_error_map in Hi.
  destruct (nth_error acc i); simpl in Hi; [| discriminate].
  injection Hi as <-. reflexivity.
Qed.

Lemma tracks_resolvable acc g decls e :
  tracks acc g -> acc = firstSeen decls ->
  resolvable (m_nodes g) e = declared decls (fst e) && declared decls (snd e).
Proof.
  intros Ht ->. unfold resolvable.
  rewrite <- !(tracks_declared _ _ _ Ht).
  assert (Hd : forall id, declared (firstSeen decls) id = declared decls id).
  { intros id. destruct (declared decls id) eqn:Hd.
    - apply declared_In, firstSeen_ids, declared_In. assumption.
    - apply declared_false. rewrite firstSeen_ids. apply declared_false. assumption. }
  rewrite !Hd. reflexivity.
Qed.

(** C3. Parsing a text gives as many nodes as the node declarations have
    distinct identifiers, and as many edge segments as there are edge
    declarations whose two endpoints are declared somewhere in the text,
    before or after the edge; the other edge declarations leave nothing in
    the scene. *)
Theorem parse_counts (content : string) (g : GraphView) :
  nodeCount (parseDotFile content g) =
    List.length (nodup string_dec (map fst (nodeDecls content))) /\
  edgeCount (parseDotFile content g) =
    List.length
      (filter (fun e => declared (nodeDecls content) (fst e) &&
                        declared (nodeDecls content) (snd e))
              (edgeDecls content)).
Proof.
  unfold nodeCount, edgeCount.
  destruct (nodeDecls content) as [| d decls] eqn:Hdecls.
  - rewrite (parseDotFile_empty content g Hdecls). simpl. split; [reflexivity |].
    rewrite filter_none; [reflexivity | intros; reflexivity].
  - assert (Hne : nodeDecls content <> []) by (rewrite Hdecls; discriminate).
    destruct (parseDotFile_graph content g Hne) as (g1 & extra & Ht & -> & _ & _ & Hl).
    simpl. rewrite Hdecls in Ht. split.
    + rewrite (tracks_cardinal _ _ Ht). apply distinct_firstSeen.
    + pose proof Ht as (Hs & _).
      rewrite filter_app, length_app, Hl, Hs. rewrite filter_none.
      * simpl. f_equal. apply filter_ext. intros e.
        rewrite <- Hdecls. rewrite <- Hdecls in Ht.
        apply (tracks_resolvable _ _ _ _ Ht eq_refl).
      * intros it Hin. apply placed_nodes_are_ellipses in Hin.
        destruct it; simpl in *; congruence.
Qed.

(** ** The placeholder *)

Lemma nodeCount_zero content g :
  nodeCount (parseDotFile content g) = 0 <-> nodeDecls content = [].
Proof.
  split.
  - intros H0. destruct (nodeDecls content) as [| d decls] eqn:Hdecls; [reflexivity |].
    exfalso.
    assert (Hne : nodeDecls content <> []) by (rewrite Hdecls; discriminate).
    destruct (parseDotFile_graph content g Hne) as (g1 & extra & _ & Heq & He & _).
    rewrite Heq in H0. unfold nodeCount in H0. simpl in H0.
    apply QMapProps.cardinal_inv_1, QMapFacts.is_empty_iff in H0. congruence.
  - intros Hnil. rewrite (parseDotFile_empty content g Hnil). reflexivity.
Qed.

(** C4. When parsing yields no node, the view ends in placeholder state
    with the message that no nodes were found, no edge is left in the scene
    whatever the text declared, and the only call on the view is the scene
    rectangle of the placeholder: the content is not fitted and the scale
    is not touched. *)
Theorem empty_graph_placeholder (content : string) (g : GraphView)
    (Hzero : nodeCount (parseDotFile content g) = 0) :
  placeholderState (parseDotFile content g) /\
  m_scene (parseDotFile content g) = [TextItem "No nodes found in the call graph" 16] /\
  edgeCount (parseDotFile content g) = 0 /\
  view_calls (parseDotFile content g) = (view_calls g ++ [VSetSceneRect 100])%list.
Proof.
  apply nodeCount_zero in Hzero. rewrite (parseDotFile_empty content g Hzero).
  unfold placeholderState, edgeCount. simpl. repeat split.
  exists noNodesMessage, 16%Z. split; reflexivity.
Qed.

Lemma empty_graph_placeholder_witness :
  let content := QStr.dq "'x' -> 'y';" in
  edgeDecls content = [("x", "y")] /\
  placeholderState (parseDotFile content initialView) /\
  edgeCount (parseDotFile content initialView) = 0.
Proof.
  split; [reflexivity |].
  pose proof (empty_graph_placeholder (QStr.dq "'x' -> 'y';") initialView eq_refl)
    as (Hp & _ & He & _).
  split; assumption.
Defined.

Lemma prefix_refl (s : string) : prefix s s = true.
Proof.
  induction s as [| c s IH]; simpl; [reflexivity |].
  destruct (ascii_dec c c); [assumption | congruence].
Qed.

Lemma contains_suffix (before s : string) : QStr.contains s (before ++ s) = true.
Proof.
  induction before as [| c before IH].
  - simpl. destruct s; simpl.
    + reflexivity.
    + destruct (ascii_dec a a); [| congruence]. rewrite prefix_refl. reflexivity.
  - cbn [append QStr.contains]. rewrite IH.
    destruct (prefix s (String c (before ++ s))); reflexivity.
Qed.

(** C5. When the file cannot be opened, [loadDotFile] leaves the view in
    placeholder state with a message that contains the path, the node set
    is empty, and the file has been opened once, not again. *)
Theorem unreadable_file_placeholder (filePath : string) (w : World) (g : GraphView)
    (Hfail : files w filePath = None) :
  placeholderState (snd (loadDotFile filePath w g)) /\
  (exists message,
     m_scene (snd (loadDotFile filePath w g)) = [TextItem message 16] /\
     QStr.contains filePath message = true) /\
  nodeCount (snd (loadDotFile filePath w g)) = 0 /\
  openCalls (fst (loadDotFile filePath w g)) = (openCalls w ++ [filePath])%list.
Proof.
  unfold loadDotFile. rewrite Hfail. simpl. unfold placeholderState. simpl.
  repeat split.
  - eexists _, _. split; reflexivity.
  - eexists. split; [reflexivity |].
    apply (contains_suffix ("Failed to open output file:" ++ String QStr.newline "")).
Qed.

Lemma unreadable_file_placeholder_witness :
  let w := mkWorld (fun _ => None) [] in
  placeholderState (snd (loadDotFile "/tmp/missing.dot" w initialView)) /\
  openCalls (fst (loadDotFile "/tmp/missing.dot" w initialView)) = ["/tmp/missing.dot"].
Proof.
  pose proof (unreadable_file_placeholder "/tmp/missing.dot"
                (mkWorld (fun _ => None) []) initialView eq_refl)
    as (Hp & _ & _ & Ho).
  split; assumption.
Defined.

(** ** Labels *)

Lemma substring_from_zero : forall (s : string) (n : nat),
  String.length s <= n -> substring 0 n s = s.
Proof.
  induction s as [| c s IH]; intros [| n] H; simpl in *; try reflexivity; try lia.
  rewrite IH by lia. reflexivity.
Qed.

Lemma substring_cut : forall (s : string) (n : nat),
  n <= String.length s ->
  exists before,
    s = before ++ substring n (String.length s - n) s /\
    String.length (substring n (String.length s - n) s) = String.length s - n.
Proof.
  induction s as [| c s IH]; intros [| n] H; simpl in *.
  - exists "". auto.
  - lia.
  - exists "". rewrite substring_from_zero by lia. auto.
  - destruct (IH n) as (before & Heq & Hlen); [lia |].
    exists (String c before). simpl. rewrite <- Heq. auto.
Qed.

Lemma right_is_suffix (n : nat) (s : string) :
  n <= String.length s ->
  exists before, s = before ++ QStr.right n s /\ String.length (QStr.right n s) = n.
Proof.
  intros H. unfold QStr.right.
  destruct (substring_cut s (String.length s - n)) as (before & Heq & Hlen); [lia |].
  replace (String.length s - (String.length s - n)) with n in * by lia.
  exists before. auto.
Qed.

Lemma createNode_text id label g :
  QMap.find id (m_nodes g) = None ->
  nodeText (snd (createNode id label g)) id = Some (displayLabel label).
Proof.
  intros Hfresh. unfold createNode, nodeText.
  rewrite QMapFacts.mem_find_b, Hfresh. simpl.
  rewrite find_add, String.eqb_refl, nth_error_snoc_last. reflexivity.
Qed.

(** C6. The text shown in a node that [createNode] makes is the label
    itself when the label has at most 20 characters, and the marker "..."
    followed by exactly the last 20 characters of the label when it has
    more. *)
Theorem label_truncation (id label : string) (g : GraphView)
    (Hfresh : QMap.find id (m_nodes g) = None) :
  exists text,
    nodeText (snd (createNode id label g)) id = Some text /\
    (String.length label <= 20 -> text = label) /\
    (20 < String.length label ->
     exists before last20,
       label = before ++ last20 /\ String.length last20 = 20 /\
       text = "..." ++ last20).
Proof.
  exists (displayLabel label). split; [apply createNode_text; assumption |].
  unfold displayLabel. split; intros Hlen.
  - destruct (Nat.ltb_spec 20 (String.length label)); [lia | reflexivity].
  - destruct (Nat.ltb_spec 20 (String.length label)); [| lia].
    destruct (right_is_suffix 20 label) as (before & Heq & Hl); [lia |].
    exists before, (QStr.right 20 label). auto.
Qed.

Lemma label_truncation_witness :
  QMap.find "f" (m_nodes (clear initialView)) = None /\
  exists text,
    nodeText (snd (createNode "f" "this_is_a_very_long_function_name_example"
                              (clear initialView))) "f" = Some text /\
    (String.length "this_is_a_very_long_function_name_example" <= 20 ->
     text = "this_is_a_very_long_function_name_example") /\
    (20 < String.length "this_is_a_very_long_function_name_example" ->
     exists before last20,
       "this_is_a_very_long_function_name_example" = before ++ last20 /\
       String.length last20 = 20 /\ text = "..." ++ last20).
Proof.
  split; [reflexivity |].
  apply (label_truncation "f" "this_is_a_very_long_function_name_example"
           (clear initialView)).
  reflexivity.
Defined.

(** ** Lines that both patterns match *)

Lemma node_pattern_first (line : string) (nodeMatch : list string)
    (g : GraphView) (edges : list (string * string)) :
  rmatch nodeRegex line = Some nodeMatch ->
  parseLine (g, edges) line =
    (snd (createNode (captured 1 nodeMatch) (captured 2 nodeMatch) g), edges) /\
  edgeDecl line = None.
Proof.
  intros Hnode. unfold parseLine, edgeDecl. rewrite Hnode. split; reflexivity.
Qed.

(** *** The matcher on quoted groups *)

Lemma match_here_one p rest c s st :
  match_here (One p :: rest) (String c s) st =
  if p c then match_here rest s (push c st) else None.
Proof. reflexivity. Qed.

Lemma match_here_plus p rest s st :
  match_here (Plus p :: rest) s st = repeat_class p (match_here rest) false s st.
Proof. reflexivity. Qed.

Lemma match_here_star p rest s st :
  match_here (Star p :: rest) s st = repeat_class p (match_here rest) true s st.
Proof. reflexivity. Qed.

Lemma match_here_open rest s st :
  match_here (GOpen :: rest) s st = match_here rest s (open_group st).
Proof. reflexivity. Qed.

Lemma match_here_close rest s st :
  match_here (GClose :: rest) s st = match_here rest s (close_group st).
Proof. reflexivity. Qed.

Lemma quote_then (rest : pattern) (r : string) (st : caps) :
  match_here (GClose :: quote :: rest) (String QStr.dquote r) st =
  match_here rest r (close_group st).
Proof.
  rewrite match_here_close. unfold quote. rewrite match_here_one, Ascii.eqb_refl.
  f_equal.
  unfold close_group. destruct (opened st) eqn:Ho.
  - reflexivity.
  - unfold push. rewrite Ho. reflexivity.
Qed.

Lemma needs_quote (rest : pattern) (c : ascii) (r : string) (st : caps) :
  not_quote c = true ->
  match_here (GClose :: quote :: rest) (String c r) st = None.
Proof.
  intros H. rewrite match_here_close. unfold quote. rewrite match_here_one.
  unfold not_quote in H.
  rewrite Ascii.eqb_sym. destruct (Ascii.eqb c QStr.dquote); [discriminate | reflexivity].
Qed.

Lemma plus_not_quote (rest : pattern) (s r : string) : forall (ok : bool) (st : caps),
  allChars not_quote s = true ->
  repeat_class not_quote (match_here (GClose :: quote :: rest)) ok
               (s ++ String QStr.dquote r) st =
  if ok || negb (isEmpty s)
  then match_here rest r (close_group (pushAll s st))
  else None.
Proof.
  induction s as [| c s IH]; intros ok st Hs.
  - cbn [append repeat_class]. change (not_quote QStr.dquote) with false. cbn iota.
    rewrite quote_then. destruct ok; reflexivity.
  - cbn [append repeat_class]. simpl in Hs. apply andb_prop in Hs. destruct Hs as [Hc Hs].
    rewrite Hc, (IH true (push c st) Hs). rewrite (needs_quote _ _ _ _ Hc).
    cbn [orb isEmpty negb pushAll]. rewrite orb_true_r.
    destruct (match_here rest r (close_group (pushAll s (push c st)))); [reflexivity |].
    destruct ok; reflexivity.
Qed.

Lemma string_of_list_ascii_snoc l c s :
  string_of_list_ascii (l ++ [c]) ++ s = string_of_list_ascii l ++ String c s.
Proof.
  induction l as [| x l IH]; simpl; [reflexivity | rewrite IH; reflexivity].
Qed.

Lemma close_pushAll (s : string) : forall cl acc,
  close_group (pushAll s (mkCaps cl (Some acc))) =
  mkCaps ((string_of_list_ascii (rev acc) ++ s) :: cl) None.
Proof.
  induction s as [| c s IH]; intros cl acc.
  - simpl. unfold close_group. simpl.
    assert (H : forall t, t ++ "" = t) by (induction t; simpl; congruence).
    rewrite H. reflexivity.
  - cbn [pushAll]. unfold push. cbn [opened closed]. rewrite IH.
    cbn [rev]. rewrite string_of_list_ascii_snoc. reflexivity.
Qed.

Lemma nodeRegex_eq :
  nodeRegex = quote :: GOpen :: Plus not_quote :: GClose :: quote :: nodeTail.
Proof. reflexivity. Qed.

Lemma node_not_at_quote (c : ascii) (r : string) :
  not_quote c = true -> match_here nodeRegex (String c r) caps0 = None.
Proof.
  intros H. rewrite nodeRegex_eq. unfold quote at 1. rewrite match_here_one.
  unfold not_quote in H.
  rewrite Ascii.eqb_sym. destruct (Ascii.eqb c QStr.dquote); [discriminate | reflexivity].
Qed.

Lemma rmatch_skip (s r : string) :
  allChars not_quote s = true -> rmatch nodeRegex (s ++ r) = rmatch nodeRegex r.
Proof.
  induction s as [| c s IH]; intros Hs; [reflexivity |].
  simpl in Hs. apply andb_prop in Hs. destruct Hs as [Hc Hs].
  cbn [append rmatch]. rewrite (node_not_at_quote _ _ Hc). apply IH. assumption.
Qed.

(** The rest of the node pattern fails on a text that has no bracket
    before its first quote. *)
Lemma star_then_bracket (rest : pattern) (s r : string) : forall st,
  allChars notBracket s = true ->
  repeat_class space (match_here (One (Ascii.eqb "["%char) :: rest)) true
               (s ++ String QStr.dquote r) st = None.
Proof.
  induction s as [| c s IH]; intros st Hs.
  - reflexivity.
  - simpl in Hs. apply andb_prop in Hs. destruct Hs as [Hc Hs].
    cbn [append repeat_class]. rewrite (IH _ Hs), match_here_one.
    unfold notBracket in Hc. rewrite Ascii.eqb_sym.
    destruct (Ascii.eqb c "["); [discriminate |]. destruct (space c); reflexivity.
Qed.

Lemma nodeTail_no_bracket (s r : string) st :
  allChars notBracket s = true ->
  match_here nodeTail (s ++ String QStr.dquote r) st = None.
Proof.
  intros Hs. unfold nodeTail. cbn [lit app]. rewrite match_here_star.
  apply star_then_bracket. assumption.
Qed.


Lemma star_step p k c s st :
  p c = true ->
  repeat_class p k true (String c s) st =
  match repeat_class p k true s (push c st) with
  | Some r => Some r
  | None => k (String c s) st
  end.
Proof. intros H. cbn [repeat_class]. rewrite H. reflexivity. Qed.

Lemma star_stop p k c s st :
  p c = false -> repeat_class p k true (String c s) st = k (String c s) st.
Proof. intros H. cbn [repeat_class]. rewrite H. reflexivity. Qed.

Lemma push_closed c cl : push c (mkCaps cl None) = mkCaps cl None.
Proof. reflexivity. Qed.

Lemma isEmpty_false s : s <> "" -> isEmpty s = false.
Proof. destruct s; [congruence | reflexivity]. Qed.

Lemma group_then_quote (rest : pattern) (s r : string) (cl : list string) :
  plain s ->
  match_here (quote :: GOpen :: Plus not_quote :: GClose :: quote :: rest)
             (String QStr.dquote (s ++ String QStr.dquote r)) (mkCaps cl None) =
  match_here rest r (mkCaps (s :: cl) None).
Proof.
  intros [Hne Hs]. unfold quote at 1.
  rewrite match_here_one, Ascii.eqb_refl, push_closed, match_here_open, match_here_plus.
  rewrite (plus_not_quote _ _ _ _ _ Hs), (isEmpty_false _ Hne). cbn [orb negb].
  unfold open_group. cbn [closed]. rewrite close_pushAll. reflexivity.
Qed.

Lemma rmatch_eq pat s :
  rmatch pat s =
  match match_here pat s caps0 with
  | Some r => Some r
  | None => match s with
            | EmptyString => None
            | String _ s' => rmatch pat s'
            end
  end.
Proof. destruct s; reflexivity. Qed.

Lemma edgeRegex_eq :
  edgeRegex = quote :: GOpen :: Plus not_quote :: GClose :: quote :: edgeTail.
Proof. reflexivity. Qed.

(** ** Layout order *)

Lemma relocate_twice ps i it : relocate ps i (relocate ps i it) = relocate ps i it.
Proof.
  destruct it; simpl; try reflexivity. f_equal.
  destruct (lastPos_settles ps i) as [Hid | [c Hc]].
  - rewrite !Hid. reflexivity.
  - rewrite !Hc. reflexivity.
Qed.

Lemma relocate_decoration ps i it : isDecoration it = true -> relocate ps i it = it.
Proof. destruct it; simpl; intros H; congruence. Qed.

Lemma placeAll_length ps scene : List.length (placeAll ps scene) = List.length scene.
Proof.
  revert scene. unfold placeAll.
  induction ps as [| a ps IH]; intros scene; simpl; [reflexivity |].
  rewrite IH. apply setPos_length.
Qed.

Lemma placeAll_again ps scene extra :
  forallb isDecoration extra = true ->
  placeAll ps (placeAll ps scene ++ extra) = (placeAll ps scene ++ extra)%list.
Proof.
  intros Hd. apply nth_error_ext. intros i. rewrite placeAll_nth.
  destruct (Nat.lt_ge_cases i (List.length (placeAll ps scene))) as [Hlt | Hge].
  - rewrite nth_error_app1 by assumption. rewrite placeAll_nth.
    destruct (nth_error scene i); simpl; [rewrite relocate_twice |]; reflexivity.
  - rewrite nth_error_app2 by assumption.
    destruct (nth_error extra (i - List.length (placeAll ps scene))) as [it |] eqn:Hi;
      simpl; [| reflexivity].
    rewrite relocate_decoration; [reflexivity |].
    apply nth_error_In in Hi. rewrite forallb_forall in Hd. apply Hd. assumption.
Qed.

Lemma lt_key_trans : forall a b c : string * nat,
  QMap.lt_key a b -> QMap.lt_key b c -> QMap.lt_key a c.
Proof.
  intros a b c. unfold QMap.lt_key, QMap.Raw.PX.ltk. apply String_as_OT.lt_trans.
Qed.

Lemma elements_ascending (m : QMap.t nat) j k idj hj idk hk :
  j < k ->
  nth_error (QMap.elements m) j = Some (idj, hj) ->
  nth_error (QMap.elements m) k = Some (idk, hk) ->
  String_as_OT.lt idj idk.
Proof.
  pose proof (QMap.elements_3 m) as Hs.
  apply Sorted.Sorted_StronglySorted in Hs; [| exact lt_key_trans].
  revert j k. induction Hs as [| a l Hs IH Hall]; intros j k Hjk Hj Hk.
  - destruct j; discriminate.
  - destruct k as [| k]; [lia |]. simpl in Hk. destruct j as [| j]; simpl in Hj.
    + injection Hj as ->. rewrite Forall_forall in Hall.
      apply nth_error_In in Hk. apply (Hall _ Hk).
    + apply (IH j k); [lia | assumption | assumption].
Qed.

Lemma tracks_handle acc g id h :
  tracks acc g -> QMap.find id (m_nodes g) = Some h ->
  exists label, nth_error acc h = Some (id, label).
Proof.
  intros (_ & Hmap & _ & _) Hf. apply Hmap in Hf.
  rewrite nth_error_map in Hf.
  destruct (nth_error acc h) as [[id' label] |]; simpl in Hf; [| discriminate].
  injection Hf as ->. exists label. reflexivity.
Qed.

Lemma placed_item acc g k id h label extra :
  tracks acc g ->
  nth_error (QMap.elements (m_nodes g)) k = Some (id, h) ->
  nth_error acc h = Some (id, label) ->
  nth_error (placeAll (placements 0 (QMap.elements (m_nodes g))) (m_scene g) ++ extra) h =
  Some (EllipseItem (cell k) (displayLabel label)).
Proof.
  intros Ht Hk Hh. pose proof Ht as (Hs & _).
  rewrite nth_error_app1.
  - rewrite placeAll_nth, Hs, nth_error_map, Hh. simpl. do 2 f_equal.
    apply (lastPos_nodup _ k).
    + rewrite placements_fst. eapply tracks_handles_nodup; eassumption.
    + apply (placements_nth _ 0 k _ Hk).
  - rewrite placeAll_length, Hs, length_map. apply nth_error_Some. congruence.
Qed.

(** C1, as the code has it. After parsing, the node that the map holds at
    rank [k] is at [(200 * (k mod 5), 80 * (k div 5))]; the ranks follow the
    ascending order of the identifiers, which is the order in which
    [QMap] is traversed, not the order of the declarations; running the
    layout again on the parsed view changes nothing. *)
Theorem layout_in_identifier_order (content : string) (g : GraphView)
    (k : nat) (id : string) (h : nat)
    (Hk : nth_error (QMap.elements (m_nodes (parseDotFile content g))) k = Some (id, h)) :
  itemPos (m_scene (parseDotFile content g)) h = cell k /\
  (forall j idj hj,
     j < k ->
     nth_error (QMap.elements (m_nodes (parseDotFile content g))) j = Some (idj, hj) ->
     String_as_OT.lt idj id) /\
  layoutGraph (parseDotFile content g) = parseDotFile content g.
Proof.
  assert (Hne : nodeDecls content <> []).
  { intros Hnil. rewrite (parseDotFile_empty content g Hnil) in Hk.
    destruct k; discriminate. }
  destruct (parseDotFile_graph content g Hne) as (g1 & extra & Ht & Heq & _ & Hd & _).
  rewrite Heq in *. simpl in Hk. split; [| split].
  - simpl. pose proof Hk as Hin. apply nth_error_In, elements_find in Hin.
    destruct (tracks_handle _ _ _ _ Ht Hin) as [label Hh].
    unfold itemPos. rewrite (placed_item _ _ _ _ _ _ extra Ht Hk Hh). reflexivity.
  - intros j idj hj Hjk Hj. simpl in Hj. eapply elements_ascending; eassumption.
  - rewrite layoutGraph_eq. simpl. rewrite placeAll_again by assumption. reflexivity.
Qed.

Lemma layout_in_identifier_order_witness :
  let content := (QStr.dq "'b' [label='B'];" ++ String QStr.newline
                  (QStr.dq "'a' [label='A'];"))%string in
  itemPos (m_scene (parseDotFile content initialView)) 0 = cell 1.
Proof.
  intros content.
  apply (layout_in_identifier_order content initialView 1 "b" 0).
  reflexivity.
Defined.

(** C1, counterexample. The text declares [b] and then [a]: [b] is seen
    first, and the layout puts it in the second cell. *)
Lemma layout_not_in_first_seen_order : ~ layoutInFirstSeenOrder.
Proof.
  intros H.
  specialize (H (QStr.dq "'b' [label='B'];" ++ String QStr.newline
                  (QStr.dq "'a' [label='A'];"))%string
                initialView 0 "b" "B" eq_refl).
  vm_compute in H. discriminate.
Qed.

(** ** Repeated declarations *)

Lemma one_entry_per_key (l : list (string * nat)) (id : string) :
  NoDup (map fst l) -> In id (map fst l) ->
  List.length (filter (fun e => String.eqb (fst e) id) l) = 1.
Proof.
  induction l as [| [k h] l IH]; intros Hnd Hin; simpl in *; [contradiction |].
  inversion Hnd as [| x l' Hnotin Hnd']; subst.
  destruct (String.eqb_spec k id) as [-> | Hne].
  - simpl. f_equal. rewrite filter_none; [reflexivity |].
    intros [k' h'] Hin'. simpl. apply String.eqb_neq. intros ->.
    apply Hnotin. apply (in_map fst) in Hin'. assumption.
  - apply IH; [assumption |]. destruct Hin; [contradiction | assumption].
Qed.

Lemma redeclaration_ignored id label line g edges :
  nodeDecl line = Some (id, label) ->
  QMap.mem id (m_nodes g) = true ->
  parseLine (g, edges) line = (g, edges).
Proof.
  intros Hn Hmem. rewrite (parseLine_node _ _ _ _ _ Hn).
  unfold createNode. rewrite Hmem. reflexivity.
Qed.

(** C2, as the code has it. The first declaration of an identifier wins:
    after parsing, the map has exactly one entry for the identifier and its
    node shows the label of the first declaration; a later declaration of
    an identifier the map already holds changes nothing in the view, so
    neither the label nor the place of the entry in the layout order
    moves. *)
Theorem first_declaration_wins (content : string) (g : GraphView)
    (before : list (string * string)) (id label : string)
    (after : list (string * string))
    (Hdecls : nodeDecls content = (before ++ (id, label) :: after)%list)
    (Hfirst : ~ In id (map fst before)) :
  nodeText (parseDotFile content g) id = Some (displayLabel label) /\
  List.length (filter (fun e => String.eqb (fst e) id)
                      (QMap.elements (m_nodes (parseDotFile content g)))) = 1 /\
  (forall line label' g' edges,
     nodeDecl line = Some (id, label') ->
     QMap.mem id (m_nodes g') = true ->
     parseLine (g', edges) line = (g', edges) /\
     layoutSlot (fst (parseLine (g', edges) line)) id = layoutSlot g' id).
Proof.
  assert (Hne : nodeDecls content <> []).
  { rewrite Hdecls. destruct before; discriminate. }
  destruct (parseDotFile_graph content g Hne) as (g1 & extra & Ht & Heq & _).
  rewrite Heq. cbn [m_nodes].
  assert (Hin : In (id, label) (firstSeen (nodeDecls content))).
  { rewrite Hdecls. apply (firstSeen_first before (id, label) after). assumption. }
  apply In_nth_error in Hin. destruct Hin as [h Hh].
  assert (Hf : QMap.find id (m_nodes g1) = Some h).
  { destruct Ht as (_ & Hmap & _). apply Hmap.
    rewrite nth_error_map, Hh. reflexivity. }
  split; [| split].
  - unfold nodeText. simpl. rewrite Hf.
    pose proof Hf as Hel. apply elements_find, In_nth_error in Hel.
    destruct Hel as [k Hk].
    rewrite (placed_item _ _ _ _ _ _ extra Ht Hk Hh). reflexivity.
  - apply one_entry_per_key; [apply elements_keys_nodup |].
    apply elements_find in Hf. apply (in_map fst) in Hf. assumption.
  - intros line label' g' edges Hn Hmem.
    rewrite (redeclaration_ignored _ _ _ _ _ Hn Hmem). split; reflexivity.
Qed.

Lemma first_declaration_wins_witness :
  let content := (QStr.dq "'a' [label='x'];" ++ String QStr.newline
                  (QStr.dq "'a' [label='y'];"))%string in
  nodeDecls content = [("a", "x"); ("a", "y")] /\
  nodeText (parseDotFile content initialView) "a" = Some "x".
Proof.
  intros content. split; [reflexivity |].
  apply (first_declaration_wins content initialView [] "a" "x" [("a", "y")]).
  - reflexivity.
  - simpl. tauto.
Defined.

(** C2, counterexample. The identifier [a] is declared with the label [x]
    and then with the label [y]; its node still shows [x]. *)
Lemma later_label_not_shown : ~ lastLabelShown.
Proof.
  intros H.
  specialize (H (QStr.dq "'a' [label='x'];" ++ String QStr.newline
                  (QStr.dq "'a' [label='y'];"))%string
                initialView [("a", "x")] "a" "y" [] eq_refl).
  simpl in H. specialize (H (or_introl eq_refl) (fun f => f)).
  vm_compute in H. discriminate.
Qed.

(** ** The states of the scene *)

Lemma states_exclusive g : placeholderState g -> graphState g -> False.
Proof.
  intros (He & _) (Hne & _). congruence.
Qed.

Lemma showPlaceholder_state message g : placeholderState (showPlaceholder message g).
Proof.
  unfold placeholderState. simpl. split; [reflexivity |].
  exists message, 16%Z. split; reflexivity.
Qed.

Lemma parseDotFile_state content g :
  placeholderState (parseDotFile content g) \/ graphState (parseDotFile content g).
Proof.
  destruct (nodeDecls content) as [| d decls] eqn:Hdecls.
  - left. rewrite (parseDotFile_empty content g Hdecls).
    apply (showPlaceholder_state noNodesMessage g).
  - right.
    assert (Hne : nodeDecls content <> []) by (rewrite Hdecls; discriminate).
    destruct (parseDotFile_graph content g Hne)
      as (g1 & extra & Ht & -> & He & Hd & _).
    unfold graphState. simpl. split; [assumption |]. split; [reflexivity |].
    destruct Ht as (Hs & _). rewrite Hs.
    apply forallb_forall. intros it Hin. apply in_app_iff in Hin.
    destruct Hin as [Hin | Hin].
    + apply placed_nodes_are_ellipses in Hin. destruct it; simpl in *; congruence.
    + rewrite forallb_forall in Hd. apply Hd in Hin.
      destruct it; simpl in *; congruence.
Qed.

Lemma either_is_one g : placeholderState g \/ graphState g -> oneState g.
Proof.
  intros [H | H]; [left | right]; (split; [assumption |]);
    intros H'; eapply states_exclusive; eassumption.
Qed.

(** C8, as the code has it. After [loadDotFile] and after [showPlaceholder]
    the scene is in exactly one of the placeholder state and the graph
    state, and what the view held before the call plays no part: the result
    is that of the same call on the cleared view. [clear] on its own leaves
    an empty scene, with no node, no edge and no message. *)
Theorem scene_states (w : World) (g : GraphView) (filePath message : string) :
  oneState (snd (loadDotFile filePath w g)) /\
  oneState (showPlaceholder message g) /\
  emptyScene (clear g) /\
  snd (loadDotFile filePath w g) = snd (loadDotFile filePath w (clear g)) /\
  showPlaceholder message g = showPlaceholder message (clear g).
Proof.
  split; [| split; [| split; [| split]]].
  - apply either_is_one. unfold loadDotFile.
    destruct (files w filePath) as [content |]; simpl.
    + apply parseDotFile_state.
    + left. apply showPlaceholder_state.
  - apply either_is_one. left. apply showPlaceholder_state.
  - unfold emptyScene. simpl. auto.
  - unfold loadDotFile. destruct (files w filePath); reflexivity.
  - reflexivity.
Qed.

(** C8, counterexample. After [clear] the scene is in neither state: it
    has no node and no message. *)
Lemma clear_leaves_neither_state : ~ everyOperationLeavesOneState.
Proof.
  intros H.
  destruct (H (mkWorld (fun _ => None) []) initialView "" "") as (_ & _ & Hclear).
  destruct Hclear as [[(_ & message & size & Hscene & _) _] | [(Hne & _) _]];
    simpl in *; discriminate.
Qed.

(** ** End-to-end scenarios of section 8 *)

Example scenario_A :
  m_scene (parseDotFile scenarioA initialView) =
    [EllipseItem (0, 0)%Z "main"; EllipseItem (200, 0)%Z "helper";
     LineItem (75, 40)%Z (275, 0)%Z; PolygonItem (75, 40)%Z (275, 0)%Z] /\
  QMap.elements (m_nodes (parseDotFile scenarioA initialView)) = [("a", 0); ("b", 1)] /\
  m_placeholderText (parseDotFile scenarioA initialView) = None.
Proof. repeat split. Qed.

Example scenario_B :
  m_scene (parseDotFile (QStr.dq "'x' -> 'y';") initialView) =
    [TextItem "No nodes found in the call graph" 16] /\
  nodeCount (parseDotFile (QStr.dq "'x' -> 'y';") initialView) = 0.
Proof. split; reflexivity. Qed.

Example scenario_D :
  displayLabel "this_is_a_very_long_function_name_example" = "...unction_name_example".
Proof. reflexivity. Qed.

Example forward_edge_kept_unknown_edge_dropped :
  edgeDecls forwardEdges = [("a", "b"); ("a", "z")] /\
  filter isLine (m_scene (parseDotFile forwardEdges initialView)) =
    [LineItem (75, 40)%Z (275, 0)%Z].
Proof. split; reflexivity. Qed.

Example six_nodes_wrap :
  let content :=
    (QStr.dq "'f' [label='f']" ++ String QStr.newline
       (QStr.dq "'e' [label='e']" ++ String QStr.newline
          (QStr.dq "'d' [label='d']" ++ String QStr.newline
             (QStr.dq "'c' [label='c']" ++ String QStr.newline
                (QStr.dq "'b' [label='b']" ++ String QStr.newline
                   (QStr.dq "'a' [label='a']"))))))%string in
  nodePos (parseDotFile content initialView) "a" = Some (0, 0)%Z /\
  nodePos (parseDotFile content initialView) "e" = Some (800, 0)%Z /\
  nodePos (parseDotFile content initialView) "f" = Some (0, 80)%Z.
Proof. repeat split. Qed.

(** ** The hedgehogs stay on the canvas *)

Module HedgehogFacts.

Import Hedgehog.
Local Open Scope R_scope.

Lemma clamp_within lo hi x : lo <= hi -> lo <= clamp lo hi x <= hi.
Proof.
  intros H. unfold clamp. split.
  - apply Rmax_l.
  - apply Rmax_lub; [assumption | apply Rmin_r].
Qed.

Lemma clamp_inside lo hi x : lo <= x <= hi -> clamp lo hi x = x.
Proof.
  intros [Hlo Hhi]. unfold clamp.
  rewrite Rmin_left by assumption. apply Rmax_right. assumption.
Qed.

Lemma clampInto_inBounds b p :
  rleft b <= rright b -> rtop b <= rbottom b -> inBounds b (clampInto b p).
Proof.
  intros Hx Hy. unfold inBounds, clampInto. simpl.
  split; apply clamp_within; assumption.
Qed.

(** A point within the bounds is left where it is. *)
Lemma clampInto_inside b p : inBounds b p -> clampInto b p = p.
Proof.
  intros [Hx Hy]. unfold clampInto. destruct p as [x y]. simpl in *.
  rewrite !clamp_inside by assumption. reflexivity.
Qed.

Section Facts.

Variables (footprintW footprintH epsilon : R).

Lemma pickNewTarget_pos s a :
  pos (pickNewTarget footprintW footprintH s a) = pos a /\
  m_bounds (pickNewTarget footprintW footprintH s a) = m_bounds a.
Proof. split; reflexivity. Qed.

(** A tick on a canvas with extent: the position the agent ends at, and
    its bounds. *)
Lemma randomWalk_pos dt s a :
  0 < width (m_bounds a) -> 0 < height (m_bounds a) ->
  pos (randomWalk footprintW footprintH epsilon dt s a) =
    clampInto (m_bounds a)
      (fst (pos a) + dt * fst (toward (pos a) (m_targetPos a) (m_speed a)),
       snd (pos a) + dt * snd (toward (pos a) (m_targetPos a) (m_speed a))) /\
  m_bounds (randomWalk footprintW footprintH epsilon dt s a) = m_bounds a.
Proof.
  intros Hw Hh. unfold randomWalk.
  destruct (Rle_dec (width (m_bounds a)) 0); [lra |].
  destruct (Rle_dec (height (m_bounds a)) 0); [lra |].
  destruct (Nat.eqb _ 0); [split; reflexivity |].
  destruct (Rlt_dec _ epsilon); split; reflexivity.
Qed.

(** As long as the step of section 4.5 ends within the bounds, the tick
    is that step and nothing else. *)
Lemma randomWalk_plain_step dt s a :
  0 < width (m_bounds a) -> 0 < height (m_bounds a) ->
  inBounds (m_bounds a)
    (fst (pos a) + dt * fst (toward (pos a) (m_targetPos a) (m_speed a)),
     snd (pos a) + dt * snd (toward (pos a) (m_targetPos a) (m_speed a))) ->
  pos (randomWalk footprintW footprintH epsilon dt s a) =
    (fst (pos a) + dt * fst (toward (pos a) (m_targetPos a) (m_speed a)),
     snd (pos a) + dt * snd (toward (pos a) (m_targetPos a) (m_speed a))).
Proof.
  intros Hw Hh Hin. destruct (randomWalk_pos dt s a Hw Hh) as [-> _].
  apply clampInto_inside. exact Hin.
Qed.

(** A tick on a canvas without extent changes nothing. *)
Lemma randomWalk_no_extent dt s a :
  width (m_bounds a) <= 0 \/ height (m_bounds a) <= 0 ->
  randomWalk footprintW footprintH epsilon dt s a = a.
Proof.
  intros H. unfold randomWalk.
  destruct (Rle_dec (width (m_bounds a)) 0); [reflexivity |].
  destruct (Rle_dec (height (m_bounds a)) 0); [reflexivity | lra].
Qed.

Lemma randomWalk_bounds dt s a :
  m_bounds (randomWalk footprintW footprintH epsilon dt s a) = m_bounds a.
Proof.
  destruct (Rle_dec (width (m_bounds a)) 0) as [Hw | Hw].
  { rewrite randomWalk_no_extent by (left; assumption). reflexivity. }
  destruct (Rle_dec (height (m_bounds a)) 0) as [Hh | Hh].
  { rewrite randomWalk_no_extent by (right; assumption). reflexivity. }
  apply randomWalk_pos; lra.
Qed.

Lemma randomWalk_in_bounds dt s a :
  inBounds (m_bounds a) (pos a) ->
  inBounds (m_bounds (randomWalk footprintW footprintH epsilon dt s a))
           (pos (randomWalk footprintW footprintH epsilon dt s a)).
Proof.
  intros Hp.
  destruct (Rle_dec (width (m_bounds a)) 0) as [Hw | Hw].
  { rewrite randomWalk_no_extent by (left; assumption). exact Hp. }
  destruct (Rle_dec (height (m_bounds a)) 0) as [Hh | Hh].
  { rewrite randomWalk_no_extent by (right; assumption). exact Hp. }
  destruct (randomWalk_pos dt s a) as [-> ->]; try lra.
  unfold width, height in *. apply clampInto_inBounds; lra.
Qed.

Lemma setSceneBounds_in_bounds b s a :
  rleft b <= rright b -> rtop b <= rbottom b ->
  m_bounds (setSceneBounds footprintW footprintH b s a) = b /\
  inBounds b (pos (setSceneBounds footprintW footprintH b s a)).
Proof.
  intros Hx Hy. unfold setSceneBounds.
  destruct (inBounds_dec b (pos a)) as [Hin | Hout]; simpl.
  - auto.
  - split; [reflexivity |]. apply clampInto_inBounds; assumption.
Qed.

(** Whatever the animation has done so far, the agent is within its
    bounds. *)
Lemma reachable_in_bounds a :
  reachable footprintW footprintH epsilon a -> inBounds (m_bounds a) (pos a).
Proof.
  induction 1 as [b p v s Hx Hy Hp Hv Hs | dt s a Ha IH Hdt Hs | b s a Ha IH Hx Hy Hs].
  - exact Hp.
  - apply randomWalk_in_bounds. exact IH.
  - destruct (setSceneBounds_in_bounds b s a Hx Hy) as [-> Hin]. exact Hin.
Qed.

(** C9, in the model of the specification. For every agent the animation
    can hold (spawned within a canvas, then ticked and resized any number
    of times) and every tick, whatever the elapsed time and the draw of the
    random source, the position at the end of the tick lies within the
    current bounds. A resize to bounds [b] makes [b] the bounds at once and
    leaves the position within [b] before the next tick, an agent found
    outside being clamped back inside; and the first tick after the resize
    ends within [b] as well. *)
Theorem agents_stay_in_bounds (a : Agent) (dt : R) (s : Sample)
    (Ha : reachable footprintW footprintH epsilon a) :
  inBounds (m_bounds (randomWalk footprintW footprintH epsilon dt s a))
           (pos (randomWalk footprintW footprintH epsilon dt s a)) /\
  (forall b s', rleft b <= rright b -> rtop b <= rbottom b ->
     m_bounds (setSceneBounds footprintW footprintH b s' a) = b /\
     inBounds b (pos (setSceneBounds footprintW footprintH b s' a)) /\
     (~ inBounds b (pos a) ->
      pos (setSceneBounds footprintW footprintH b s' a) = clampInto b (pos a)) /\
     m_bounds (randomWalk footprintW footprintH epsilon dt s
                 (setSceneBounds footprintW footprintH b s' a)) = b /\
     inBounds b (pos (randomWalk footprintW footprintH epsilon dt s
                        (setSceneBounds footprintW footprintH b s' a)))).
Proof.
  split.
  - apply randomWalk_in_bounds, reachable_in_bounds, Ha.
  - intros b s' Hx Hy.
    destruct (setSceneBounds_in_bounds b s' a Hx Hy) as [Hb Hin].
    split; [exact Hb |]. split; [exact Hin |]. split.
    + intros Hout. unfold setSceneBounds.
      destruct (inBounds_dec b (pos a)); [contradiction | reflexivity].
    + pose proof (randomWalk_in_bounds dt s
                    (setSceneBounds footprintW footprintH b s' a)) as Htick.
      rewrite randomWalk_bounds in *. rewrite Hb in *. auto.
Qed.

End Facts.

Lemma dist_horizontal (x y t : R) : x <= t -> dist (x, y) (t, y) = t - x.
Proof.
  intros H. unfold dist. simpl.
  replace ((t - x) * (t - x) + (y - y) * (y - y)) with ((t - x) * (t - x)) by ring.
  apply sqrt_square. lra.
Qed.

Lemma sample1_good : goodSample sample1.
Proof. unfold goodSample, sample1. simpl. repeat split; try lra. lia. Qed.

Lemma walker_target : m_targetPos walker = (900, 100).
Proof.
  unfold walker, spawn, pickNewTarget, sample1, canvas, width, height. simpl.
  f_equal; lra.
Qed.

Lemma walker_reachable : reachable 40 40 1 walker.
Proof.
  apply reach_spawn; simpl; try lra; [| apply sample1_good].
  unfold inBounds. simpl. lra.
Qed.

Lemma clamp_above (lo hi x : R) : lo <= hi -> hi <= x -> clamp lo hi x = hi.
Proof.
  intros Hlo Hhi. unfold clamp.
  rewrite Rmin_right by assumption. apply Rmax_right. assumption.
Qed.

(** The walker stands at (499, 100). A resize to a canvas of side 300
    finds it outside and clamps it to the border, and the tick that follows
    ends within the new canvas. *)
Lemma agents_stay_in_bounds_witness :
  ~ inBounds (canvas 300) (pos walker) /\
  pos (setSceneBounds 40 40 (canvas 300) sample1 walker) = (300, 100) /\
  inBounds (canvas 300)
    (pos (randomWalk 40 40 1 1 sample1
            (setSceneBounds 40 40 (canvas 300) sample1 walker))).
Proof.
  assert (Hout : ~ inBounds (canvas 300) (pos walker)).
  { unfold inBounds. simpl. lra. }
  destruct (agents_stay_in_bounds 40 40 1 walker 1 sample1 walker_reachable)
    as [_ Hresize].
  destruct (Hresize (canvas 300) sample1) as (_ & _ & Hclamp & _ & Htick);
    try (simpl; lra).
  split; [exact Hout |]. split; [| exact Htick].
  rewrite (Hclamp Hout). unfold clampInto. simpl.
  rewrite clamp_above by lra. rewrite clamp_inside by lra. reflexivity.
Defined.

(** A resize to a canvas of side 500 leaves the walker where it is, with
    its target at (900, 100) outside the new canvas; the step of the next
    tick would take it to (501, 100), and it stops at the border. *)
Example tick_after_resize_stops_at_border :
  pos (randomWalk 40 40 1 1 sample1
         (setSceneBounds 40 40 (canvas 500) sample1 walker)) = (500, 100).
Proof.
  assert (Hin : inBounds (canvas 500) (pos walker)).
  { unfold inBounds. simpl. lra. }
  unfold setSceneBounds.
  destruct (inBounds_dec (canvas 500) (pos walker)) as [_ | Hout]; [| contradiction].
  match goal with
  | |- pos (randomWalk _ _ _ _ _ ?a) = _ =>
      destruct (randomWalk_pos 40 40 1 1 sample1 a) as [Hp _]
  end; try (simpl; unfold width, height; simpl; lra).
  rewrite Hp. clear Hp.
  cbn [m_targetPos pos m_speed m_bounds]. rewrite walker_target.
  change (pos walker) with (499, 100).
  change (m_speed walker) with 2.
  unfold toward. rewrite dist_horizontal by lra.
  destruct (Req_EM_T (900 - 499) 0) as [Hz | _]; [lra |].
  unfold clampInto. simpl.
  replace (499 + 1 * (2 * (900 - 499) / (900 - 499))) with 501 by (field; lra).
  replace (100 + 1 * (2 * (100 - 100) / (900 - 499))) with 100 by (field; lra).
  rewrite clamp_above by lra. rewrite clamp_inside by lra. reflexivity.
Qed.

End HedgehogFacts.

(** ** The zoom of the wheel

    The wheel multiplies the scale by a rounded constant. The first part
    follows the rounding of one binary64 multiplication through its
    specification ([SFmul]): the product of two mantissas of 53 digits is
    shifted right to 53 digits and rounded to nearest, which costs at most
    a relative 2^-53 as long as the result is a normal number. The second
    part adds the errors up along the way forward and the way back. *)

Module ZoomFacts.

Import Zoom.

Local Open Scope Z_scope.

(** *** One rounding

    The binary iteration of the library is an iteration. *)
Lemma iter_pos_nat {A : Type} (f : A -> A) (p : positive) : forall x,
  SpecFloat.iter_pos f p x = Nat.iter (Pos.to_nat p) f x.
Proof.
  induction p as [p IH | p IH |]; intros x; cbn [SpecFloat.iter_pos].
  - rewrite !IH, Pos2Nat.inj_xI, Nat.iter_succ_r.
    replace (2 * Pos.to_nat p)%nat with (Pos.to_nat p + Pos.to_nat p)%nat by lia.
    rewrite Nat.iter_add. reflexivity.
  - rewrite !IH, Pos2Nat.inj_xO.
    replace (2 * Pos.to_nat p)%nat with (Pos.to_nat p + Pos.to_nat p)%nat by lia.
    rewrite Nat.iter_add. reflexivity.
  - reflexivity.
Qed.

(** One halving: the quotient by 2, the bit that falls off, and the
    memory of the bits that fell off before. *)
Lemma shr_1_spec (m : Z) (r s : bool) :
  0 <= m ->
  shr_1 (Build_shr_record m r s) = Build_shr_record (m / 2) (Z.odd m) (r || s).
Proof.
  intros Hm. destruct m as [| p | p]; [reflexivity | | lia].
  destruct p as [p | p |]; cbn [shr_1].
  - f_equal. rewrite Pos2Z.inj_xI. symmetry.
    rewrite Z.add_comm, Z.mul_comm, Z.div_add by lia. reflexivity.
  - f_equal. rewrite Pos2Z.inj_xO. symmetry. rewrite Z.mul_comm, Z.div_mul by lia.
    reflexivity.
  - reflexivity.
Qed.

Lemma mod_split (m : Z) (k : Z) :
  0 <= k -> m mod 2 ^ (k + 1) = m mod 2 ^ k + 2 ^ k * ((m / 2 ^ k) mod 2).
Proof.
  intros Hk. rewrite Z.pow_add_r, Z.pow_1_r by lia.
  apply Z.rem_mul_r; lia.
Qed.

(** After [k + 1] halvings the record holds the quotient by [2 ^ (k + 1)],
    tells whether the remainder reaches half of it, and whether anything
    lies below that half. *)
Lemma halved_iter (m : Z) (k : nat) :
  0 <= m ->
  halved m (S k) (Nat.iter (S k) shr_1 (Build_shr_record m false false)).
Proof.
  intros Hm. induction k as [| k IH].
  - cbn [Nat.iter]. rewrite shr_1_spec by assumption. unfold halved. cbn [shr_m shr_r shr_s orb].
    change (Z.of_nat 1) with 1. change (1 - 1) with 0. rewrite Z.pow_1_r, Z.pow_0_r.
    split; [reflexivity |]. split.
    + rewrite Zodd_mod. pose proof (Z.mod_pos_bound m 2 ltac:(lia)).
      destruct (Z.eqb_spec (m mod 2) 1); split; intros; try lia; try discriminate; reflexivity.
    + rewrite Z.mod_1_r. split; [discriminate | congruence].
  - remember (Nat.iter (S k) shr_1 (Build_shr_record m false false)) as st eqn:Hst.
    change (Nat.iter (S (S k)) shr_1 (Build_shr_record m false false)) with (shr_1 (Nat.iter (S k) shr_1 (Build_shr_record m false false))).
    rewrite <- Hst. destruct st as [q r s]. destruct IH as (Hq & Hr & Hs).
    cbn [shr_m shr_r shr_s] in Hq, Hr, Hs.
    assert (Hq0 : 0 <= q) by (subst q; apply Z.div_pos; lia).
    rewrite shr_1_spec by assumption. unfold halved. cbn [shr_m shr_r shr_s].
    replace (Z.of_nat (S (S k))) with (Z.of_nat (S k) + 1) by lia.
    replace (Z.of_nat (S k) + 1 - 1) with (Z.of_nat (S k)) by lia.
    set (K := Z.of_nat (S k)) in *.
    assert (HK : 1 <= K) by (unfold K; lia).
    pose proof (Z.mod_pos_bound m (2 ^ K) ltac:(lia)) as Hb.
    pose proof (Z.mod_pos_bound (m / 2 ^ K) 2 ltac:(lia)) as Hb2.
    assert (Hp : 0 < 2 ^ K) by lia.
    split; [| split].
    + subst q. rewrite Z.pow_add_r, Z.pow_1_r by lia. apply Z.div_div; lia.
    + rewrite (mod_split m K) by lia. rewrite <- Hq, Zodd_mod.
      destruct (Z.eqb_spec (q mod 2) 1) as [E | E]; split; intros H; try reflexivity; try discriminate.
      * rewrite E. lia.
      * exfalso. rewrite Hq in E. assert (E0 : (m / 2 ^ K) mod 2 = 0) by lia.
        rewrite Hq, E0 in H. lia.
    + pose proof (mod_split m (K - 1) ltac:(lia)) as Hsplit.
      replace (K - 1 + 1) with K in Hsplit by lia.
      pose proof (Z.mod_pos_bound m (2 ^ (K - 1)) ltac:(lia)) as Hb3.
      pose proof (Z.mod_pos_bound (m / 2 ^ (K - 1)) 2 ltac:(lia)) as Hb4.
      assert (Hp' : 0 < 2 ^ (K - 1)) by lia.
      rewrite orb_true_iff, Hr, Hs, Hsplit. split.
      * intros [H | H]; nia.
      * intros H. destruct (Z.eq_dec (m mod 2 ^ (K - 1)) 0) as [E | E]; [left | right; exact E].
        rewrite E in *.
        assert (B : (m / 2 ^ (K - 1)) mod 2 = 0 \/ (m / 2 ^ (K - 1)) mod 2 = 1) by lia.
        destruct B as [B | B]; rewrite B in *; lia.
Qed.

(** Rounding to nearest from that record: the quotient or its successor,
    at most half a unit away from [m]. *)
Lemma round_halved (m : Z) (k : nat) (st : shr_record) :
  0 <= m -> halved m (S k) st ->
  m / 2 ^ Z.of_nat (S k) <= round_nearest_even (shr_m st) (loc_of_shr_record st)
    <= m / 2 ^ Z.of_nat (S k) + 1 /\
  - 2 ^ (Z.of_nat (S k) - 1) <=
    round_nearest_even (shr_m st) (loc_of_shr_record st) * 2 ^ Z.of_nat (S k) - m
    <= 2 ^ (Z.of_nat (S k) - 1).
Proof.
  intros Hm (Hq & Hr & Hs). destruct st as [q r s]. cbn [shr_m shr_r shr_s] in *.
  set (K := Z.of_nat (S k)) in *.
  assert (HK : 1 <= K) by (unfold K; lia).
  pose proof (mod_split m (K - 1) ltac:(lia)) as Hsplit.
  replace (K - 1 + 1) with K in Hsplit by lia.
  pose proof (Z.mod_pos_bound m (2 ^ (K - 1)) ltac:(lia)) as Hb3.
  pose proof (Z.mod_pos_bound (m / 2 ^ (K - 1)) 2 ltac:(lia)) as Hb4.
  pose proof (Z.mod_pos_bound m (2 ^ K) ltac:(lia)) as Hb.
  assert (Hp' : 0 < 2 ^ (K - 1)) by lia.
  assert (Hpow : 2 ^ K = 2 * 2 ^ (K - 1)).
  { replace K with (K - 1 + 1) at 1 by lia. rewrite Z.pow_add_r by lia. lia. }
  pose proof (Z.div_mod m (2 ^ K) ltac:(lia)) as Hdm. rewrite <- Hq in Hdm.
  destruct r, s; cbn [loc_of_shr_record round_nearest_even].
  - (* above the middle *)
    assert (H1 : 2 ^ (K - 1) <= m mod 2 ^ K) by (apply Hr; reflexivity).
    subst q. split; [lia |]. nia.
  - (* the middle *)
    assert (H1 : 2 ^ (K - 1) <= m mod 2 ^ K) by (apply Hr; reflexivity).
    assert (H2 : m mod 2 ^ (K - 1) = 0).
    { destruct (Z.eq_dec (m mod 2 ^ (K - 1)) 0) as [E | E]; [exact E |].
      apply Hs in E. discriminate. }
    assert (H3 : m mod 2 ^ K = 2 ^ (K - 1)) by nia.
    subst q. destruct (Z.even (m / 2 ^ K)); split; try lia; nia.
  - assert (H1 : ~ 2 ^ (K - 1) <= m mod 2 ^ K) by (intros H; apply Hr in H; discriminate).
    subst q. split; [lia |]. nia.
  - assert (H1 : ~ 2 ^ (K - 1) <= m mod 2 ^ K) by (intros H; apply Hr in H; discriminate).
    subst q. split; [lia |]. nia.
Qed.

(** The number of binary digits. *)
Lemma digits2_bounds (p : positive) :
  2 ^ (Zpos (digits2_pos p) - 1) <= Zpos p < 2 ^ Zpos (digits2_pos p).
Proof.
  induction p as [p IH | p IH |]; cbn [digits2_pos].
  - rewrite Pos2Z.inj_succ. change (Zpos p~1) with (2 * Zpos p + 1).
    replace (Z.succ (Zpos (digits2_pos p)) - 1) with (Z.succ (Zpos (digits2_pos p) - 1)) by lia.
    rewrite !Z.pow_succ_r by lia.
    set (lo := 2 ^ (Zpos (digits2_pos p) - 1)) in *.
    set (hi := 2 ^ Zpos (digits2_pos p)) in *. lia.
  - rewrite Pos2Z.inj_succ. change (Zpos p~0) with (2 * Zpos p).
    replace (Z.succ (Zpos (digits2_pos p)) - 1) with (Z.succ (Zpos (digits2_pos p) - 1)) by lia.
    rewrite !Z.pow_succ_r by lia.
    set (lo := 2 ^ (Zpos (digits2_pos p) - 1)) in *.
    set (hi := 2 ^ Zpos (digits2_pos p)) in *. lia.
  - simpl. lia.
Qed.

Lemma digits2_unique (p : positive) (d : Z) :
  2 ^ (d - 1) <= Zpos p < 2 ^ d -> Zpos (digits2_pos p) = d.
Proof.
  intros [Hlo Hhi]. pose proof (digits2_bounds p) as [Blo Bhi].
  set (D := Zpos (digits2_pos p)) in *.
  assert (HD : 1 <= D) by (unfold D; lia).
  destruct (Z.lt_trichotomy D d) as [H | [H | H]]; [| exact H |].
  - assert (2 ^ D <= 2 ^ (d - 1)) by (apply Z.pow_le_mono_r; lia). lia.
  - assert (d <= 0 \/ 1 <= d) as [Hd | Hd] by lia.
    + assert (2 ^ d <= 1).
      { destruct (Z.eq_dec d 0) as [-> | Hn]; [simpl; lia |].
        rewrite Z.pow_neg_r by lia. lia. }
      lia.
    + assert (2 ^ d <= 2 ^ (D - 1)) by (apply Z.pow_le_mono_r; lia). lia.
Qed.

(** The shift that brings a long mantissa to 53 digits, and the shift of
    a mantissa that has 53 digits already, which is none. *)
Lemma shr_fexp_shift (m : positive) (e : Z) (l : location) :
  -1074 <= e + Zpos (digits2_pos m) - 53 ->
  53 < Zpos (digits2_pos m) ->
  shr_fexp prec emax (Zpos m) e l =
    (Nat.iter (Z.to_nat (Zpos (digits2_pos m) - 53)) shr_1 (shr_record_of_loc (Zpos m) l),
     e + (Zpos (digits2_pos m) - 53)).
Proof.
  intros He Hd. unfold shr_fexp. cbn [Zdigits2].
  set (d := Zpos (digits2_pos m)) in *.
  assert (Hf : fexp prec emax (d + e) - e = d - 53).
  { unfold fexp, SpecFloat.emin, prec, emax. lia. }
  rewrite Hf. destruct (d - 53) as [| n | n] eqn:Hn; try lia.
  unfold shr. rewrite iter_pos_nat. reflexivity.
Qed.

Lemma shr_fexp_none (M : positive) (e : Z) :
  -1074 <= e -> Zpos (digits2_pos M) = 53 ->
  shr_fexp prec emax (Zpos M) e loc_Exact = (Build_shr_record (Zpos M) false false, e).
Proof.
  intros He Hd. unfold shr_fexp. cbn [Zdigits2]. rewrite Hd.
  assert (Hf : fexp prec emax (53 + e) - e = 0).
  { unfold fexp, SpecFloat.emin, prec, emax. lia. }
  rewrite Hf. reflexivity.
Qed.

(** The rounding of a mantissa [m] of more than 53 digits whose result is
    above the subnormal range: a mantissa [Mz] of 53 digits with an
    exponent [E], or infinity when [E] is too large, where [Mz * 2 ^ E]
    is within [2 ^ (d - 54)] units of exponent [e] from [m], for [d] the
    number of digits of [m]. *)
Lemma round_aux_normal (sx : bool) (m : positive) (e : Z) :
  53 < Zpos (digits2_pos m) ->
  -1074 <= e + Zpos (digits2_pos m) - 53 ->
  exists (Mz : positive) (E : Z),
    binary_round_aux prec emax sx (Zpos m) e loc_Exact =
      (if E <=? 971 then S754_finite sx Mz E else S754_infinity sx) /\
    Zpos (digits2_pos Mz) = 53 /\
    e + Zpos (digits2_pos m) - 53 <= E <= e + Zpos (digits2_pos m) - 52 /\
    - 2 ^ (Zpos (digits2_pos m) - 54) <= Zpos Mz * 2 ^ (E - e) - Zpos m
      <= 2 ^ (Zpos (digits2_pos m) - 54).
Proof.
  intros Hd He. unfold binary_round_aux.
  rewrite (shr_fexp_shift m e loc_Exact He Hd).
  pose proof (digits2_bounds m) as Hm.
  set (d := Zpos (digits2_pos m)) in *.
  set (n := d - 53) in *.
  assert (Hn : 1 <= n) by (unfold n; lia).
  destruct (Z.to_nat n) as [| k] eqn:Hk; [lia |].
  assert (HK : Z.of_nat (S k) = n) by lia.
  cbn [shr_record_of_loc].
  pose proof (halved_iter (Zpos m) k ltac:(lia)) as Hh.
  set (st := Nat.iter (S k) shr_1 (Build_shr_record (Zpos m) false false)) in *.
  pose proof (round_halved (Zpos m) k st ltac:(lia) Hh) as [HM Hdiff].
  rewrite HK in HM, Hdiff.
  set (M := round_nearest_even (shr_m st) (loc_of_shr_record st)) in *.
  assert (Hpn : 0 < 2 ^ n) by lia.
  assert (Hsplit : 2 ^ d = 2 ^ 53 * 2 ^ n).
  { unfold n. rewrite <- Z.pow_add_r by lia. f_equal. lia. }
  assert (Hsplit' : 2 ^ (d - 1) = 2 ^ 52 * 2 ^ n).
  { unfold n. rewrite <- Z.pow_add_r by lia. f_equal. lia. }
  assert (Hq : 2 ^ 52 <= Zpos m / 2 ^ n < 2 ^ 53).
  { split.
    - apply Z.div_le_lower_bound; lia.
    - apply Z.div_lt_upper_bound; lia. }
  assert (Hhalf : 2 ^ n = 2 * 2 ^ (n - 1)).
  { replace n with (n - 1 + 1) at 1 by lia. rewrite Z.pow_add_r by lia. lia. }
  replace (d - 54) with (n - 1) by (unfold n; lia).
  destruct M as [| Mp | Mp] eqn:HMp; try lia.
  destruct (Z.eq_dec (Zpos Mp) (2 ^ 53)) as [Htop | Htop].
  - (* the mantissa was rounded up to 2^53 *)
    injection Htop as ->.
    exists (4503599627370496)%positive, (e + n + 1).
    split; [| split; [reflexivity | split; [unfold n; lia |]]].
    + unfold shr_fexp. cbn [Zdigits2 digits2_pos Pos.succ].
      assert (Hf : fexp prec emax (54 + (e + n)) - (e + n) = 1).
      { unfold fexp, SpecFloat.emin, prec, emax. lia. }
      change (Zpos (Pos.succ _)) with 54. rewrite Hf. reflexivity.
    + replace (e + n + 1 - e) with (n + 1) by lia.
      rewrite Z.pow_add_r by lia.
      change (Zpos 4503599627370496 * (2 ^ n * 2 ^ 1)) with (2 ^ 52 * (2 ^ n * 2)).
      change (Zpos 9007199254740992) with (2 ^ 53) in Hdiff. lia.
  - assert (Hdig : Zpos (digits2_pos Mp) = 53).
    { apply digits2_unique. change (53 - 1) with 52. lia. }
    exists Mp, (e + n).
    split; [| split; [exact Hdig | split; [unfold n; lia |]]].
    + rewrite (shr_fexp_none Mp (e + n)) by (unfold n; lia || exact Hdig).
      cbn [shr_m]. reflexivity.
    + replace (e + n - e) with n by lia. exact Hdiff.
Qed.

Local Open Scope R_scope.

(** *** One multiplication

    Powers of two over the reals. *)
Lemma IZR_pow2 (k : Z) : (0 <= k)%Z -> IZR (2 ^ k) = powerRZ 2 k.
Proof.
  intros Hk. rewrite <- (Z2Nat.id k Hk), <- pow_IZR, <- pow_powerRZ. reflexivity.
Qed.

Lemma pow2_pos (k : Z) : 0 < powerRZ 2 k.
Proof. apply powerRZ_lt. lra. Qed.

Lemma pow2_add (a b : Z) : powerRZ 2 (a + b) = powerRZ 2 a * powerRZ 2 b.
Proof. apply powerRZ_add. lra. Qed.

Lemma pow2_le (a b : Z) : (a <= b)%Z -> powerRZ 2 a <= powerRZ 2 b.
Proof.
  intros H. replace b with (a + (b - a))%Z by lia. rewrite pow2_add.
  rewrite <- (IZR_pow2 (b - a)) by lia.
  assert (1 <= IZR (2 ^ (b - a))).
  { apply IZR_le. assert (0 < 2 ^ (b - a))%Z by (apply Z.pow_pos_nonneg; lia). lia. }
  pose proof (pow2_pos a). nra.
Qed.

Lemma pow2_lt_inv (a b : Z) : powerRZ 2 a < powerRZ 2 b -> (a < b)%Z.
Proof.
  intros H. destruct (Z_lt_le_dec a b) as [Hlt | Hle]; [exact Hlt |].
  apply pow2_le in Hle. lra.
Qed.

Lemma mag_pos m e : 0 < mag m e.
Proof.
  unfold mag. apply Rmult_lt_0_compat; [apply IZR_lt; lia | apply pow2_pos].
Qed.

(** The size of a number with a mantissa of 53 digits. *)
Lemma mag_bounds (m : positive) (e : Z) :
  Zpos (digits2_pos m) = 53%Z ->
  powerRZ 2 (52 + e) <= mag m e < powerRZ 2 (53 + e).
Proof.
  intros Hd. pose proof (digits2_bounds m) as [Hlo Hhi]. rewrite Hd in Hlo, Hhi.
  change (53 - 1)%Z with 52%Z in Hlo.
  unfold mag. rewrite !pow2_add. rewrite <- (IZR_pow2 52), <- (IZR_pow2 53) by lia.
  pose proof (pow2_pos e). apply IZR_le in Hlo. apply IZR_lt in Hhi.
  split; nra.
Qed.

Lemma digits_product (mx mc : positive) :
  Zpos (digits2_pos mx) = 53%Z -> Zpos (digits2_pos mc) = 53%Z ->
  Zpos (digits2_pos (mx * mc)) = 105%Z \/ Zpos (digits2_pos (mx * mc)) = 106%Z.
Proof.
  intros Hx Hc.
  pose proof (digits2_bounds mx) as [Hxl Hxh]. rewrite Hx in Hxl, Hxh.
  pose proof (digits2_bounds mc) as [Hcl Hch]. rewrite Hc in Hcl, Hch.
  change (53 - 1)%Z with 52%Z in *.
  assert (H104 : (2 ^ 104 <= Zpos (mx * mc))%Z).
  { rewrite Pos2Z.inj_mul. change (2 ^ 104)%Z with (2 ^ 52 * 2 ^ 52)%Z. nia. }
  assert (H106 : (Zpos (mx * mc) < 2 ^ 106)%Z).
  { rewrite Pos2Z.inj_mul. change (2 ^ 106)%Z with (2 ^ 53 * 2 ^ 53)%Z. nia. }
  destruct (Z_lt_le_dec (Zpos (mx * mc)) (2 ^ 105)) as [Hlt | Hge].
  - left. apply digits2_unique. change (105 - 1)%Z with 104%Z. lia.
  - right. apply digits2_unique. change (106 - 1)%Z with 105%Z. lia.
Qed.

(** One multiplication of two normal numbers, away from the subnormal
    range: the product is rounded to a normal number, or to infinity, with
    a relative error of at most 2^-53. *)
Lemma SFmul_normal (mx mc : positive) (ex ec : Z) :
  Zpos (digits2_pos mx) = 53%Z -> Zpos (digits2_pos mc) = 53%Z ->
  (-1126 <= ex + ec)%Z ->
  exists (Mz : positive) (E : Z),
    SF64mul (S754_finite false mx ex) (S754_finite false mc ec) =
      (if (E <=? 971)%Z then S754_finite false Mz E else S754_infinity false) /\
    Zpos (digits2_pos Mz) = 53%Z /\
    Rabs (mag Mz E - mag mx ex * mag mc ec) <= / 2 ^ 53 * (mag mx ex * mag mc ec).
Proof.
  intros Hx Hc He. unfold SF64mul, SFmul. cbn [xorb].
  pose proof (digits_product mx mc Hx Hc) as Hd.
  destruct (round_aux_normal false (mx * mc) (ex + ec)) as (Mz & E & Heq & HMz & HE & Hdiff);
    [lia | lia |].
  exists Mz, E. split; [exact Heq |]. split; [exact HMz |].
  pose proof (digits2_bounds (mx * mc)) as [Hlo _].
  set (d := Zpos (digits2_pos (mx * mc))) in *.
  set (e := (ex + ec)%Z) in *.
  assert (Hprod : mag mx ex * mag mc ec = IZR (Zpos (mx * mc)) * powerRZ 2 e).
  { unfold mag, e. rewrite Pos2Z.inj_mul, mult_IZR, pow2_add. ring. }
  rewrite Hprod.
  assert (HMag : mag Mz E = IZR (Zpos Mz * 2 ^ (E - e)) * powerRZ 2 e).
  { unfold mag. rewrite mult_IZR, IZR_pow2 by lia. rewrite Rmult_assoc, <- pow2_add.
    f_equal. f_equal. lia. }
  rewrite HMag, <- Rmult_minus_distr_r, Rabs_mult.
  rewrite (Rabs_right (powerRZ 2 e)) by (left; apply pow2_pos).
  rewrite <- Rmult_assoc. apply Rmult_le_compat_r; [left; apply pow2_pos |].
  rewrite <- minus_IZR.
  assert (Hhalf : (2 ^ (d - 1) = 2 ^ 53 * 2 ^ (d - 54))%Z).
  { rewrite <- Z.pow_add_r by lia. f_equal. lia. }
  assert (Hp : (0 < 2 ^ (d - 54))%Z) by (apply Z.pow_pos_nonneg; lia).
  assert (Hb : (Z.abs (Zpos Mz * 2 ^ (E - e) - Zpos (mx * mc)) <= 2 ^ (d - 54))%Z) by lia.
  rewrite <- abs_IZR. apply IZR_le in Hb.
  assert (Hm : IZR (2 ^ 53 * 2 ^ (d - 54)) <= IZR (Zpos (mx * mc))) by (apply IZR_le; lia).
  rewrite mult_IZR in Hm.
  assert (H53 : IZR (2 ^ 53) = 2 ^ 53) by (rewrite (pow_IZR 2 53); reflexivity).
  rewrite H53 in Hm.
  assert (Hpp : 0 < 2 ^ 53) by (apply pow_lt; lra).
  set (P := 2 ^ 53) in *.
  apply Rle_trans with (IZR (2 ^ (d - 54))); [exact Hb |].
  replace (IZR (2 ^ (d - 54))) with (/ P * (P * IZR (2 ^ (d - 54)))) by (field; lra).
  apply Rmult_le_compat_l; [left; apply Rinv_0_lt_compat; exact Hpp | exact Hm].
Qed.

(** From floats to their specification. *)
Lemma normal_spec (x : float) :
  classify x = PNormal <->
  exists m e, Prim2SF x = S754_finite false m e /\ Zpos (digits2_pos m) = 53%Z.
Proof.
  rewrite classify_spec. unfold SF64classify, SFclassify.
  destruct (Prim2SF x) as [s | s | | s m e]; try (destruct s);
    try (split; [discriminate | intros (m' & e' & H & _); discriminate]).
  - destruct (Z.eqb_spec (Zpos (digits2_pos m)) prec) as [E | E];
      split; try discriminate; intros (m' & e' & H & _); discriminate.
  - destruct (Z.eqb_spec (Zpos (digits2_pos m)) prec) as [E | E]; split.
    + intros _. exists m, e. auto.
    + reflexivity.
    + discriminate.
    + intros (m' & e' & H & Hd). injection H as <- <-. contradiction.
Qed.

Lemma normal_value (x : float) (m : positive) (e : Z) :
  Prim2SF x = S754_finite false m e -> value x = mag m e.
Proof. intros H. unfold value. rewrite H. reflexivity. Qed.

Lemma finite_exponent (x : float) (s : bool) (m : positive) (e : Z) :
  Prim2SF x = S754_finite s m e -> (e <= 971)%Z.
Proof.
  intros H. pose proof (Prim2SF_valid x) as Hv. rewrite H in Hv.
  unfold SpecFloat.valid_binary, bounded in Hv. apply andb_prop in Hv.
  destruct Hv as [_ Hv]. apply Z.leb_le in Hv. exact Hv.
Qed.

Lemma isFinite_infinity : isFinite infinity = false.
Proof. reflexivity. Qed.

Lemma isFinite_normal (x : float) (m : positive) (e : Z) :
  Prim2SF x = S754_finite false m e -> isFinite x = true.
Proof.
  intros H. unfold isFinite. rewrite ltb_spec, abs_spec, H. reflexivity.
Qed.

Lemma abs_bound (x a : R) : Rabs x <= a -> - a <= x <= a.
Proof. unfold Rabs. destruct (Rcase_abs x); lra. Qed.

Lemma bound_abs (x a : R) : - a <= x <= a -> Rabs x <= a.
Proof. unfold Rabs. destruct (Rcase_abs x); lra. Qed.

Lemma mul_outcome (x c : float) (mc : positive) (ec : Z) :
  classify x = PNormal ->
  Prim2SF c = S754_finite false mc ec -> Zpos (digits2_pos mc) = 53%Z ->
  (-53 <= ec)%Z ->
  powerRZ 2 (-1021) <= value x ->
  ((x * c)%float = infinity /\
   powerRZ 2 1024 <= value x * mag mc ec * (1 + ulp53)) \/
  (classify (x * c)%float = PNormal /\
   Rabs (value (x * c)%float - value x * mag mc ec) <= ulp53 * (value x * mag mc ec)).
Proof.
  intros Hx Hc Hdc Hec Hv. apply normal_spec in Hx. destruct Hx as (mx & ex & Hx & Hdx).
  rewrite (normal_value x mx ex Hx) in *.
  assert (Hex : (-1073 <= ex)%Z).
  { pose proof (mag_bounds mx ex Hdx) as [_ Hhi].
    assert (H : powerRZ 2 (-1021) < powerRZ 2 (53 + ex)) by lra.
    apply pow2_lt_inv in H. lia. }
  destruct (SFmul_normal mx mc ex ec Hdx Hdc ltac:(lia)) as (Mz & E & Heq & HMz & Hb).
  fold ulp53 in Hb.
  assert (Hspec : Prim2SF (x * c)%float =
                  (if (E <=? 971)%Z then S754_finite false Mz E else S754_infinity false)).
  { rewrite mul_spec, Hx, Hc. exact Heq. }
  destruct (Z.leb_spec E 971) as [HE | HE].
  - right. split.
    + apply normal_spec. exists Mz, E. auto.
    + rewrite (normal_value _ Mz E Hspec). exact Hb.
  - left. split.
    + apply Prim2SF_inj. rewrite Hspec. reflexivity.
    + pose proof (mag_bounds Mz E HMz) as [Hlo _].
      assert (H1 : powerRZ 2 1024 <= powerRZ 2 (52 + E)) by (apply pow2_le; lia).
      apply abs_bound in Hb. lra.
Qed.

(** The two factors of the wheel, as mantissa and exponent. *)
Lemma scaleFactor_spec :
  Prim2SF scaleFactor = S754_finite false 4953959590107546 (-52).
Proof. vm_compute. reflexivity. Qed.

Lemma inverse_spec :
  Prim2SF (1 / scaleFactor)%float = S754_finite false 8188362958855447 (-53).
Proof. vm_compute. reflexivity. Qed.

(** What the rest needs of these numbers: a rounded step forward never
    shrinks the scale, a rounded step back always does, and a step forward
    with a step back changes the scale by a relative 2^-51 at most,
    roundings included. *)
Lemma constants :
  1 <= kappaIn * (1 - ulp53) /\
  0 < kappaOut * (1 - ulp53) /\
  kappaOut * (1 + ulp53) < 1 /\
  1 - / 2 ^ 51 <= (kappaIn * (1 - ulp53)) * (kappaOut * (1 - ulp53)) /\
  (kappaIn * (1 + ulp53)) * (kappaOut * (1 + ulp53)) <= 1 + / 2 ^ 51.
Proof.
  unfold kappaIn, kappaOut, mag, ulp53.
  change (powerRZ 2 (-52)) with (/ 2 ^ 52).
  change (powerRZ 2 (-53)) with (/ 2 ^ 53).
  repeat split; lra.
Qed.

(** *** The way forward and the way back *)
Lemma zoomIn_eq (x : float) : wheelEvent 120 x = (x * scaleFactor)%float.
Proof. reflexivity. Qed.

Lemma zoomOut_eq (x : float) : wheelEvent (-120) x = (x * (1 / scaleFactor))%float.
Proof. reflexivity. Qed.

Lemma infinity_stays (n : nat) (d : Z) : wheelSteps n d infinity = infinity.
Proof.
  induction n as [| n IH]; [reflexivity |].
  cbn [wheelSteps]. unfold wheelEvent. destruct (d >? 0)%Z; exact IH.
Qed.

Lemma value_normal_pos (x : float) : classify x = PNormal -> 0 < value x.
Proof.
  intros H. apply normal_spec in H. destruct H as (m & e & H & _).
  rewrite (normal_value x m e H). apply mag_pos.
Qed.

Lemma value_below_top (x : float) : classify x = PNormal -> value x < powerRZ 2 1024.
Proof.
  intros H. apply normal_spec in H. destruct H as (m & e & H & Hd).
  rewrite (normal_value x m e H).
  pose proof (finite_exponent x false m e H) as He.
  pose proof (mag_bounds m e Hd) as [_ Hhi].
  assert (powerRZ 2 (53 + e) <= powerRZ 2 1024) by (apply pow2_le; lia). lra.
Qed.

(** The way forward: as long as the scale has not overflowed, each step
    multiplies it by [kappaIn] within a relative [ulp53]. *)
Lemma forward_steps (n : nat) : forall x : float,
  classify x = PNormal -> powerRZ 2 (-1021) <= value x ->
  isFinite (wheelSteps n 120 x) = true ->
  classify (wheelSteps n 120 x) = PNormal /\
  value x * (kappaIn * (1 - ulp53)) ^ n <= value (wheelSteps n 120 x)
    <= value x * (kappaIn * (1 + ulp53)) ^ n.
Proof.
  destruct constants as (Hin & _).
  induction n as [| n IH]; intros x Hx Hv Hfin.
  - cbn [wheelSteps pow]. split; [exact Hx | lra].
  - cbn [wheelSteps] in *. rewrite zoomIn_eq in *.
    pose proof (value_normal_pos x Hx) as Hpos.
    destruct (mul_outcome x scaleFactor _ _ Hx scaleFactor_spec eq_refl ltac:(lia) Hv)
      as [[Hinf _] | [Hn Hb]].
    + rewrite Hinf, infinity_stays in Hfin. discriminate Hfin.
    + fold kappaIn in Hb. apply abs_bound in Hb.
      assert (Hk : 0 < kappaIn) by apply mag_pos.
      assert (Hu : 0 < ulp53) by (unfold ulp53; apply Rinv_0_lt_compat, pow_lt; lra).
      assert (Hv' : powerRZ 2 (-1021) <= value (x * scaleFactor)%float) by nra.
      destruct (IH _ Hn Hv' Hfin) as (Hc & Hlo & Hhi).
      split; [exact Hc |].
      assert (Hp1 : 0 <= (kappaIn * (1 - ulp53)) ^ n) by (apply pow_le; lra).
      assert (Hp2 : 0 <= (kappaIn * (1 + ulp53)) ^ n) by (apply pow_le; nra).
      cbn [pow]. split.
      * apply Rle_trans with (value (x * scaleFactor)%float * (kappaIn * (1 - ulp53)) ^ n);
          [| exact Hlo].
        rewrite <- Rmult_assoc. apply Rmult_le_compat_r; [exact Hp1 | lra].
      * apply Rle_trans with (value (x * scaleFactor)%float * (kappaIn * (1 + ulp53)) ^ n);
          [exact Hhi |].
        rewrite <- Rmult_assoc. apply Rmult_le_compat_r; [exact Hp2 | lra].
Qed.

(** The way back: each step multiplies the scale by [kappaOut] within a
    relative [ulp53], as long as the scale stays clear of the subnormal
    numbers. *)
Lemma backward_steps (n : nat) : forall y : float,
  classify y = PNormal ->
  powerRZ 2 (-1021) <= value y * (kappaOut * (1 - ulp53)) ^ n ->
  classify (wheelSteps n (-120) y) = PNormal /\
  value y * (kappaOut * (1 - ulp53)) ^ n <= value (wheelSteps n (-120) y)
    <= value y * (kappaOut * (1 + ulp53)) ^ n.
Proof.
  destruct constants as (_ & Hlo0 & Hhi1 & _).
  assert (Hu : 0 < ulp53) by (unfold ulp53; apply Rinv_0_lt_compat, pow_lt; lra).
  assert (Hk : 0 < kappaOut) by apply mag_pos.
  induction n as [| n IH]; intros y Hy Hv.
  - cbn [wheelSteps pow]. split; [exact Hy | lra].
  - cbn [wheelSteps]. rewrite zoomOut_eq.
    pose proof (value_normal_pos y Hy) as Hpos.
    pose proof (value_below_top y Hy) as Htop.
    assert (Hp1 : 0 < (kappaOut * (1 - ulp53)) ^ n) by (apply pow_lt; exact Hlo0).
    assert (Hp1' : (kappaOut * (1 - ulp53)) ^ n <= 1).
    { apply Rle_trans with (1 ^ n); [apply pow_incr; nra | rewrite pow1; lra]. }
    assert (Hp2 : 0 <= (kappaOut * (1 + ulp53)) ^ n) by (apply pow_le; nra).
    cbn [pow] in Hv.
    assert (Hq1 : kappaOut * (1 - ulp53) <= 1) by nra.
    assert (Hqq : kappaOut * (1 - ulp53) * (kappaOut * (1 - ulp53)) ^ n <= 1) by nra.
    assert (Hvy : powerRZ 2 (-1021) <= value y).
    { apply Rle_trans with (value y * (kappaOut * (1 - ulp53) * (kappaOut * (1 - ulp53)) ^ n));
        [exact Hv |].
      rewrite <- (Rmult_1_r (value y)) at 2. apply Rmult_le_compat_l; lra. }
    destruct (mul_outcome y (1 / scaleFactor)%float _ _ Hy inverse_spec eq_refl ltac:(lia) Hvy)
      as [[_ Hbig] | [Hn Hb]].
    + fold kappaOut in Hbig. exfalso. nra.
    + fold kappaOut in Hb. apply abs_bound in Hb.
      assert (Hv' : powerRZ 2 (-1021) <=
                    value (y * (1 / scaleFactor))%float * (kappaOut * (1 - ulp53)) ^ n).
      { apply Rle_trans with (value y * (kappaOut * (1 - ulp53) * (kappaOut * (1 - ulp53)) ^ n));
          [exact Hv |].
        rewrite <- Rmult_assoc. apply Rmult_le_compat_r; [lra | lra]. }
      destruct (IH _ Hn Hv') as (Hc & Hlo & Hhi).
      split; [exact Hc |]. cbn [pow]. split.
      * apply Rle_trans with (value (y * (1 / scaleFactor))%float * (kappaOut * (1 - ulp53)) ^ n);
          [| exact Hlo].
        rewrite <- Rmult_assoc. apply Rmult_le_compat_r; [lra | lra].
      * apply Rle_trans with (value (y * (1 / scaleFactor))%float * (kappaOut * (1 + ulp53)) ^ n);
          [exact Hhi |].
        rewrite <- Rmult_assoc. apply Rmult_le_compat_r; [exact Hp2 | lra].
Qed.

(** Powers of numbers close to 1. *)
Lemma bernoulli_lower (t : R) (n : nat) :
  0 <= t <= 1 -> 1 - INR n * t <= (1 - t) ^ n.
Proof.
  intros Ht. induction n as [| n IH].
  - simpl. lra.
  - rewrite S_INR. cbn [pow].
    assert (H0 : 0 <= (1 - t) ^ n) by (apply pow_le; lra).
    assert (Hn : 0 <= INR n) by apply pos_INR. nra.
Qed.

Lemma bernoulli_upper (t : R) (n : nat) :
  0 <= t -> INR n * t <= / 2 -> (1 + t) ^ n <= 1 + 2 * INR n * t.
Proof.
  intros Ht. induction n as [| n IH]; intros Hn.
  - simpl. lra.
  - rewrite S_INR in *. cbn [pow].
    assert (Hn0 : 0 <= INR n) by apply pos_INR.
    assert (IH' : (1 + t) ^ n <= 1 + 2 * INR n * t) by (apply IH; nra).
    assert (H0 : 0 <= (1 + t) ^ n) by (apply pow_le; lra).
    nra.
Qed.

(** A way forward that does not overflow is short. *)
Lemma forward_is_short (n : nat) (x : float) :
  classify x = PNormal -> powerRZ 2 (-1020) <= value x ->
  isFinite (wheelSteps n 120 x) = true ->
  (Z.of_nat n < 16360)%Z.
Proof.
  intros Hx Hv Hfin.
  destruct (Z_lt_le_dec (Z.of_nat n) 16360) as [Hlt | Hge]; [exact Hlt | exfalso].
  assert (Hv' : powerRZ 2 (-1021) <= value x).
  { apply Rle_trans with (powerRZ 2 (-1020)); [apply pow2_le; lia | exact Hv]. }
  destruct (forward_steps n x Hx Hv' Hfin) as (Hn & Hlo & _).
  pose proof (value_below_top _ Hn) as Htop.
  destruct constants as (Hin & _).
  set (a := kappaIn * (1 - ulp53)) in *.
  assert (Ha8 : 2 <= a ^ 8).
  { unfold a, kappaIn, mag, ulp53. change (powerRZ 2 (-52)) with (/ 2 ^ 52). lra. }
  assert (Hgrow : 2 ^ 2045 <= a ^ n).
  { apply Rle_trans with (a ^ (8 * 2045)).
    - rewrite pow_mult. apply pow_incr. lra.
    - apply Rle_pow; [exact Hin | lia]. }
  rewrite pow_powerRZ in Hgrow.
  assert (Hsplit : powerRZ 2 1024 = powerRZ 2 (-1020) * powerRZ 2 2044).
  { rewrite <- pow2_add. reflexivity. }
  assert (Hstep : powerRZ 2 2044 < powerRZ 2 (Z.of_nat 2045)).
  { change (Z.of_nat 2045) with (2044 + 1)%Z. rewrite pow2_add.
    change (powerRZ 2 1) with (2 * 1). pose proof (pow2_pos 2044). lra. }
  pose proof (pow2_pos (-1020)) as Hp.
  assert (Hpos : 0 < a ^ n) by (apply pow_lt; lra).
  nra.
Qed.

(** The round trip that does not overflow. *)
Lemma round_trip_bound (n : nat) (s : float) :
  classify s = PNormal -> powerRZ 2 (-1020) <= value s ->
  isFinite (wheelSteps n 120 s) = true ->
  classify (roundTrip n s) = PNormal /\
  Rabs (value (roundTrip n s) - value s) <= INR n * / 2 ^ 50 * value s.
Proof.
  intros Hs Hv Hfin.
  pose proof (forward_is_short n s Hs Hv Hfin) as Hshort.
  assert (Hv' : powerRZ 2 (-1021) <= value s).
  { apply Rle_trans with (powerRZ 2 (-1020)); [apply pow2_le; lia | exact Hv]. }
  destruct (forward_steps n s Hs Hv' Hfin) as (Hn & Hlo & Hhi).
  destruct constants as (Hin & Hout0 & Hout1 & Hab & HAB).
  assert (Hu : 0 < ulp53) by (unfold ulp53; apply Rinv_0_lt_compat, pow_lt; lra).
  assert (Hki : 0 < kappaIn) by apply mag_pos.
  assert (Hko : 0 < kappaOut) by apply mag_pos.
  set (a := kappaIn * (1 - ulp53)) in *.
  set (A := kappaIn * (1 + ulp53)) in *.
  set (b := kappaOut * (1 - ulp53)) in *.
  set (B := kappaOut * (1 + ulp53)) in *.
  set (t := / 2 ^ 51) in *.
  assert (Ht : 0 < t) by (unfold t; apply Rinv_0_lt_compat, pow_lt; lra).
  assert (Ht1 : t <= 1) by (unfold t; lra).
  assert (HN : INR n * t <= / 2).
  { rewrite INR_IZR_INZ. apply Rle_trans with (16360 * t).
    - apply Rmult_le_compat_r; [lra | apply IZR_le; lia].
    - unfold t. lra. }
  pose proof (value_normal_pos s Hs) as Hpos.
  assert (Hlow : 1 - INR n * t <= (a * b) ^ n).
  { apply Rle_trans with ((1 - t) ^ n); [apply bernoulli_lower; lra |].
    apply pow_incr. lra. }
  assert (Hupp : (A * B) ^ n <= 1 + 2 * INR n * t).
  { apply Rle_trans with ((1 + t) ^ n); [| apply bernoulli_upper; lra].
    apply pow_incr. split; [| exact HAB].
    apply Rmult_le_pos; unfold A, B; nra. }
  rewrite Rpow_mult_distr in Hlow, Hupp.
  assert (Han : 0 < a ^ n) by (apply pow_lt; lra).
  assert (Hbn : 0 < b ^ n) by (apply pow_lt; lra).
  assert (HAn : 0 < A ^ n) by (apply pow_lt; unfold A; nra).
  assert (HBn : 0 < B ^ n) by (apply pow_lt; unfold B; nra).
  set (y := wheelSteps n 120 s) in *.
  assert (Hback : powerRZ 2 (-1021) <= value y * b ^ n).
  { apply Rle_trans with (value s * a ^ n * b ^ n).
    - apply Rle_trans with (value s * / 2).
      + assert (Hhalf : powerRZ 2 (-1020) = 2 * powerRZ 2 (-1021)).
        { change (-1020)%Z with (1 + -1021)%Z. rewrite pow2_add.
          change (powerRZ 2 1) with (2 * 1). ring. }
        lra.
      + rewrite Rmult_assoc. apply Rmult_le_compat_l; lra.
    - apply Rmult_le_compat_r; lra. }
  destruct (backward_steps n y Hn Hback) as (Hc & Hrl & Hrh).
  fold b in Hrl. fold B in Hrh.
  split; [exact Hc |].
  unfold roundTrip. fold y.
  set (r := value (wheelSteps n (-120) y)) in *.
  assert (Hr1 : value s * (1 - INR n * t) <= r).
  { apply Rle_trans with (value s * (a ^ n * b ^ n)).
    - apply Rmult_le_compat_l; lra.
    - apply Rle_trans with (value y * b ^ n); [| exact Hrl].
      rewrite <- Rmult_assoc. apply Rmult_le_compat_r; lra. }
  assert (Hr2 : r <= value s * (1 + 2 * INR n * t)).
  { apply Rle_trans with (value s * (A ^ n * B ^ n)).
    - apply Rle_trans with (value y * B ^ n); [exact Hrh |].
      rewrite <- Rmult_assoc. apply Rmult_le_compat_r; lra.
    - apply Rmult_le_compat_l; lra. }
  apply bound_abs.
  assert (Htt : / 2 ^ 50 = 2 * t) by (unfold t; lra).
  rewrite Htt.
  assert (Hn0 : 0 <= INR n) by apply pos_INR.
  split; nra.
Qed.

Lemma wheelSteps_add (a b : nat) (d : Z) (s : float) :
  wheelSteps (a + b) d s = wheelSteps b d (wheelSteps a d s).
Proof. revert s. induction a as [| a IH]; intros s; [reflexivity | apply IH]. Qed.

(** The way forward ends at a finite scale or at infinity. *)
Lemma forward_outcome (n : nat) : forall x : float,
  classify x = PNormal -> powerRZ 2 (-1021) <= value x ->
  isFinite (wheelSteps n 120 x) = true \/ wheelSteps n 120 x = infinity.
Proof.
  destruct constants as (Hin & _).
  induction n as [| n IH]; intros x Hx Hv.
  - left. cbn [wheelSteps]. apply normal_spec in Hx. destruct Hx as (m & e & Hx & _).
    exact (isFinite_normal x m e Hx).
  - cbn [wheelSteps]. rewrite zoomIn_eq.
    pose proof (value_normal_pos x Hx) as Hpos.
    destruct (mul_outcome x scaleFactor _ _ Hx scaleFactor_spec eq_refl ltac:(lia) Hv)
      as [[Hinf _] | [Hn Hb]].
    + right. rewrite Hinf. apply infinity_stays.
    + fold kappaIn in Hb. apply abs_bound in Hb.
      assert (Hk : 0 < kappaIn) by apply mag_pos.
      apply IH; [exact Hn | nra].
Qed.

Lemma value_one : value 1 = 1.
Proof.
  unfold value.
  replace (Prim2SF 1) with (S754_finite false 4503599627370496 (-52))
    by (vm_compute; reflexivity).
  change (powerRZ 2 (-52)) with (/ 2 ^ 52). lra.
Qed.

Lemma last_finite : isFinite (wheelSteps lastFinite 120 1) = true.
Proof. vm_compute. reflexivity. Qed.

Lemma first_overflow : wheelSteps (S lastFinite) 120 1 = infinity.
Proof. vm_compute. reflexivity. Qed.

Lemma finite_up_to (n : nat) :
  (n <= lastFinite)%nat -> isFinite (wheelSteps n 120 1) = true.
Proof.
  intros Hn.
  assert (Hv : powerRZ 2 (-1021) <= value 1).
  { rewrite value_one. change (powerRZ 2 (-1021)) with (/ 2 ^ 1021).
    assert (H : 1 <= 2 ^ 1021) by (apply pow_R1_Rle; lra).
    apply Rinv_le_contravar in H; lra. }
  destruct (forward_outcome n 1%float eq_refl Hv) as [Hfin | Hinf]; [exact Hfin |].
  pose proof last_finite as Hlast.
  rewrite <- (Nat.sub_add n lastFinite Hn), Nat.add_comm, wheelSteps_add, Hinf,
    infinity_stays in Hlast.
  discriminate Hlast.
Qed.

Lemma overflow_from (n : nat) :
  (lastFinite < n)%nat -> wheelSteps n 120 1 = infinity.
Proof.
  intros Hn. unfold lt in Hn.
  rewrite <- (Nat.sub_add (S lastFinite) n Hn), Nat.add_comm, wheelSteps_add.
  rewrite first_overflow. apply infinity_stays.
Qed.

Lemma value_scaleFactor : value scaleFactor = kappaIn.
Proof. exact (normal_value _ _ _ scaleFactor_spec). Qed.

Lemma value_inverse : value (1 / scaleFactor)%float = kappaOut.
Proof. exact (normal_value _ _ _ inverse_spec). Qed.

(** One step, in numbers: the scale times the factor, within a relative
    2^-53; a step forward may overflow instead, a step back may not. *)
Lemma one_step (s : float) :
  classify s = PNormal -> powerRZ 2 (-1021) <= value s ->
  (wheelEvent 120 s = infinity \/
   Rabs (value (wheelEvent 120 s) - value s * value scaleFactor)
     <= / 2 ^ 53 * (value s * value scaleFactor)) /\
  Rabs (value (wheelEvent (-120) s) - value s * value (1 / scaleFactor)%float)
    <= / 2 ^ 53 * (value s * value (1 / scaleFactor)%float).
Proof.
  intros Hs Hv. rewrite zoomIn_eq, zoomOut_eq, value_scaleFactor, value_inverse.
  fold ulp53. split.
  - destruct (mul_outcome s scaleFactor _ _ Hs scaleFactor_spec eq_refl ltac:(lia) Hv)
      as [[Hinf _] | [_ Hb]]; [left; exact Hinf | right; exact Hb].
  - destruct (mul_outcome s (1 / scaleFactor)%float _ _ Hs inverse_spec eq_refl
                ltac:(lia) Hv) as [[_ Hbig] | [_ Hb]]; [exfalso | exact Hb].
    fold kappaOut in Hbig.
    destruct constants as (_ & _ & Hout1 & _).
    pose proof (value_normal_pos s Hs) as Hpos.
    pose proof (value_below_top s Hs) as Htop.
    assert (Hk : 0 < kappaOut) by apply mag_pos.
    assert (Hu : 0 < ulp53) by (unfold ulp53; apply Rinv_0_lt_compat, pow_lt; lra).
    nra.
Qed.

(** C7, as the code has it. A wheel event with a positive angle delta
    multiplies the scale by the double [scaleFactor], which is 11/10
    rounded and lies a little above 1.1, and every other wheel event
    multiplies it by the double [1 / scaleFactor], which is 10/11 rounded;
    each step is one rounded multiplication, and nothing bounds the scale.
    Take any number [n] of steps and any starting scale [s] that is a
    normal number of at least 2^-1020. One step takes [s] to the product of
    [s] and the factor within a relative 2^-53, unless a step forward
    overflows. The [n] steps forward end at a finite scale or at infinity.
    When they end at a finite scale, the [n] steps back return a normal
    number within [n] times 2^-50 of [s], relative to [s]. When they end at
    infinity the scale stays infinite, whatever the steps that follow, and
    the round trip ends at infinity. From the scale 1 the way forward is
    finite up to 7447 steps and reaches infinity from 7448 steps on. *)
Theorem wheel_zoom_round_trip (n : nat) (angleDeltaY : Z) (m11 s : float)
    (Hs : classify s = PNormal) (Hv : powerRZ 2 (-1020) <= value s) :
  wheelEvent angleDeltaY m11 =
    (if (angleDeltaY >? 0)%Z then m11 * scaleFactor
     else m11 * (1 / scaleFactor))%float /\
  scaleFactor = (11 / 10)%float /\
  (1 / scaleFactor)%float = (10 / 11)%float /\
  11 / 10 < value scaleFactor < 11 / 10 + / 2 ^ 52 /\
  (wheelEvent 120 s = infinity \/
   Rabs (value (wheelEvent 120 s) - value s * value scaleFactor)
     <= / 2 ^ 53 * (value s * value scaleFactor)) /\
  Rabs (value (wheelEvent (-120) s) - value s * value (1 / scaleFactor)%float)
    <= / 2 ^ 53 * (value s * value (1 / scaleFactor)%float) /\
  (isFinite (wheelSteps n 120 s) = true \/ wheelSteps n 120 s = infinity) /\
  (isFinite (wheelSteps n 120 s) = true ->
   classify (roundTrip n s) = PNormal /\
   returnsWithin (INR n * / 2 ^ 50) s (roundTrip n s)) /\
  (wheelSteps n 120 s = infinity -> roundTrip n s = infinity) /\
  wheelSteps n angleDeltaY infinity = infinity /\
  ((n <= lastFinite)%nat -> isFinite (wheelSteps n 120 1) = true) /\
  ((lastFinite < n)%nat -> wheelSteps n 120 1 = infinity).
Proof.
  assert (Hv' : powerRZ 2 (-1021) <= value s).
  { apply Rle_trans with (powerRZ 2 (-1020)); [apply pow2_le; lia | exact Hv]. }
  split; [reflexivity |].
  split; [vm_compute; reflexivity |].
  split; [vm_compute; reflexivity |].
  split.
  { rewrite value_scaleFactor. unfold kappaIn, mag.
    change (powerRZ 2 (-52)) with (/ 2 ^ 52). lra. }
  destruct (one_step s Hs Hv') as [Hfwd Hbwd].
  split; [exact Hfwd |]. split; [exact Hbwd |].
  split; [apply forward_outcome; assumption |].
  split.
  { intros Hfin. destruct (round_trip_bound n s Hs Hv Hfin) as [Hc Hb].
    split; [exact Hc |]. split; [| exact Hb].
    apply normal_spec in Hc. destruct Hc as (m & e & Hc & _).
    exact (isFinite_normal _ m e Hc). }
  split.
  { intros Hinf. unfold roundTrip. rewrite Hinf. apply infinity_stays. }
  split; [apply infinity_stays |].
  split; [apply finite_up_to | apply overflow_from].
Qed.

Lemma wheel_zoom_round_trip_witness :
  returnsWithin (INR 100 * / 2 ^ 50) 1 (roundTrip 100 1) /\
  roundTrip (Z.to_nat 8000) 1 = infinity.
Proof.
  assert (Hv : powerRZ 2 (-1020) <= value 1).
  { rewrite value_one. change (powerRZ 2 (-1020)) with (/ 2 ^ 1020).
    assert (H : 1 <= 2 ^ 1020) by (apply pow_R1_Rle; lra).
    apply Rinv_le_contravar in H; lra. }
  split.
  - destruct (wheel_zoom_round_trip 100 120 1 1 eq_refl Hv)
      as (_ & _ & _ & _ & _ & _ & _ & H & _).
    apply H. vm_compute. reflexivity.
  - destruct (wheel_zoom_round_trip (Z.to_nat 8000) 120 1 1 eq_refl Hv)
      as (_ & _ & _ & _ & _ & _ & _ & _ & Hinf & _ & _ & Hover).
    apply Hinf, Hover. apply Nat.ltb_lt. vm_compute. reflexivity.
Defined.

(** C7, counterexample. From the scale 1, 7448 steps forward reach
    infinity and 7448 steps back leave the scale there: the round trip
    does not return a number at all, whatever the tolerance. *)
Lemma zoom_round_trip_overflows : ~ zoomRoundTrip.
Proof.
  intros [tol H].
  destruct (H (S lastFinite) 1%float eq_refl) as [Hfin _].
  unfold roundTrip in Hfin. rewrite first_overflow, infinity_stays in Hfin.
  discriminate Hfin.
Qed.

End ZoomFacts.

(** * Further properties of the view *)

(** ** The loops of [parseDotFile] in closed form *)

Lemma split_nonempty sep s : QStr.split sep s <> [].
Proof.
  destruct s as [| c s]; simpl; [discriminate |].
  destruct (Ascii.eqb c sep); [discriminate |].
  destruct (QStr.split sep s); discriminate.
Qed.

Lemma textLines_twoLines (a b : string) :
  textLines (twoLines a b) = (textLines a ++ textLines b)%list.
Proof.
  unfold textLines, twoLines. induction a as [| c a IH].
  - reflexivity.
  - cbn [append QStr.split]. destruct (Ascii.eqb c QStr.newline).
    + rewrite IH. reflexivity.
    + rewrite IH. pose proof (split_nonempty QStr.newline a) as Hne.
      destruct (QStr.split QStr.newline a); [congruence | reflexivity].
Qed.

Lemma collect_app {A B : Type} (f : A -> option B) (l1 l2 : list A) :
  collect f (l1 ++ l2) = (collect f l1 ++ collect f l2)%list.
Proof.
  induction l1 as [| a l1 IH]; simpl; [reflexivity |].
  destruct (f a); simpl; rewrite IH; reflexivity.
Qed.

Lemma parseLoop_closed lines : forall g edges,
  fold_left parseLine lines (g, edges) =
  (declareAll (collect nodeDecl lines) g, (edges ++ collect edgeDecl lines)%list).
Proof.
  induction lines as [| line lines IH]; intros g edges.
  - simpl. rewrite app_nil_r. reflexivity.
  - cbn [fold_left collect].
    destruct (nodeDecl line) as [[id label] |] eqn:Hn.
    + rewrite (parseLine_node _ _ _ _ _ Hn), (edgeDecl_node _ _ Hn), IH. reflexivity.
    + rewrite (parseLine_other _ _ _ Hn).
      destruct (edgeDecl line) as [e |]; rewrite IH; [| reflexivity].
      rewrite <- app_assoc. reflexivity.
Qed.

Lemma parseDotFile_closed content g :
  parseDotFile content g =
  fitOrPlaceholder
    (createEdges (edgeDecls content)
       (layoutGraph (declareAll (nodeDecls content) (clear g)))).
Proof.
  unfold parseDotFile. fold (textLines content).
  rewrite parseLoop_closed. reflexivity.
Qed.

Lemma declareAll_tracks decls : forall acc g,
  tracks acc g -> tracks (fold_left remember decls acc) (declareAll decls g).
Proof.
  induction decls as [| [id label] decls IH]; intros acc g Ht; [exact Ht |].
  cbn [fold_left declareAll]. apply IH. apply createNode_tracks. assumption.
Qed.

Lemma declared_all_tracks content g :
  tracks (firstSeen (nodeDecls content)) (declareAll (nodeDecls content) (clear g)).
Proof. apply declareAll_tracks, tracks_clear. Qed.

Lemma nodeDecls_twoLines a b :
  nodeDecls (twoLines a b) = (nodeDecls a ++ nodeDecls b)%list.
Proof. unfold nodeDecls. rewrite textLines_twoLines. apply collect_app. Qed.

Lemma edgeDecls_twoLines a b :
  edgeDecls (twoLines a b) = (edgeDecls a ++ edgeDecls b)%list.
Proof. unfold edgeDecls. rewrite textLines_twoLines. apply collect_app. Qed.

Lemma edgeDecl_not_node line e : edgeDecl line = Some e -> nodeDecl line = None.
Proof.
  unfold edgeDecl, nodeDecl. destruct (rmatch nodeRegex line); [discriminate | reflexivity].
Qed.

Lemma createEdges_fields edges g :
  m_nodes (createEdges edges g) = m_nodes g /\
  m_placeholderText (createEdges edges g) = m_placeholderText g /\
  view_calls (createEdges edges g) = view_calls g.
Proof.
  unfold createEdges. destruct (createEdges_effect edges g) as (extra & -> & _).
  simpl. auto.
Qed.

Lemma createEdge_unresolved from to g :
  resolvable (m_nodes g) (from, to) = false -> createEdge from to g = g.
Proof.
  unfold resolvable, createEdge. simpl.
  destruct (QMap.mem from (m_nodes g)), (QMap.mem to (m_nodes g));
    simpl; intros H; try discriminate; reflexivity.
Qed.

Lemma createEdges_app e1 e2 g :
  createEdges (e1 ++ e2) g = createEdges e2 (createEdges e1 g).
Proof. unfold createEdges. apply fold_left_app. Qed.

(** ** Lines that leave no trace *)

(** X1. A line that neither pattern matches is skipped: wherever it stands
    in the text (between two parts, first or last), the parsed view is the
    one of the text without it. Blank lines, comments and the braces of a
    DOT file are of that kind. *)
Theorem unrecognised_line_ignored (before line after : string) (g : GraphView)
    (Hline : textLines line = [line])
    (Hnode : rmatch nodeRegex line = None)
    (Hedge : rmatch edgeRegex line = None) :
  parseDotFile (twoLines before (twoLines line after)) g =
    parseDotFile (twoLines before after) g /\
  parseDotFile (twoLines line after) g = parseDotFile after g /\
  parseDotFile (twoLines before line) g = parseDotFile before g.
Proof.
  assert (Hn : nodeDecls line = []).
  { unfold nodeDecls. rewrite Hline. simpl. unfold nodeDecl. rewrite Hnode. reflexivity. }
  assert (He : edgeDecls line = []).
  { unfold edgeDecls. rewrite Hline. simpl. unfold edgeDecl. rewrite Hnode, Hedge.
    reflexivity. }
  rewrite !parseDotFile_closed, !nodeDecls_twoLines, !edgeDecls_twoLines, Hn, He.
  rewrite !app_nil_r. simpl. auto.
Qed.

Lemma unrecognised_line_ignored_witness :
  parseDotFile (twoLines "digraph G {" (twoLines "  // nodes" scenarioA)) initialView =
  parseDotFile (twoLines "digraph G {" scenarioA) initialView.
Proof.
  apply (unrecognised_line_ignored "digraph G {" "  // nodes" scenarioA initialView);
    reflexivity.
Defined.

(** X2. An edge declaration with an endpoint that no line of the text
    declares is dropped without a trace: the parsed view is the one of the
    text without that line. *)
Theorem dangling_edge_ignored (before line after : string) (g : GraphView)
    (from to : string)
    (Hline : textLines line = [line])
    (Hedge : edgeDecl line = Some (from, to))
    (Hmissing : declared (nodeDecls (twoLines before after)) from = false \/
                declared (nodeDecls (twoLines before after)) to = false) :
  parseDotFile (twoLines before (twoLines line after)) g =
  parseDotFile (twoLines before after) g.
Proof.
  assert (Hn : nodeDecls line = []).
  { unfold nodeDecls. rewrite Hline. simpl.
    rewrite (edgeDecl_not_node _ _ Hedge). reflexivity. }
  assert (He : edgeDecls line = [(from, to)]).
  { unfold edgeDecls. rewrite Hline. simpl. rewrite Hedge. reflexivity. }
  rewrite !parseDotFile_closed, !nodeDecls_twoLines, !edgeDecls_twoLines, Hn, He.
  simpl app. rewrite <- nodeDecls_twoLines.
  set (g1 := layoutGraph (declareAll (nodeDecls (twoLines before after)) (clear g))).
  rewrite !createEdges_app. f_equal.
  change (createEdges ((from, to) :: edgeDecls after) (createEdges (edgeDecls before) g1))
    with (createEdges (edgeDecls after)
            (createEdge from to (createEdges (edgeDecls before) g1))).
  rewrite createEdge_unresolved; [reflexivity |].
  destruct (createEdges_fields (edgeDecls before) g1) as (-> & _).
  unfold g1. rewrite layoutGraph_eq. simpl.
  rewrite (tracks_resolvable _ _ (nodeDecls (twoLines before after)) (from, to)
             (declared_all_tracks _ g) eq_refl).
  simpl. destruct Hmissing as [-> | ->]; [reflexivity | apply andb_false_r].
Qed.

Lemma dangling_edge_ignored_witness :
  parseDotFile (twoLines scenarioA (twoLines (QStr.dq "'a' -> 'ghost';")
                                             (QStr.dq "'b' -> 'a';"))) initialView =
  parseDotFile (twoLines scenarioA (QStr.dq "'b' -> 'a';")) initialView.
Proof.
  apply (dangling_edge_ignored scenarioA (QStr.dq "'a' -> 'ghost';")
           (QStr.dq "'b' -> 'a';") initialView "a" "ghost").
  - reflexivity.
  - reflexivity.
  - right. reflexivity.
Defined.

(** ** The items of a parsed scene *)

Lemma posOf_extended g extra id :
  handlesValid g -> QMap.mem id (m_nodes g) = true ->
  posOf (mkGraphView (m_scene g ++ extra) (m_nodes g) (m_placeholderText g)
                     (view_calls g)) id = posOf g id.
Proof.
  intros Hv Hmem. unfold posOf, nodeAt, itemPos. simpl.
  rewrite QMapFacts.mem_find_b in Hmem.
  destruct (QMap.find id (m_nodes g)) as [h |] eqn:Hf; [| discriminate].
  rewrite nth_error_app1 by (eapply Hv; eassumption). reflexivity.
Qed.

Lemma edgeItems_extended g extra edges :
  handlesValid g ->
  flat_map (edgeItems (mkGraphView (m_scene g ++ extra) (m_nodes g)
                                   (m_placeholderText g) (view_calls g)))
           (filter (resolvable (m_nodes g)) edges) =
  flat_map (edgeItems g) (filter (resolvable (m_nodes g)) edges).
Proof.
  intros Hv. induction edges as [| e edges IH]; simpl; [reflexivity |].
  destruct (resolvable (m_nodes g) e) eqn:Hr; [| exact IH].
  cbn [flat_map]. rewrite IH. f_equal.
  unfold resolvable in Hr. apply andb_prop in Hr. destruct Hr as [Hf Ht].
  unfold edgeItems. rewrite !posOf_extended by assumption. reflexivity.
Qed.

Lemma createEdge_items from to g :
  createEdge from to g =
  mkGraphView (m_scene g ++ (if resolvable (m_nodes g) (from, to)
                             then edgeItems g (from, to) else []))
              (m_nodes g) (m_placeholderText g) (view_calls g).
Proof.
  unfold createEdge, resolvable. simpl.
  destruct (QMap.mem from (m_nodes g)), (QMap.mem to (m_nodes g)); simpl;
    try (rewrite app_nil_r; destruct g; reflexivity).
  reflexivity.
Qed.

Lemma createEdges_items edges : forall g,
  handlesValid g ->
  createEdges edges g =
  mkGraphView (m_scene g ++ flat_map (edgeItems g) (filter (resolvable (m_nodes g)) edges))
              (m_nodes g) (m_placeholderText g) (view_calls g).
Proof.
  induction edges as [| [from to] edges IH]; intros g Hv.
  - simpl. rewrite app_nil_r. destruct g; reflexivity.
  - change (createEdges ((from, to) :: edges) g)
      with (createEdges edges (createEdge from to g)).
    rewrite createEdge_items.
    set (x := if resolvable (m_nodes g) (from, to) then edgeItems g (from, to) else []).
    rewrite IH.
    + cbn [m_scene m_nodes m_placeholderText view_calls].
      rewrite (edgeItems_extended g x edges Hv), <- app_assoc. f_equal. f_equal.
      cbn [filter]. unfold x. destruct (resolvable (m_nodes g) (from, to)); reflexivity.
    + intros id h Hf. simpl in *. rewrite length_app. apply Hv in Hf. lia.
Qed.

Lemma tracks_handlesValid acc g : tracks acc g -> handlesValid (layoutGraph g).
Proof.
  intros (Hs & Hmap & _) id h Hf. rewrite layoutGraph_eq in *. simpl in *.
  rewrite placeAll_length, Hs, length_map.
  apply Hmap in Hf. rewrite <- (length_map fst). apply nth_error_Some. congruence.
Qed.

Lemma parsed_resolvable content g e :
  resolvable (m_nodes (declareAll (nodeDecls content) (clear g))) e =
  declared (nodeDecls content) (fst e) && declared (nodeDecls content) (snd e).
Proof.
  apply (tracks_resolvable _ _ _ _ (declared_all_tracks content g) eq_refl).
Qed.

(** X3. The scene of a text with at least one node declaration is made of
    one ellipse per node, followed, for each edge declaration whose two
    endpoints are declared and in the order of the text, by a segment from
    the bottom centre of the box of the source to the top centre of the box
    of the destination and by its arrowhead on the same two points. A
    repeated edge gives repeated items. *)
Theorem scene_of_nodes_then_edges (content : string) (g : GraphView)
    (Hnodes : nodeDecls content <> []) :
  exists nodes,
    m_scene (parseDotFile content g) =
      (nodes ++
       flat_map (edgeItems (parseDotFile content g))
                (filter (fun e => declared (nodeDecls content) (fst e) &&
                                  declared (nodeDecls content) (snd e))
                        (edgeDecls content)))%list /\
    forallb isEllipse nodes = true /\
    List.length nodes = nodeCount (parseDotFile content g).
Proof.
  pose proof (declared_all_tracks content g) as Ht.
  set (g1 := declareAll (nodeDecls content) (clear g)) in *.
  pose proof (tracks_handlesValid _ _ Ht) as Hv.
  assert (He : QMap.is_empty (m_nodes g1) = false).
  { destruct (QMap.is_empty (m_nodes g1)) eqn:He; [| reflexivity].
    exfalso. apply Hnodes. apply firstSeen_nil.
    apply (tracks_is_empty _ _ Ht). exact He. }
  rewrite parseDotFile_closed. fold g1.
  rewrite (createEdges_items _ _ Hv). unfold fitOrPlaceholder.
  rewrite layoutGraph_eq. cbn [m_scene m_nodes m_placeholderText view_calls].
  rewrite He. cbn [negb].
  set (nodes := placeAll (placements 0 (QMap.elements (m_nodes g1))) (m_scene g1)).
  set (laid := mkGraphView nodes (m_nodes g1) (m_placeholderText g1) (view_calls g1)).
  exists nodes. cbn [m_scene].
  rewrite (filter_ext _ _ (parsed_resolvable content g)).
  split; [| split].
  - f_equal.
    set (es := filter _ (edgeDecls content)).
    assert (Hes : es = filter (resolvable (m_nodes laid)) (edgeDecls content)).
    { unfold es. apply filter_ext. intros e. symmetry.
      apply (parsed_resolvable content g). }
    rewrite Hes.
    assert (Hvl : handlesValid laid).
    { unfold laid, nodes. rewrite <- layoutGraph_eq. exact Hv. }
    symmetry.
    apply (edgeItems_extended laid
             (flat_map (edgeItems laid)
                       (filter (resolvable (m_nodes laid)) (edgeDecls content)))
             (edgeDecls content) Hvl).
  - apply forallb_forall. intros it Hin. unfold nodes in Hin.
    destruct Ht as (Hs & _). rewrite Hs in Hin.
    apply placed_nodes_are_ellipses in Hin. exact Hin.
  - unfold nodes, nodeCount. cbn [m_nodes].
    rewrite placeAll_length. destruct Ht as (Hs & Hrest).
    rewrite Hs, length_map.
    rewrite (tracks_cardinal _ _ (conj Hs Hrest)).
    destruct Hrest as (_ & Hnd & _).
    rewrite <- (length_map fst). symmetry.
    apply nodup_same_length; [apply NoDup_nodup | assumption |].
    intros x. apply nodup_In.
Qed.

Lemma scene_of_nodes_then_edges_witness :
  exists nodes,
    m_scene (parseDotFile forwardEdges initialView) =
      (nodes ++
       flat_map (edgeItems (parseDotFile forwardEdges initialView))
                (filter (fun e => declared (nodeDecls forwardEdges) (fst e) &&
                                  declared (nodeDecls forwardEdges) (snd e))
                        (edgeDecls forwardEdges)))%list /\
    forallb isEllipse nodes = true /\
    List.length nodes = nodeCount (parseDotFile forwardEdges initialView).
Proof.
  apply (scene_of_nodes_then_edges forwardEdges initialView). discriminate.
Defined.

(** ** Where the nodes are *)

Lemma rankIn_nth (l : list (string * nat)) :
  NoDup (map fst l) ->
  forall id k, rankIn id l = Some k <-> exists h, nth_error l k = Some (id, h).
Proof.
  induction l as [| [key h0] l IH]; intros Hnd id k.
  - simpl. split; [discriminate | intros [h Hh]; destruct k; discriminate].
  - inversion Hnd as [| x l' Hnotin Hnd']; subst. cbn [rankIn].
    destruct (String.eqb_spec id key) as [-> | Hne].
    + split.
      * intros H. injection H as <-. exists h0. reflexivity.
      * intros [h Hh]. destruct k as [| k]; [reflexivity |]. simpl in Hh.
        exfalso. apply Hnotin. apply nth_error_In in Hh.
        apply (in_map fst) in Hh. exact Hh.
    + split.
      * destruct (rankIn id l) as [r |] eqn:Hr; [| discriminate].
        intros H. injection H as <-.
        destruct (proj1 (IH Hnd' id r) Hr) as [h Hh]. exists h. exact Hh.
      * intros [h Hh]. destruct k as [| k]; simpl in Hh.
        -- injection Hh as -> _. congruence.
        -- rewrite (proj2 (IH Hnd' id k) (ex_intro _ h Hh)). reflexivity.
Qed.

Lemma rankIn_keys (l1 l2 : list (string * nat)) id :
  map fst l1 = map fst l2 -> rankIn id l1 = rankIn id l2.
Proof.
  revert l2. induction l1 as [| [k1 h1] l1 IH]; intros [| [k2 h2] l2] H;
    try discriminate; [reflexivity |].
  simpl in H. injection H as -> H. simpl. rewrite (IH l2 H). reflexivity.
Qed.

Lemma rankIn_bound (l : list (string * nat)) id k :
  rankIn id l = Some k -> k < List.length l.
Proof.
  revert k. induction l as [| [key h] l IH]; intros k; simpl; [discriminate |].
  destruct (String.eqb id key).
  - intros H. injection H as <-. lia.
  - destruct (rankIn id l) as [r |]; [| discriminate].
    intros H. injection H as <-. specialize (IH r eq_refl). lia.
Qed.

Lemma rankIn_injective (l : list (string * nat)) id1 id2 k :
  rankIn id1 l = Some k -> rankIn id2 l = Some k -> id1 = id2.
Proof.
  revert k. induction l as [| [key h] l IH]; intros k; simpl; [discriminate |].
  destruct (String.eqb_spec id1 key) as [-> | H1], (String.eqb_spec id2 key) as [-> | H2].
  - reflexivity.
  - intros Ha Hb. injection Ha as <-.
    destruct (rankIn id2 l); [injection Hb as Hb; discriminate | discriminate].
  - intros Ha Hb. injection Hb as <-.
    destruct (rankIn id1 l); [injection Ha as Ha; discriminate | discriminate].
  - destruct (rankIn id1 l) as [r1 |] eqn:Hr1; [| discriminate].
    destruct (rankIn id2 l) as [r2 |] eqn:Hr2; [| discriminate].
    intros Ha Hb. injection Ha as <-. injection Hb as Hb.
    apply (IH r1); [reflexivity | congruence].
Qed.

Lemma parsed_pos_slot content g id :
  nodePos (parseDotFile content g) id =
  option_map cell (layoutSlot (parseDotFile content g) id).
Proof.
  destruct (nodeDecls content) as [| d decls] eqn:Hdecls.
  - rewrite (parseDotFile_empty content g Hdecls). unfold nodePos, layoutSlot.
    cbn [m_nodes]. rewrite QMapFacts.empty_o. reflexivity.
  - assert (Hne : nodeDecls content <> []) by (rewrite Hdecls; discriminate).
    destruct (parseDotFile_graph content g Hne) as (g1 & extra & Ht & -> & _).
    unfold nodePos, layoutSlot. cbn [m_nodes m_scene].
    pose proof (rankIn_nth _ (elements_keys_nodup (m_nodes g1)) id) as Hrank.
    destruct (QMap.find id (m_nodes g1)) as [h |] eqn:Hf.
    + pose proof Hf as Hel. apply elements_find, In_nth_error in Hel.
      destruct Hel as [k Hk].
      rewrite (proj2 (Hrank k) (ex_intro _ h Hk)). simpl. f_equal.
      destruct (tracks_handle _ _ _ _ Ht Hf) as [label Hh].
      unfold itemPos. rewrite (placed_item _ _ _ _ _ _ extra Ht Hk Hh). reflexivity.
    + destruct (rankIn id (QMap.elements (m_nodes g1))) as [k |] eqn:Hr; [| reflexivity].
      destruct (proj1 (Hrank k) eq_refl) as [h Hh].
      apply nth_error_In, elements_find in Hh. congruence.
Qed.

Lemma cells_apart (j k : nat) : j <> k -> boxesApart (cell j) (cell k).
Proof.
  intros Hne. unfold boxesApart, cell, NODE_WIDTH, NODE_HEIGHT,
    NODE_SPACING_X, NODE_SPACING_Y. simpl fst; simpl snd.
  assert (Hz : Z.of_nat j <> Z.of_nat k) by lia.
  pose proof (Z.div_mod (Z.of_nat j) 5 ltac:(lia)) as Hj.
  pose proof (Z.div_mod (Z.of_nat k) 5 ltac:(lia)) as Hk.
  pose proof (Z.mod_pos_bound (Z.of_nat j) 5 ltac:(lia)).
  pose proof (Z.mod_pos_bound (Z.of_nat k) 5 ltac:(lia)).
  lia.
Qed.

(** X4. No two nodes of a parsed graph overlap: the boxes of two
    different identifiers, 150 wide and 40 high at their positions, lie
    side by side or one above the other. *)
Theorem nodes_never_overlap (content : string) (g : GraphView)
    (id1 id2 : string) (p1 p2 : point)
    (Hdiff : id1 <> id2)
    (H1 : nodePos (parseDotFile content g) id1 = Some p1)
    (H2 : nodePos (parseDotFile content g) id2 = Some p2) :
  boxesApart p1 p2.
Proof.
  rewrite parsed_pos_slot in H1, H2.
  destruct (layoutSlot (parseDotFile content g) id1) as [k1 |] eqn:Hk1; [| discriminate].
  destruct (layoutSlot (parseDotFile content g) id2) as [k2 |] eqn:Hk2; [| discriminate].
  simpl in H1, H2. injection H1 as <-. injection H2 as <-.
  apply cells_apart. intros ->. apply Hdiff.
  eapply rankIn_injective; eassumption.
Qed.

Lemma nodes_never_overlap_witness :
  boxesApart (0, 0)%Z (200, 0)%Z.
Proof.
  apply (nodes_never_overlap scenarioA initialView "a" "b"); [discriminate | |];
    reflexivity.
Defined.

(** X5. The grid is five columns wide and has no gap: the node of a
    parsed graph with [n] nodes is at [(200 * c, 80 * r)] for a column
    [0 <= c < 5] and a row [r >= 0] with [5 * r + c < n], so the rows are
    filled from the top and only the last one may be short. *)
Theorem layout_within_grid (content : string) (g : GraphView)
    (id : string) (p : point)
    (Hpos : nodePos (parseDotFile content g) id = Some p) :
  exists c r : Z,
    p = (200 * c, 80 * r)%Z /\
    (0 <= c < 5)%Z /\ (0 <= r)%Z /\
    (5 * r + c < Z.of_nat (nodeCount (parseDotFile content g)))%Z.
Proof.
  rewrite parsed_pos_slot in Hpos.
  destruct (layoutSlot (parseDotFile content g) id) as [k |] eqn:Hk; [| discriminate].
  simpl in Hpos. injection Hpos as <-.
  apply rankIn_bound in Hk. unfold nodeCount. rewrite QMap.cardinal_1.
  exists (Z.of_nat k mod 5)%Z, (Z.of_nat k / 5)%Z.
  pose proof (Z.div_mod (Z.of_nat k) 5 ltac:(lia)).
  pose proof (Z.mod_pos_bound (Z.of_nat k) 5 ltac:(lia)).
  assert (0 <= Z.of_nat k / 5)%Z by (apply Z.div_pos; lia).
  unfold cell, NODE_SPACING_X, NODE_SPACING_Y.
  split; [f_equal; lia |]. split; [lia |]. split; [lia |].
  apply Nat2Z.inj_lt in Hk. rewrite H in Hk. exact Hk.
Qed.

Lemma layout_within_grid_witness :
  exists c r : Z,
    (200, 0)%Z = (200 * c, 80 * r)%Z /\
    (0 <= c < 5)%Z /\ (0 <= r)%Z /\
    (5 * r + c < Z.of_nat (nodeCount (parseDotFile scenarioA initialView)))%Z.
Proof.
  apply (layout_within_grid scenarioA initialView "b"). reflexivity.
Defined.

Lemma keys_sorted (m : QMap.t nat) :
  Sorted.StronglySorted String_as_OT.lt (map fst (QMap.elements m)).
Proof.
  pose proof (QMap.elements_3 m) as Hs.
  apply Sorted.Sorted_StronglySorted in Hs; [| exact lt_key_trans].
  induction Hs as [| a l Hs IH Hall]; simpl; constructor; [assumption |].
  rewrite Forall_forall in *. intros x Hx. apply in_map_iff in Hx.
  destruct Hx as [e [<- He]]. apply (Hall e He).
Qed.

Lemma string_lt_irrefl (x : string) : ~ String_as_OT.lt x x.
Proof. intros H. exact (String_as_OT.lt_not_eq H eq_refl). Qed.

Lemma strongly_sorted_unique : forall l1 l2 : list string,
  Sorted.StronglySorted String_as_OT.lt l1 ->
  Sorted.StronglySorted String_as_OT.lt l2 ->
  (forall x, In x l1 <-> In x l2) -> l1 = l2.
Proof.
  induction l1 as [| a l1 IH]; intros [| b l2] H1 H2 Hiff.
  - reflexivity.
  - exfalso. apply (proj2 (Hiff b)). left. reflexivity.
  - exfalso. apply (proj1 (Hiff a)). left. reflexivity.
  - inversion H1 as [| ? ? Hs1 Ha]; subst. inversion H2 as [| ? ? Hs2 Hb]; subst.
    rewrite Forall_forall in Ha, Hb.
    assert (Hab : a = b).
    { destruct (proj1 (Hiff a) (or_introl eq_refl)) as [Heq | Hin]; [congruence |].
      destruct (proj2 (Hiff b) (or_introl eq_refl)) as [Heq | Hin']; [congruence |].
      exfalso. apply (string_lt_irrefl a).
      exact (String_as_OT.lt_trans (Ha b Hin') (Hb a Hin)). }
    subst b. f_equal. apply IH; try assumption.
    intros x. split; intros Hx.
    + destruct (proj1 (Hiff x) (or_intror Hx)) as [Heq | Hin]; [| assumption].
      subst x. exfalso. apply (string_lt_irrefl a), Ha. assumption.
    + destruct (proj2 (Hiff x) (or_intror Hx)) as [Heq | Hin]; [| assumption].
      subst x. exfalso. apply (string_lt_irrefl a), Hb. assumption.
Qed.

Lemma parsed_keys content g id :
  In id (map fst (QMap.elements (m_nodes (parseDotFile content g)))) <->
  In id (map fst (nodeDecls content)).
Proof.
  destruct (nodeDecls content) as [| d decls] eqn:Hdecls.
  - rewrite (parseDotFile_empty content g Hdecls). simpl. tauto.
  - assert (Hne : nodeDecls content <> []) by (rewrite Hdecls; discriminate).
    destruct (parseDotFile_graph content g Hne) as (g1 & extra & Ht & -> & _).
    cbn [m_nodes]. rewrite (tracks_keys _ _ id Ht), firstSeen_ids, Hdecls. tauto.
Qed.

(** X6. The place of a node depends on the set of declared identifiers
    only: two texts that declare the same identifiers, in whatever order
    and with whatever labels, edges and other lines, put every node at the
    same position. *)
Theorem layout_independent_of_order (content1 content2 : string)
    (g1 g2 : GraphView) (id : string)
    (Hsame : forall x, In x (map fst (nodeDecls content1)) <->
                       In x (map fst (nodeDecls content2))) :
  nodePos (parseDotFile content1 g1) id = nodePos (parseDotFile content2 g2) id.
Proof.
  rewrite !parsed_pos_slot. f_equal. unfold layoutSlot. apply rankIn_keys.
  apply strongly_sorted_unique; try apply keys_sorted.
  intros x. rewrite !parsed_keys. apply Hsame.
Qed.

Lemma layout_independent_of_order_witness :
  nodePos (parseDotFile scenarioA initialView) "b" =
  nodePos (parseDotFile forwardEdges (clear initialView)) "b".
Proof.
  apply (layout_independent_of_order scenarioA forwardEdges).
  intros x.
  change (nodeDecls scenarioA) with [("a", "main"); ("b", "helper")].
  change (nodeDecls forwardEdges) with [("b", "helper"); ("a", "main")].
  simpl. tauto.
Defined.

(** X7. A text with at least one node declaration leaves the view in graph
    state and makes three calls on it, once each and in this order: the
    scene rectangle with a margin of 50, the fit of the content, the scale
    by 0.9. *)
Theorem graph_fitted_once (content : string) (g : GraphView)
    (Hnodes : nodeDecls content <> []) :
  graphState (parseDotFile content g) /\
  view_calls (parseDotFile content g) =
    (view_calls g ++ [VSetSceneRect 50; VFitInView; VScale 9 10])%list.
Proof.
  split.
  - destruct (parseDotFile_state content g) as [Hp | Hg]; [| exact Hg].
    exfalso. destruct Hp as (He & _).
    destruct (parseDotFile_graph content g Hnodes) as (g1 & extra & _ & Heq & Hne & _).
    rewrite Heq in He. simpl in He. congruence.
  - destruct (parseDotFile_graph content g Hnodes) as (g1 & extra & _ & -> & _).
    reflexivity.
Qed.

Lemma graph_fitted_once_witness :
  graphState (parseDotFile scenarioA initialView) /\
  view_calls (parseDotFile scenarioA initialView) =
    (view_calls initialView ++ [VSetSceneRect 50; VFitInView; VScale 9 10])%list.
Proof.
  apply (graph_fitted_once scenarioA initialView). discriminate.
Defined.

(** ** What the two patterns accept *)

Lemma pushAll_closed (s : string) (cl : list string) :
  pushAll s (mkCaps cl None) = mkCaps cl None.
Proof. induction s as [| c s IH]; [reflexivity | exact IH]. Qed.

Lemma repeat_sound p k : forall s ok st r,
  repeat_class p k ok s st = Some r ->
  exists s1 s2,
    s = s1 ++ s2 /\ allChars p s1 = true /\ (ok = true \/ s1 <> "") /\
    k s2 (pushAll s1 st) = Some r.
Proof.
  induction s as [| c s IH]; intros ok st r H.
  - cbn [repeat_class] in H. destruct ok; [| discriminate].
    exists "", "". repeat split; auto.
  - cbn [repeat_class] in H.
    assert (Hstop : (if ok then k (String c s) st else None) = Some r ->
                    exists s1 s2,
                      String c s = s1 ++ s2 /\ allChars p s1 = true /\
                      (ok = true \/ s1 <> "") /\ k s2 (pushAll s1 st) = Some r).
    { destruct ok; [| discriminate]. intros Hk. exists "", (String c s).
      repeat split; auto. }
    destruct (p c) eqn:Hp; [| auto].
    destruct (repeat_class p k true s (push c st)) as [r' |] eqn:Hrec; [| auto].
    injection H as ->.
    destruct (IH true (push c st) r Hrec) as (s1 & s2 & -> & Hall & _ & Hk).
    exists (String c s1), s2. simpl. rewrite Hp, Hall.
    repeat split; auto. right. discriminate.
Qed.

Lemma one_sound p rest s st r :
  match_here (One p :: rest) s st = Some r ->
  exists c s', s = String c s' /\ p c = true /\ match_here rest s' (push c st) = Some r.
Proof.
  destruct s as [| c s']; [discriminate |]. rewrite match_here_one.
  destruct (p c) eqn:Hp; [| discriminate]. intros H. exists c, s'. auto.
Qed.

Lemma lit_sound (l : string) (rest : pattern) : forall s cl r,
  match_here (lit l ++ rest)%list s (mkCaps cl None) = Some r ->
  exists s', s = l ++ s' /\ match_here rest s' (mkCaps cl None) = Some r.
Proof.
  induction l as [| c l IH]; intros s cl r H.
  - exists s. auto.
  - cbn [lit app] in H. apply one_sound in H.
    destruct H as (c' & s1 & -> & Hc & H). apply Ascii.eqb_eq in Hc. subst c'.
    rewrite push_closed in H. destruct (IH _ _ _ H) as (s' & -> & H').
    exists s'. auto.
Qed.

Lemma star_sound p rest s cl r :
  match_here (Star p :: rest) s (mkCaps cl None) = Some r ->
  exists ws s',
    s = ws ++ s' /\ allChars p ws = true /\
    match_here rest s' (mkCaps cl None) = Some r.
Proof.
  rewrite match_here_star. intros H.
  destruct (repeat_sound _ _ _ _ _ _ H) as (ws & s' & -> & Hall & _ & Hk).
  rewrite pushAll_closed in Hk. exists ws, s'. auto.
Qed.

Lemma group_sound (rest : pattern) s cl r :
  match_here (quote :: GOpen :: Plus not_quote :: GClose :: quote :: rest)
             s (mkCaps cl None) = Some r ->
  exists t s',
    s = quoted t s' /\ plain t /\ match_here rest s' (mkCaps (t :: cl) None) = Some r.
Proof.
  intros H. unfold quote at 1 in H. apply one_sound in H.
  destruct H as (c & s1 & -> & Hc & H). apply Ascii.eqb_eq in Hc. subst c.
  rewrite push_closed, match_here_open, match_here_plus in H.
  destruct (repeat_sound _ _ _ _ _ _ H) as (t & s2 & -> & Hall & Hne & Hk).
  destruct Hne as [Hf | Hne]; [discriminate |].
  rewrite match_here_close in Hk. unfold open_group in Hk. cbn [closed] in Hk.
  rewrite close_pushAll in Hk. cbn [rev string_of_list_ascii append] in Hk.
  unfold quote in Hk. apply one_sound in Hk.
  destruct Hk as (c & s' & -> & Hc & Hk). apply Ascii.eqb_eq in Hc. subst c.
  rewrite push_closed in Hk. exists t, s'. repeat split; auto.
Qed.

Lemma rmatch_sound pat : forall s r,
  rmatch pat s = Some r ->
  exists pre s', s = pre ++ s' /\ match_here pat s' caps0 = Some r.
Proof.
  induction s as [| c s IH]; intros r H; rewrite rmatch_eq in H.
  - destruct (match_here pat "" caps0) eqn:Hm; [| discriminate].
    injection H as ->. exists "", "". auto.
  - destruct (match_here pat (String c s) caps0) eqn:Hm.
    + injection H as ->. exists "", (String c s). auto.
    + destruct (IH r H) as (pre & s' & -> & Hs). exists (String c pre), s'. auto.
Qed.

Lemma nodeRegex_sound s r :
  match_here nodeRegex s caps0 = Some r ->
  exists id ws label post,
    s = nodeShape id ws label post /\ r = [id; label] /\
    plain id /\ plain label /\ allChars space ws = true.
Proof.
  rewrite nodeRegex_eq. unfold caps0. intros H.
  destruct (group_sound _ _ _ _ H) as (id & s1 & -> & Hid & H1).
  unfold nodeTail in H1.
  destruct (star_sound _ _ _ _ _ H1) as (ws & s2 & -> & Hws & H2).
  destruct (lit_sound "[label=" _ _ _ _ H2) as (s3 & -> & H3).
  change ([quote; GOpen; Plus not_quote; GClose; quote] ++ lit "]")%list
    with (quote :: GOpen :: Plus not_quote :: GClose :: quote :: (lit "]" ++ []))%list
    in H3.
  destruct (group_sound _ _ _ _ H3) as (label & s4 & -> & Hlabel & H4).
  destruct (lit_sound "]" _ _ _ _ H4) as (post & -> & H5).
  cbn [match_here closed rev app] in H5. injection H5 as <-.
  exists id, ws, label, post. repeat split; auto; try apply Hid; try apply Hlabel.
Qed.

Lemma edgeRegex_sound s r :
  match_here edgeRegex s caps0 = Some r ->
  exists from ws1 ws2 to post,
    s = edgeShape from ws1 ws2 to post /\ r = [from; to] /\
    plain from /\ plain to /\ allChars space ws1 = true /\ allChars space ws2 = true.
Proof.
  rewrite edgeRegex_eq. unfold caps0. intros H.
  destruct (group_sound _ _ _ _ H) as (from & s1 & -> & Hfrom & H1).
  unfold edgeTail in H1.
  destruct (star_sound _ _ _ _ _ H1) as (ws1 & s2 & -> & Hws1 & H2).
  destruct (lit_sound "->" _ _ _ _ H2) as (s3 & -> & H3).
  destruct (star_sound _ _ _ _ _ H3) as (ws2 & s4 & -> & Hws2 & H4).
  destruct (group_sound _ _ _ _ H4) as (to & post & -> & Hto & H5).
  cbn [match_here closed rev app] in H5. injection H5 as <-.
  exists from, ws1, ws2, to, post.
  repeat split; auto; try apply Hfrom; try apply Hto.
Qed.

Lemma allChars_app p (a b : string) :
  allChars p (a ++ b) = allChars p a && allChars p b.
Proof.
  induction a as [| c a IH]; simpl; [reflexivity |].
  rewrite IH, andb_assoc. reflexivity.
Qed.

Lemma rmatch_skip_quote (rest : pattern) (s r : string) :
  allChars not_quote s = true ->
  rmatch (quote :: rest) (s ++ r) = rmatch (quote :: rest) r.
Proof.
  induction s as [| c s IH]; intros Hs; [reflexivity |].
  simpl in Hs. apply andb_prop in Hs. destruct Hs as [Hc Hs].
  cbn [append]. rewrite rmatch_eq. unfold quote at 1. rewrite match_here_one.
  unfold not_quote in Hc. rewrite Ascii.eqb_sym.
  destruct (Ascii.eqb c QStr.dquote); [discriminate |]. apply IH. assumption.
Qed.

Lemma star_space_exact (q0 : ascii -> bool) (rest : pattern) (c : ascii)
    (s : string) (cl : list string) :
  (forall x, space x = true -> q0 x = false) -> space c = false ->
  forall ws, allChars space ws = true ->
  match_here (Star space :: One q0 :: rest) (ws ++ String c s) (mkCaps cl None) =
  match_here (One q0 :: rest) (String c s) (mkCaps cl None).
Proof.
  intros Hq Hc ws. rewrite match_here_star.
  induction ws as [| x ws IH]; intros Hws.
  - cbn [append]. apply star_stop. assumption.
  - simpl in Hws. apply andb_prop in Hws. destruct Hws as [Hx Hws].
    cbn [append]. rewrite (star_step _ _ _ _ _ Hx), push_closed, (IH Hws).
    rewrite (match_here_one q0 rest x), (Hq x Hx).
    destruct (match_here (One q0 :: rest) (String c s) (mkCaps cl None)); reflexivity.
Qed.

Lemma space_not_char (c0 : ascii) :
  space c0 = false -> forall x, space x = true -> Ascii.eqb c0 x = false.
Proof.
  intros H0 x Hx. destruct (Ascii.eqb_spec c0 x) as [-> | Hne]; [congruence | reflexivity].
Qed.

Lemma nodeTail_accepts (ws label post : string) (cl : list string) :
  allChars space ws = true -> plain label ->
  match_here nodeTail (ws ++ "[label=" ++ quoted label ("]" ++ post))
             (mkCaps cl None) = Some (rev (label :: cl)).
Proof.
  intros Hws Hlabel. unfold nodeTail. cbn [lit app].
  change ("[label=" ++ quoted label ("]" ++ post))
    with (String "[" ("label=" ++ quoted label ("]" ++ post))).
  rewrite (star_space_exact _ _ "["%char _ _ (space_not_char "["%char eq_refl) eq_refl ws Hws).
  cbn [append].
  do 7 (rewrite match_here_one, Ascii.eqb_refl, push_closed).
  unfold quoted. rewrite (group_then_quote _ _ _ _ Hlabel).
  rewrite match_here_one, Ascii.eqb_refl, push_closed. reflexivity.
Qed.

Lemma edgeTail_accepts (ws1 ws2 to post : string) (cl : list string) :
  allChars space ws1 = true -> allChars space ws2 = true -> plain to ->
  match_here edgeTail (ws1 ++ "->" ++ ws2 ++ quoted to post)
             (mkCaps cl None) = Some (rev (to :: cl)).
Proof.
  intros Hws1 Hws2 Hto. unfold edgeTail. cbn [lit app].
  change ("->" ++ ws2 ++ quoted to post)
    with (String "-" (">" ++ ws2 ++ quoted to post)).
  rewrite (star_space_exact _ _ "-"%char _ _ (space_not_char "-"%char eq_refl) eq_refl ws1 Hws1).
  cbn [append].
  do 2 (rewrite match_here_one, Ascii.eqb_refl, push_closed).
  unfold quoted at 1.
  rewrite (star_space_exact _ _ QStr.dquote _ _ (space_not_char QStr.dquote eq_refl)
             eq_refl ws2 Hws2).
  change (One (Ascii.eqb QStr.dquote)) with quote.
  rewrite (group_then_quote _ _ _ _ Hto). reflexivity.
Qed.

(** X8. What the node pattern accepts: a line is a node declaration with
    identifier [id] and label [label] only if it holds, after any prefix,
    the quoted identifier, white space, the text [[label=], the quoted
    label and a closing bracket; the identifier and the label are not
    empty and hold no double quote. *)
Theorem node_declaration_shape (line id label : string)
    (Hdecl : nodeDecl line = Some (id, label)) :
  exists pre ws post,
    line = pre ++ nodeShape id ws label post /\
    plain id /\ plain label /\ allChars space ws = true.
Proof.
  unfold nodeDecl in Hdecl.
  destruct (rmatch nodeRegex line) as [m |] eqn:Hm; [| discriminate].
  destruct (rmatch_sound _ _ _ Hm) as (pre & s' & -> & Hs).
  destruct (nodeRegex_sound _ _ Hs) as (id' & ws & label' & post & Hs' & Hr & Hi & Hl & Hw).
  subst s' m. simpl in Hdecl. injection Hdecl as <- <-.
  exists pre, ws, post. auto.
Qed.

Lemma node_declaration_shape_witness :
  exists pre ws post,
    QStr.dq "  'f' [label='main'];" = pre ++ nodeShape "f" ws "main" post /\
    plain "f" /\ plain "main" /\ allChars space ws = true.
Proof.
  apply (node_declaration_shape (QStr.dq "  'f' [label='main'];") "f" "main").
  reflexivity.
Defined.

(** X9. Writing a node statement and reading it back: after a prefix
    without double quote (an indentation, say), the quoted identifier,
    any white space, the label attribute and any trailing text are read as
    the node declaration with that identifier and that label. *)
Theorem node_statement_round_trip (pre id ws label post : string)
    (Hpre : allChars not_quote pre = true)
    (Hid : plain id) (Hlabel : plain label)
    (Hws : allChars space ws = true) :
  nodeDecl (pre ++ nodeShape id ws label post) = Some (id, label).
Proof.
  unfold nodeDecl. rewrite nodeRegex_eq, (rmatch_skip_quote _ _ _ Hpre).
  rewrite rmatch_eq. unfold caps0, nodeShape, quoted at 1.
  rewrite (group_then_quote _ _ _ _ Hid), (nodeTail_accepts _ _ _ _ Hws Hlabel).
  reflexivity.
Qed.

Lemma node_statement_round_trip_witness :
  nodeDecl ("    " ++ nodeShape "crate::main" " " "main" ";") = Some ("crate::main", "main").
Proof.
  apply (node_statement_round_trip "    " "crate::main" " " "main" ";");
    try (split; [discriminate | reflexivity]); reflexivity.
Defined.

(** X10. What the edge pattern accepts: a line is an edge declaration from
    [from] to [to] only if the node pattern does not match it and it
    holds, after any prefix, the quoted [from], white space, an arrow,
    white space and the quoted [to]; both identifiers are not empty and
    hold no double quote. *)
Theorem edge_declaration_shape (line from to : string)
    (Hdecl : edgeDecl line = Some (from, to)) :
  rmatch nodeRegex line = None /\
  exists pre ws1 ws2 post,
    line = pre ++ edgeShape from ws1 ws2 to post /\
    plain from /\ plain to /\
    allChars space ws1 = true /\ allChars space ws2 = true.
Proof.
  unfold edgeDecl in Hdecl.
  destruct (rmatch nodeRegex line) as [m |] eqn:Hn; [discriminate |].
  split; [reflexivity |].
  destruct (rmatch edgeRegex line) as [m |] eqn:Hm; [| discriminate].
  destruct (rmatch_sound _ _ _ Hm) as (pre & s' & -> & Hs).
  destruct (edgeRegex_sound _ _ Hs)
    as (from' & ws1 & ws2 & to' & post & Hs' & Hr & Hf & Ht & H1 & H2).
  subst s' m. simpl in Hdecl. injection Hdecl as <- <-.
  exists pre, ws1, ws2, post. repeat split; auto; try apply Hf; try apply Ht.
Qed.

Lemma edge_declaration_shape_witness :
  rmatch nodeRegex (QStr.dq "  'a'->'b';") = None /\
  exists pre ws1 ws2 post,
    QStr.dq "  'a'->'b';" = pre ++ edgeShape "a" ws1 ws2 "b" post /\
    plain "a" /\ plain "b" /\
    allChars space ws1 = true /\ allChars space ws2 = true.
Proof.
  apply (edge_declaration_shape (QStr.dq "  'a'->'b';") "a" "b"). reflexivity.
Defined.

Lemma no_bracket_no_node (line : string) :
  allChars notBracket line = true -> rmatch nodeRegex line = None.
Proof.
  intros Hnb. destruct (rmatch nodeRegex line) as [m |] eqn:Hm; [| reflexivity].
  destruct (rmatch_sound _ _ _ Hm) as (pre & s' & -> & Hs).
  destruct (nodeRegex_sound _ _ Hs) as (id & ws & label & post & -> & _).
  unfold nodeShape, quoted in Hnb.
  rewrite allChars_app in Hnb. apply andb_prop in Hnb. destruct Hnb as [_ Hnb].
  simpl in Hnb. rewrite allChars_app in Hnb. simpl in Hnb.
  rewrite allChars_app in Hnb. simpl in Hnb.
  rewrite !andb_false_r in Hnb. discriminate.
Qed.

(** X11. Writing an edge statement and reading it back: in a line without
    opening bracket, after a prefix without double quote, the quoted
    source, an arrow with any white space around it, the quoted
    destination and any trailing text are read as the edge declaration
    between these two identifiers. *)
Theorem edge_statement_round_trip (pre from ws1 ws2 to post : string)
    (Hpre : allChars not_quote pre = true)
    (Hfrom : plain from) (Hto : plain to)
    (Hws1 : allChars space ws1 = true) (Hws2 : allChars space ws2 = true)
    (Hnb : allChars notBracket (pre ++ edgeShape from ws1 ws2 to post) = true) :
  edgeDecl (pre ++ edgeShape from ws1 ws2 to post) = Some (from, to).
Proof.
  unfold edgeDecl. rewrite (no_bracket_no_node _ Hnb).
  rewrite edgeRegex_eq, (rmatch_skip_quote _ _ _ Hpre).
  rewrite rmatch_eq. unfold caps0, edgeShape, quoted at 1.
  rewrite (group_then_quote _ _ _ _ Hfrom),
    (edgeTail_accepts _ _ _ _ _ Hws1 Hws2 Hto).
  reflexivity.
Qed.

Lemma edge_statement_round_trip_witness :
  edgeDecl ("  " ++ edgeShape "a::f" " " " " "b::g" ";") = Some ("a::f", "b::g").
Proof.
  apply (edge_statement_round_trip "  " "a::f" " " " " "b::g" ";");
    try (split; [discriminate | reflexivity]); reflexivity.
Defined.

(** ** Lines with an arrow and a label attribute *)

Lemma append_assoc3 (a b c : string) : (a ++ b) ++ c = a ++ b ++ c.
Proof. induction a as [| x a IH]; simpl; [reflexivity | rewrite IH; reflexivity]. Qed.

Lemma space_not_quote (ws : string) :
  allChars space ws = true -> allChars not_quote ws = true.
Proof.
  induction ws as [| c ws IH]; intros H; [reflexivity |].
  simpl in H. apply andb_prop in H. destruct H as [Hc Hws].
  simpl. rewrite (IH Hws), andb_true_r. unfold not_quote.
  destruct (Ascii.eqb_spec c QStr.dquote) as [-> | _]; [discriminate | reflexivity].
Qed.

Lemma arrow_plain (ws1 ws2 : string) :
  allChars space ws1 = true -> allChars space ws2 = true ->
  plain (ws1 ++ "->" ++ ws2).
Proof.
  intros H1 H2. split.
  - destruct ws1; discriminate.
  - rewrite allChars_app, (space_not_quote _ H1). simpl.
    apply space_not_quote. assumption.
Qed.

(** The rest of the node pattern fails in front of an arrow. *)
Lemma nodeTail_at_arrow (ws r : string) (cl : list string) :
  allChars space ws = true ->
  match_here nodeTail (ws ++ "->" ++ r) (mkCaps cl None) = None.
Proof.
  intros Hws. unfold nodeTail. cbn [lit app].
  change ("->" ++ r) with (String "-" (String ">" r)).
  rewrite (star_space_exact _ _ "-"%char _ _ (space_not_char "["%char eq_refl) eq_refl ws Hws).
  reflexivity.
Qed.

Lemma nodeRegex_accepts (id ws label post : string) :
  plain id -> plain label -> allChars space ws = true ->
  match_here nodeRegex (nodeShape id ws label post) caps0 = Some [id; label].
Proof.
  intros Hid Hlabel Hws. rewrite nodeRegex_eq. unfold caps0, nodeShape, quoted at 1.
  rewrite (group_then_quote _ _ _ _ Hid), (nodeTail_accepts _ _ _ _ Hws Hlabel).
  reflexivity.
Qed.

(** A match at some place of a text gives a match of the whole text,
    perhaps an earlier one. *)
Lemma rmatch_complete (pat : pattern) (s : string) (r : list string) :
  match_here pat s caps0 = Some r ->
  forall pre, rmatch pat (pre ++ s) <> None.
Proof.
  intros H pre. induction pre as [| c pre IH]; cbn [append]; rewrite rmatch_eq.
  - rewrite H. discriminate.
  - destruct (match_here pat (String c (pre ++ s)) caps0); [discriminate | exact IH].
Qed.

Lemma node_statement_iff (line : string) :
  rmatch nodeRegex line <> None <-> holdsNodeStatement line.
Proof.
  split.
  - intros H. destruct (rmatch nodeRegex line) as [m |] eqn:Hm; [| congruence].
    destruct (rmatch_sound _ _ _ Hm) as (pre & s' & -> & Hs).
    destruct (nodeRegex_sound _ _ Hs) as (id & ws & label & post & -> & _ & Hi & Hl & Hw).
    exists pre, id, ws, label, post. auto.
  - intros (pre & id & ws & label & post & -> & Hi & Hl & Hw).
    apply (rmatch_complete _ _ _ (nodeRegex_accepts id ws label post Hi Hl Hw)).
Qed.

Lemma node_of_labelled_arrow (pre a ws1 ws2 b ws3 x post : string) :
  allChars not_quote pre = true -> plain a -> plain b -> plain x ->
  allChars notBracket b = true ->
  allChars space ws1 = true -> allChars space ws2 = true ->
  allChars space ws3 = true ->
  rmatch nodeRegex (labelledArrow pre a ws1 ws2 b ws3 x post) = Some [b; x].
Proof.
  intros Hpre Ha Hb Hx Hnb Hws1 Hws2 Hws3.
  pose proof (arrow_plain ws1 ws2 Hws1 Hws2) as Hmid.
  unfold labelledArrow, edgeShape.
  rewrite (rmatch_skip pre) by exact Hpre.
  unfold quoted at 1.
  rewrite rmatch_eq, nodeRegex_eq. unfold caps0.
  rewrite (group_then_quote _ _ _ _ Ha), <- nodeRegex_eq.
  rewrite (nodeTail_at_arrow ws1 _ _ Hws1).
  rewrite (rmatch_skip a) by apply Ha.
  assert (Hre : forall rest,
             ws1 ++ "->" ++ ws2 ++ quoted b rest =
             (ws1 ++ "->" ++ ws2) ++ String QStr.dquote (b ++ String QStr.dquote rest)).
  { intros rest. rewrite append_assoc3. reflexivity. }
  rewrite Hre.
  rewrite rmatch_eq, nodeRegex_eq. unfold caps0.
  rewrite (group_then_quote _ _ _ _ Hmid), <- nodeRegex_eq.
  rewrite (nodeTail_no_bracket b _ _ Hnb).
  rewrite (rmatch_skip (ws1 ++ "->" ++ ws2)) by apply Hmid.
  rewrite rmatch_eq, nodeRegex_eq. unfold caps0.
  rewrite (group_then_quote _ _ _ _ Hb).
  rewrite (nodeTail_accepts _ _ _ _ Hws3 Hx). reflexivity.
Qed.

Lemma edge_of_labelled_arrow (pre a ws1 ws2 b ws3 x post : string) :
  allChars not_quote pre = true -> plain a -> plain b ->
  allChars space ws1 = true -> allChars space ws2 = true ->
  rmatch edgeRegex (labelledArrow pre a ws1 ws2 b ws3 x post) = Some [a; b].
Proof.
  intros Hpre Ha Hb Hws1 Hws2. unfold labelledArrow.
  rewrite edgeRegex_eq, (rmatch_skip_quote _ _ _ Hpre).
  rewrite rmatch_eq. unfold caps0, edgeShape, quoted at 1.
  rewrite (group_then_quote _ _ _ _ Ha),
    (edgeTail_accepts _ _ _ _ _ Hws1 Hws2 Hb).
  reflexivity.
Qed.

Lemma createNode_mem (id label : string) (g : GraphView) :
  QMap.mem id (m_nodes (snd (createNode id label g))) = true.
Proof.
  unfold createNode. destruct (QMap.mem id (m_nodes g)) eqn:Hmem; cbn [snd m_nodes].
  - exact Hmem.
  - rewrite QMapFacts.mem_find_b, find_add, String.eqb_refl. reflexivity.
Qed.

Lemma createNode_others (id label other : string) (g : GraphView) :
  other <> id ->
  QMap.find other (m_nodes (snd (createNode id label g))) = QMap.find other (m_nodes g).
Proof.
  intros Hne. unfold createNode.
  destruct (QMap.mem id (m_nodes g)); cbn [snd m_nodes]; [reflexivity |].
  rewrite find_add. destruct (String.eqb_spec id other); [congruence | reflexivity].
Qed.

(** C10, as the code has it. Whether a line with an edge arrow records its edge is
    decided by the node pattern alone: the line records no edge exactly
    when it holds a node statement, that is a quoted text followed, after
    white space only, by [[label=], a quoted text and the closing bracket
    right after it; a line with an arrow that holds none has its edge
    appended and leaves the view as it was. The lines
    ['a' -> 'b' [label='x']] hold a node statement, with any white space
    around the arrow and in front of the bracket, any prefix without double
    quote and any trailing text, for all plain [a], [b], [x] with no
    opening bracket in [b]: the edge pattern matches them with [a] and
    [b], yet they are read as the declaration of the node [b] with the
    label [x]. Parsing such a line leaves the list of edges as it was, puts
    [b] in the node map, shows the display form of [x] in the node when
    [b] is new, and changes the entry of no other identifier, so that [a]
    is not declared by it. The lines with a second attribute after the
    label, with white space in front of the closing bracket, or with the
    bracket in front of the arrow hold no node statement and record the
    edge. *)
Theorem labelled_arrow_is_node (pre a ws1 ws2 b ws3 x post : string)
    (g : GraphView) (edges : list (string * string))
    (Hpre : allChars not_quote pre = true)
    (Ha : plain a) (Hb : plain b) (Hx : plain x)
    (Hnb : allChars notBracket b = true)
    (Hws1 : allChars space ws1 = true) (Hws2 : allChars space ws2 = true)
    (Hws3 : allChars space ws3 = true) :
  (forall line, rmatch edgeRegex line <> None ->
     (edgeDecl line = None <-> holdsNodeStatement line)) /\
  (forall line edgeMatch,
     rmatch edgeRegex line = Some edgeMatch -> ~ holdsNodeStatement line ->
     parseLine (g, edges) line =
       (g, (edges ++ [(captured 1 edgeMatch, captured 2 edgeMatch)])%list)) /\
  rmatch edgeRegex (labelledArrow pre a ws1 ws2 b ws3 x post) = Some [a; b] /\
  nodeDecl (labelledArrow pre a ws1 ws2 b ws3 x post) = Some (b, x) /\
  edgeDecl (labelledArrow pre a ws1 ws2 b ws3 x post) = None /\
  snd (parseLine (g, edges) (labelledArrow pre a ws1 ws2 b ws3 x post)) = edges /\
  QMap.mem b (m_nodes (fst (parseLine (g, edges)
                              (labelledArrow pre a ws1 ws2 b ws3 x post)))) = true /\
  (QMap.find b (m_nodes g) = None ->
   nodeText (fst (parseLine (g, edges) (labelledArrow pre a ws1 ws2 b ws3 x post))) b =
     Some (displayLabel x)) /\
  (forall other, other <> b ->
     QMap.find other (m_nodes (fst (parseLine (g, edges)
                                      (labelledArrow pre a ws1 ws2 b ws3 x post)))) =
     QMap.find other (m_nodes g)) /\
  edgeDecl twoAttributes = Some ("a", "b") /\
  edgeDecl spaceBeforeBracket = Some ("a", "b") /\
  edgeDecl labelFirst = Some ("a", "b").
Proof.
  pose proof (node_of_labelled_arrow pre a ws1 ws2 b ws3 x post
                Hpre Ha Hb Hx Hnb Hws1 Hws2 Hws3) as Hnode.
  destruct (node_pattern_first _ _ g edges Hnode) as [Hparse Hedge].
  change (captured 1 [b; x]) with b in Hparse.
  change (captured 2 [b; x]) with x in Hparse.
  split; [| split; [| split; [| split; [| split; [| split; [| split; [| split;
    [| split; [| repeat split]]]]]]]]].
  - intros line Harrow. rewrite <- node_statement_iff. unfold edgeDecl.
    destruct (rmatch nodeRegex line) as [m |].
    + split; [discriminate | reflexivity].
    + destruct (rmatch edgeRegex line) as [m |]; [| congruence].
      split; [discriminate | congruence].
  - intros line edgeMatch Harrow Hnone. rewrite <- node_statement_iff in Hnone.
    unfold parseLine. destruct (rmatch nodeRegex line) as [m |].
    + exfalso. apply Hnone. discriminate.
    + rewrite Harrow. reflexivity.
  - apply edge_of_labelled_arrow; assumption.
  - unfold nodeDecl. rewrite Hnode. reflexivity.
  - exact Hedge.
  - rewrite Hparse. reflexivity.
  - rewrite Hparse. apply createNode_mem.
  - intros Hfresh. rewrite Hparse. apply createNode_text. assumption.
  - intros other Hne. rewrite Hparse. apply createNode_others. assumption.
Qed.

Lemma labelled_arrow_is_node_witness :
  labelledArrow "  " "a" "" "  " "b" " " "x" "; // call" =
    QStr.dq "  'a'->  'b' [label='x']; // call" /\
  rmatch edgeRegex (QStr.dq "  'a'->  'b' [label='x']; // call") = Some ["a"; "b"] /\
  nodeDecl (QStr.dq "  'a'->  'b' [label='x']; // call") = Some ("b", "x") /\
  edgeDecl (QStr.dq "  'a'->  'b' [label='x']; // call") = None /\
  nodeText (fst (parseLine (clear initialView, [("c", "d")])
                   (QStr.dq "  'a'->  'b' [label='x']; // call"))) "b" = Some "x" /\
  QMap.find "a" (m_nodes (fst (parseLine (clear initialView, [("c", "d")])
                                 (QStr.dq "  'a'->  'b' [label='x']; // call")))) = None.
Proof.
  destruct (labelled_arrow_is_node "  " "a" "" "  " "b" " " "x" "; // call"
              (clear initialView) [("c", "d")])
    as (_ & _ & He & Hn & Hd & _ & _ & Ht & Ho & _);
    try (split; [discriminate | reflexivity]); try reflexivity.
  split; [reflexivity |].
  split; [exact He |]. split; [exact Hn |]. split; [exact Hd |].
  split; [apply Ht; reflexivity |].
  rewrite Ho; [reflexivity | discriminate].
Defined.

(** C10, counterexample. The line ['a' -> 'b' [label='x', color='red']]
    holds an edge arrow and a bracketed label attribute; the node pattern
    does not match it, because the bracket is not closed right after the
    label, and the edge from [a] to [b] is recorded. *)
Lemma arrow_with_two_attributes_is_edge : ~ labelledArrowNeverEdge.
Proof.
  intros H.
  assert (Hb : bracketedLabel twoAttributes).
  { exists (QStr.dq "'a' -> 'b' "), (QStr.dq "label='x', color='red'"), "".
    split; reflexivity. }
  specialize (H twoAttributes ["a"; "b"] eq_refl Hb).
  discriminate H.
Qed.

(** The other two lines hold a bracketed label attribute as well, and none
    of the three declares a node. *)
Example other_brackets_declare_no_node :
  bracketedLabel spaceBeforeBracket /\ bracketedLabel labelFirst /\
  nodeDecl twoAttributes = None /\ nodeDecl spaceBeforeBracket = None /\
  nodeDecl labelFirst = None.
Proof.
  split; [| split; [| repeat split]].
  - exists (QStr.dq "'a' -> 'b' "), (QStr.dq "label='x' "), "". split; reflexivity.
  - exists "", (QStr.dq "label='x'"), (QStr.dq " 'a' -> 'b'"). split; reflexivity.
Qed.

(** ** The background grid *)

Module GridFacts.

Import Grid.

Lemma below_ceiling (y : Z) (limit : Q) :
  (inject_Z y < limit)%Q -> (y < Qceiling limit)%Z.
Proof.
  intros H. rewrite Zlt_Qlt. eapply Qlt_le_trans; [exact H | apply Qle_ceiling].
Qed.

Lemma gridLoop_spec : forall fuel x limit y,
  (Qceiling limit - x <= Z.of_nat fuel)%Z ->
  (In y (gridLoop fuel x limit) <->
   (exists i, (0 <= i)%Z /\ y = (x + gridSize * i)%Z) /\ (inject_Z y < limit)%Q).
Proof.
  unfold gridSize.
  induction fuel as [| fuel IH]; intros x limit y Hfuel.
  - cbn [gridLoop In]. split; [contradiction |]. intros [[i [Hi ->]] Hlt].
    apply below_ceiling in Hlt. lia.
  - cbn [gridLoop]. unfold gridSize. destruct (Qlt_le_dec (inject_Z x) limit) as [Hx | Hx].
    + cbn [In]. rewrite IH by lia. split.
      * intros [<- | [[i [Hi ->]] Hlt]].
        -- split; [exists 0%Z; lia | assumption].
        -- split; [exists (i + 1)%Z; lia | assumption].
      * intros [[i [Hi ->]] Hlt].
        destruct (Z.eq_dec i 0) as [-> | Hne]; [left; lia |].
        right. split; [exists (i - 1)%Z; lia | assumption].
    + split; [contradiction |]. intros [[i [Hi ->]] Hlt]. exfalso.
      apply (Qlt_irrefl limit). eapply Qle_lt_trans; [exact Hx |].
      eapply Qle_lt_trans; [| exact Hlt]. rewrite <- Zle_Qle. lia.
Qed.

Lemma firstLine_multiple v : (firstLine v mod 50 = 0)%Z.
Proof.
  unfold firstLine, gridSize.
  pose proof (Z.quot_rem' (toInt v) 50) as H.
  replace (toInt v - Z.rem (toInt v) 50)%Z with (Z.quot (toInt v) 50 * 50)%Z by lia.
  apply Z.mod_mul. lia.
Qed.

Lemma toInt_le (v : Q) (m : Z) : (v <= inject_Z m)%Q -> (toInt v <= m)%Z.
Proof.
  unfold Qle, toInt. simpl. intros H.
  pose proof (Z.quot_rem' (Qnum v) (Zpos (Qden v))) as Hqr.
  destruct (Z.le_gt_cases 0 (Qnum v)) as [Hpos | Hneg].
  - pose proof (Z.rem_bound_pos (Qnum v) (Zpos (Qden v)) Hpos ltac:(lia)). nia.
  - pose proof (Z.rem_bound_pos_neg (Qnum v) (Zpos (Qden v)) ltac:(lia) ltac:(lia)). nia.
Qed.

Lemma toInt_near (v : Q) :
  (inject_Z (toInt v - 1) < v)%Q /\ (v < inject_Z (toInt v + 1))%Q.
Proof.
  unfold Qlt, toInt. simpl.
  pose proof (Z.quot_rem' (Qnum v) (Zpos (Qden v))) as Hqr.
  destruct (Z.le_gt_cases 0 (Qnum v)) as [Hpos | Hneg].
  - pose proof (Z.rem_bound_pos (Qnum v) (Zpos (Qden v)) Hpos ltac:(lia)). nia.
  - pose proof (Z.rem_bound_pos_neg (Qnum v) (Zpos (Qden v)) ltac:(lia) ltac:(lia)). nia.
Qed.

Lemma firstLine_covers (v : Q) (m : Z) :
  (m mod 50 = 0)%Z -> (v <= inject_Z m)%Q -> (firstLine v <= m)%Z.
Proof.
  intros Hm Hv. apply toInt_le in Hv.
  pose proof (firstLine_multiple v) as Hf. unfold firstLine, gridSize in *.
  pose proof (Z.quot_rem' (toInt v) 50) as Hqr.
  destruct (Z.le_gt_cases 0 (toInt v)) as [Hpos | Hneg].
  - pose proof (Z.rem_bound_pos (toInt v) 50 Hpos ltac:(lia)). lia.
  - pose proof (Z.rem_bound_pos_neg (toInt v) 50 ltac:(lia) ltac:(lia)).
    apply Z.mod_divide in Hm; [| lia]. apply Z.mod_divide in Hf; [| lia].
    destruct Hm as [j ->]. destruct Hf as [q Hq]. lia.
Qed.

Lemma firstLine_close (v : Q) : (v < inject_Z (firstLine v + 50))%Q.
Proof.
  destruct (toInt_near v) as [_ Hup].
  eapply Qlt_le_trans; [exact Hup |]. rewrite <- Zle_Qle.
  unfold firstLine, gridSize.
  destruct (Z.le_gt_cases 0 (toInt v)) as [Hpos | Hneg].
  - pose proof (Z.rem_bound_pos (toInt v) 50 Hpos ltac:(lia)). lia.
  - pose proof (Z.rem_bound_pos_neg (toInt v) 50 ltac:(lia) ltac:(lia)). lia.
Qed.

Lemma gridCoords_spec (v limit : Q) (x : Z) :
  In x (gridCoords v limit) <->
  (x mod 50 = 0)%Z /\ (firstLine v <= x)%Z /\ (inject_Z x < limit)%Q.
Proof.
  unfold gridCoords. rewrite gridLoop_spec by lia. unfold gridSize.
  pose proof (firstLine_multiple v) as Hf.
  apply Z.mod_divide in Hf; [| lia]. destruct Hf as [q Hq].
  split.
  - intros [[i [Hi ->]] Hlt]. split; [| split; [lia | assumption]].
    rewrite Hq. replace (q * 50 + 50 * i)%Z with ((q + i) * 50)%Z by lia.
    apply Z.mod_mul. lia.
  - intros (Hm & Hge & Hlt). split; [| assumption].
    apply Z.mod_divide in Hm; [| lia]. destruct Hm as [j ->].
    exists (j - q)%Z. lia.
Qed.

(** X12. The background grid is aligned to the origin of the scene, not to
    the exposed rectangle: every line drawn is at a multiple of 50, begins
    less than 50 before the left (top) edge and lies before the right
    (bottom) edge; and every multiple of 50 from the left (top) edge to
    before the right (bottom) edge has its line. The four hypotheses are
    the range in which the conversions of the code are defined. *)
Theorem background_grid (rect : QRectF)
    (Hleft : inIntRange (rectLeft rect)) (Htop : inIntRange (rectTop rect))
    (Hright : exactUpTo (rectRight rect)) (Hbottom : exactUpTo (rectBottom rect)) :
  (forall l, In l (drawBackground rect) ->
     (exists x, l = verticalLine rect x /\ (x mod 50 = 0)%Z /\
                (rectLeft rect < inject_Z (x + 50))%Q /\
                (inject_Z x < rectRight rect)%Q) \/
     (exists y, l = horizontalLine rect y /\ (y mod 50 = 0)%Z /\
                (rectTop rect < inject_Z (y + 50))%Q /\
                (inject_Z y < rectBottom rect)%Q)) /\
  (forall m, (m mod 50 = 0)%Z ->
     ((rectLeft rect <= inject_Z m)%Q -> (inject_Z m < rectRight rect)%Q ->
      In (verticalLine rect m) (drawBackground rect)) /\
     ((rectTop rect <= inject_Z m)%Q -> (inject_Z m < rectBottom rect)%Q ->
      In (horizontalLine rect m) (drawBackground rect))).
Proof.
  assert (Hnear : forall v x, (firstLine v <= x)%Z -> (v < inject_Z (x + 50))%Q).
  { intros v x Hx. eapply Qlt_le_trans; [apply firstLine_close |].
    rewrite <- Zle_Qle. lia. }
  unfold drawBackground. split.
  - intros l Hin. apply in_app_iff in Hin. destruct Hin as [Hin | Hin];
      apply in_map_iff in Hin; destruct Hin as (c & <- & Hc);
      apply gridCoords_spec in Hc; destruct Hc as (Hm & Hge & Hlt);
      [left | right]; exists c; auto.
  - intros m Hm. split; intros Hge Hlt; apply in_app_iff; [left | right];
      apply in_map; apply gridCoords_spec;
      (split; [assumption | split; [apply firstLine_covers; assumption | assumption]]).
Qed.

Lemma background_grid_witness :
  In (verticalLine (mkRectF (-30 # 1) (10 # 1) (120 # 1) (60 # 1)) 0)
     (drawBackground (mkRectF (-30 # 1) (10 # 1) (120 # 1) (60 # 1))).
Proof.
  destruct (background_grid (mkRectF (-30 # 1) (10 # 1) (120 # 1) (60 # 1)))
    as (_ & Hcover).
  - split; [apply Z.leb_le | apply Z.ltb_lt]; reflexivity.
  - split; [apply Z.leb_le | apply Z.ltb_lt]; reflexivity.
  - apply Qle_bool_iff. reflexivity.
  - apply Qle_bool_iff. reflexivity.
  - apply (Hcover 0%Z eq_refl); [apply Qle_bool_iff |]; reflexivity.
Defined.

End GridFacts.

(** ** What the layout and [createNode] leave alone *)

(** X13. [layoutGraph] moves ellipses and does nothing else, whatever the
    view: the node map, the placeholder, the calls on the view and the
    number of items are unchanged, every item that is not an ellipse stays
    as it is, and every ellipse keeps its text. *)
Theorem layout_moves_ellipses_only (g : GraphView) (i : nat) (it : Item)
    (Hit : nth_error (m_scene g) i = Some it) :
  m_nodes (layoutGraph g) = m_nodes g /\
  m_placeholderText (layoutGraph g) = m_placeholderText g /\
  view_calls (layoutGraph g) = view_calls g /\
  List.length (m_scene (layoutGraph g)) = List.length (m_scene g) /\
  exists it',
    nth_error (m_scene (layoutGraph g)) i = Some it' /\
    (isEllipse it = false -> it' = it) /\
    (forall p t, it = EllipseItem p t -> exists p', it' = EllipseItem p' t).
Proof.
  rewrite layoutGraph_eq. cbn [m_scene m_nodes m_placeholderText view_calls].
  rewrite placeAll_length, placeAll_nth, Hit. simpl.
  repeat split.
  eexists. split; [reflexivity |]. split.
  - destruct it; simpl; intros H; try reflexivity. discriminate.
  - intros p t ->. simpl. eexists. reflexivity.
Qed.

Lemma layout_moves_ellipses_only_witness :
  exists it',
    nth_error (m_scene (layoutGraph (parseDotFile scenarioA initialView))) 2 = Some it' /\
    it' = LineItem (75, 40)%Z (275, 0)%Z.
Proof.
  destruct (layout_moves_ellipses_only (parseDotFile scenarioA initialView) 2
              (LineItem (75, 40)%Z (275, 0)%Z) eq_refl)
    as (_ & _ & _ & _ & it' & Hnth & Hkeep & _).
  exists it'. split; [exact Hnth | apply Hkeep; reflexivity].
Defined.

Lemma mem_find_some (m : QMap.t nat) id :
  QMap.mem id m = true -> QMap.find id m = Some (nodeAt id m).
Proof.
  rewrite QMapFacts.mem_find_b. unfold nodeAt.
  destruct (QMap.find id m); [reflexivity | discriminate].
Qed.

(** X14. [createNode] registers the node it returns and nothing else: after
    the call the map sends the identifier to the returned handle, the
    entries of the other identifiers are as before, every item that was in
    the scene is still there as it was, a known identifier adds nothing to
    the scene while a new one gets an ellipse at the origin that carries
    the display form of its label, and a second call for the same
    identifier, with any label, returns the same handle and changes
    nothing. *)
Theorem createNode_registers (id label : string) (g : GraphView) :
  QMap.find id (m_nodes (snd (createNode id label g))) =
    Some (fst (createNode id label g)) /\
  (forall other, other <> id ->
     QMap.find other (m_nodes (snd (createNode id label g))) =
     QMap.find other (m_nodes g)) /\
  (forall i it, nth_error (m_scene g) i = Some it ->
     nth_error (m_scene (snd (createNode id label g))) i = Some it) /\
  (QMap.mem id (m_nodes g) = true ->
     m_scene (snd (createNode id label g)) = m_scene g) /\
  (QMap.mem id (m_nodes g) = false ->
     nth_error (m_scene (snd (createNode id label g))) (fst (createNode id label g)) =
       Some (EllipseItem (0, 0)%Z (displayLabel label))) /\
  (forall label',
     createNode id label' (snd (createNode id label g)) = createNode id label g).
Proof.
  destruct (QMap.mem id (m_nodes g)) eqn:Hmem.
  - assert (Heq : createNode id label g = (nodeAt id (m_nodes g), g)).
    { unfold createNode. rewrite Hmem. reflexivity. }
    rewrite Heq. cbn [fst snd].
    split; [apply mem_find_some; assumption |].
    split; [reflexivity |].
    split; [auto |].
    split; [reflexivity |].
    split; [discriminate |].
    intros label'. unfold createNode. rewrite Hmem. reflexivity.
  - set (g' := mkGraphView (m_scene g ++ [EllipseItem (0, 0)%Z (displayLabel label)])
                           (QMap.add id (List.length (m_scene g)) (m_nodes g))
                           (m_placeholderText g) (view_calls g)).
    assert (Heq : createNode id label g = (List.length (m_scene g), g')).
    { unfold createNode. rewrite Hmem. reflexivity. }
    rewrite Heq. cbn [fst snd]. unfold g' at 1 2 3 4 5. cbn [m_nodes m_scene].
    split; [rewrite find_add, String.eqb_refl; reflexivity |].
    split.
    { intros other Hne. rewrite find_add.
      destruct (String.eqb_spec id other); [congruence | reflexivity]. }
    split.
    { intros i it Hit. rewrite nth_error_app1; [exact Hit |].
      apply nth_error_Some. rewrite Hit. discriminate. }
    split; [discriminate |].
    split; [intros _; apply nth_error_snoc_last |].
    intros label'. unfold createNode.
    assert (Hm : QMap.mem id (m_nodes g') = true).
    { unfold g'. cbn [m_nodes]. rewrite QMapFacts.mem_find_b, find_add, String.eqb_refl.
      reflexivity. }
    rewrite Hm. f_equal. unfold nodeAt, g'. cbn [m_nodes].
    rewrite find_add, String.eqb_refl. reflexivity.
Qed.

(** X15. No text in a parsed scene is longer than 23 characters: the text
    of every node is its first label when that has at most 20 characters,
    and three dots with 20 characters otherwise. *)
Theorem node_text_bounded (content : string) (g : GraphView) (id text : string)
    (Htext : nodeText (parseDotFile content g) id = Some text) :
  String.length text <= 23 /\
  exists label,
    In (id, label) (nodeDecls content) /\ text = displayLabel label.
Proof.
  assert (Hbound : forall label, String.length (displayLabel label) <= 23).
  { intros label. unfold displayLabel.
    destruct (Nat.ltb_spec 20 (String.length label)) as [Hlong | Hshort]; [| lia].
    destruct (right_is_suffix 20 label) as (before & _ & Hlen); [lia |].
    simpl. rewrite Hlen. lia. }
  destruct (nodeDecls content) as [| d decls] eqn:Hdecls.
  - rewrite (parseDotFile_empty content g Hdecls) in Htext.
    unfold nodeText in Htext. cbn [m_nodes] in Htext.
    rewrite QMapFacts.empty_o in Htext. discriminate.
  - assert (Hne : nodeDecls content <> []) by (rewrite Hdecls; discriminate).
    destruct (parseDotFile_graph content g Hne) as (g1 & extra & Ht & Heq & _).
    rewrite Heq in Htext. unfold nodeText in Htext. cbn [m_nodes m_scene] in Htext.
    destruct (QMap.find id (m_nodes g1)) as [h |] eqn:Hf; [| discriminate].
    destruct (tracks_handle _ _ _ _ Ht Hf) as [label Hh].
    pose proof Hf as Hel. apply elements_find, In_nth_error in Hel.
    destruct Hel as [k Hk].
    rewrite (placed_item _ _ _ _ _ _ extra Ht Hk Hh) in Htext.
    injection Htext as <-. split; [apply Hbound |].
    exists label. split; [| reflexivity].
    apply nth_error_In in Hh. rewrite <- Hdecls.
    clear - Hh. unfold firstSeen in Hh.
    assert (Hsub : forall decls acc x,
               In x (fold_left remember decls acc) -> In x acc \/ In x decls).
    { induction decls as [| d decls IH]; intros acc x Hx; [auto |].
      simpl in Hx. apply IH in Hx. destruct Hx as [Hx | Hx]; [| simpl; auto].
      unfold remember in Hx. destruct (declared acc (fst d)); [auto |].
      apply in_app_iff in Hx. destruct Hx as [Hx | [<- | []]]; simpl; auto. }
    apply Hsub in Hh. destruct Hh as [[] | Hh]. exact Hh.
Qed.

Lemma node_text_bounded_witness :
  String.length "helper" <= 23 /\
  exists label, In ("b", label) (nodeDecls scenarioA) /\ "helper" = displayLabel label.
Proof.
  apply (node_text_bounded scenarioA initialView "b" "helper"). reflexivity.
Defined.
